(** * Research 26 risk engine: a shallow embedding of [src/risk/risk_engine.py]

    The development follows the Python module method by method.

    - Finite Python floats are idealised as exact rationals ([Q]); rounding
      and signed zeros are not modelled.  The special values that pandas and
      numpy produce (division by zero, incomplete rolling windows, the first
      entry of [pct_change]) are kept: [fnum] adds [+inf], [-inf] and [NaN]
      to the rationals, with the IEEE rules for arithmetic and comparison.
    - Where a result is asked for to the last bit, rounding decides: the
      arithmetic of [apply_circuit_breaker] is modelled a second time on
      IEEE 754 binary64 numbers, the kernel's primitive floats (module
      [Binary64]).
    - Methods of [RiskEngine] run in a state-and-exception monad over a
      [World]: the engine object ([self]), the store of [dict] objects
      (positions are held by reference, as in Python), the readings of
      [datetime.now()] and the records handed to the logger. *)

From Stdlib Require Import QArith Qabs Qround Qminmax Lqa Lia ZArith.
From Stdlib Require Import Floats.PrimFloat.
From stdpp Require Import gmap strings list.

Open Scope Q_scope.

(** ** Numbers *)

Inductive fnum : Type :=
| Fin (q : Q)
| PInf
| NInf
| NaN.

(** Sign of a number as a [comparison] with zero; [None] for [NaN]. *)
Definition fsign (x : fnum) : option comparison :=
  match x with
  | Fin q => Some (q ?= 0)
  | PInf => Some Gt
  | NInf => Some Lt
  | NaN => None
  end.

Definition sign_mul (a b : comparison) : comparison :=
  match a, b with
  | Eq, _ | _, Eq => Eq
  | Gt, Gt | Lt, Lt => Gt
  | _, _ => Lt
  end.

(** The infinity of a given sign; [0 * inf] and [0 / 0] are [NaN]. *)
Definition inf_of (s : comparison) : fnum :=
  match s with
  | Gt => PInf
  | Lt => NInf
  | Eq => NaN
  end.

Definition fneg (x : fnum) : fnum :=
  match x with
  | Fin q => Fin (- q)
  | PInf => NInf
  | NInf => PInf
  | NaN => NaN
  end.

Definition fabs (x : fnum) : fnum :=
  match x with
  | Fin q => Fin (Qabs q)
  | PInf | NInf => PInf
  | NaN => NaN
  end.

Definition fadd (x y : fnum) : fnum :=
  match x, y with
  | NaN, _ | _, NaN => NaN
  | Fin a, Fin b => Fin (a + b)
  | PInf, NInf | NInf, PInf => NaN
  | PInf, _ | _, PInf => PInf
  | NInf, _ | _, NInf => NInf
  end.

Definition fsub (x y : fnum) : fnum := fadd x (fneg y).

Definition fmul (x y : fnum) : fnum :=
  match x, y with
  | Fin a, Fin b => Fin (a * b)
  | _, _ =>
      match fsign x, fsign y with
      | Some s, Some t => inf_of (sign_mul s t)
      | _, _ => NaN
      end
  end.

(** Division with numpy's conventions: [x / 0] is an infinity of the sign of
    [x], [0 / 0] and [inf / inf] are [NaN], a finite number over an infinity
    is zero. *)
Definition fdiv (x y : fnum) : fnum :=
  match x, y with
  | NaN, _ | _, NaN => NaN
  | Fin a, Fin b => if Qeq_bool b 0 then inf_of (a ?= 0) else Fin (a / b)
  | Fin _, _ => Fin 0
  | _, Fin b =>
      match fsign x with
      | Some s => inf_of (sign_mul s (if Qeq_bool b 0 then Gt else b ?= 0))
      | None => NaN
      end
  | _, _ => NaN
  end.

(** Three-way comparison; [None] as soon as a [NaN] is involved. *)
Definition fcompare (x y : fnum) : option comparison :=
  match x, y with
  | NaN, _ | _, NaN => None
  | Fin a, Fin b => Some (a ?= b)
  | PInf, PInf | NInf, NInf => Some Eq
  | PInf, _ | _, NInf => Some Gt
  | NInf, _ | _, PInf => Some Lt
  end.

(** Python's [x < y], [x <= y], [x > y], [x >= y] on floats: every
    comparison with a [NaN] is false. *)
Definition fltb (x y : fnum) : bool :=
  match fcompare x y with Some Lt => true | _ => false end.
Definition fleb (x y : fnum) : bool :=
  match fcompare x y with Some Lt | Some Eq => true | _ => false end.
Definition fgtb (x y : fnum) : bool := fltb y x.
Definition fgeb (x y : fnum) : bool := fleb y x.

Definition is_nan (x : fnum) : bool :=
  match x with NaN => true | _ => false end.

Definition is_fin (x : fnum) : bool :=
  match x with Fin _ => true | _ => false end.

(** [max] and [min] that skip [NaN], as pandas reductions do. *)
Definition nanmax (x y : fnum) : fnum :=
  match x, y with
  | NaN, _ => y
  | _, NaN => x
  | _, _ => if fltb x y then y else x
  end.

Definition nanmin (x y : fnum) : fnum :=
  match x, y with
  | NaN, _ => y
  | _, NaN => x
  | _, _ => if fltb y x then y else x
  end.

(** Python's builtin [sum]: a left fold starting from [0]. *)
Definition sum_Q (l : list Q) : Q := fold_left Qplus l 0.

(** ** pandas series *)

Abbreviation Series := (list fnum).

(** [s[-n:]] on a Python list. *)
Definition lastn {A : Type} (n : nat) (l : list A) : list A :=
  drop (length l - n) l.

(** [Series.expanding().max()]: the maximum of the valid entries seen so
    far ([NaN] until the first valid entry). *)
Fixpoint expanding_max_from (acc : fnum) (s : Series) : Series :=
  match s with
  | [] => []
  | x :: s' => let acc' := nanmax acc x in acc' :: expanding_max_from acc' s'
  end.

Definition expanding_max (s : Series) : Series := expanding_max_from NaN s.

(** Element-wise arithmetic of two series over the same index. *)
Fixpoint series_zip (op : fnum -> fnum -> fnum) (s t : Series) : Series :=
  match s, t with
  | x :: s', y :: t' => op x y :: series_zip op s' t'
  | _, _ => []
  end.

(** [Series.min()] and [Series.max()]: [NaN] entries are skipped, and the
    result is [NaN] when nothing is left. *)
Definition series_min (s : Series) : fnum := fold_left nanmin s NaN.
Definition series_max (s : Series) : fnum := fold_left nanmax s NaN.

(** [Series.dropna()]. *)
Definition dropna (s : Series) : Series := filter (fun x => is_nan x = false) s.

(** [fillna(method='pad')]: a [NaN] takes the last valid value before it. *)
Fixpoint ffill_from (prev : fnum) (s : Series) : Series :=
  match s with
  | [] => []
  | x :: s' => let y := if is_nan x then prev else x in y :: ffill_from y s'
  end.

Definition ffill (s : Series) : Series := ffill_from NaN s.

(** [Series.shift(1)]. *)
Definition shift1 (s : Series) : Series :=
  match s with
  | [] => []
  | _ => NaN :: take (length s - 1) s
  end.

(** [Series.pct_change()]: [data / data.shift(1) - 1] on the padded data. *)
Definition pct_change (s : Series) : Series :=
  let data := ffill s in
  map (fun x => fsub x (Fin 1)) (series_zip fdiv data (shift1 data)).

(** [np.sort]: ascending, [NaN] last. *)
Fixpoint insert_sorted (x : fnum) (s : Series) : Series :=
  match s with
  | [] => [x]
  | y :: s' => if is_nan y || fleb x y then x :: s else y :: insert_sorted x s'
  end.

Definition np_sort (s : Series) : Series := foldr insert_sorted [] s.

(** numpy's [_lerp a b t]. *)
Definition lerp (a b : fnum) (t : Q) : fnum :=
  let diff_b_a := fsub b a in
  if Qle_bool (1 # 2) t
  then fsub b (fmul diff_b_a (Fin (1 - t)))
  else fadd a (fmul diff_b_a (Fin t)).

(** ** Exceptions *)

Inductive exn : Type :=
| KeyError (key : string)
| ValueError (msg : string)
| ReferenceError.

Inductive outcome (A : Type) : Type :=
| Ok (a : A)
| Raise (e : exn).
Arguments Ok {A} a.
Arguments Raise {A} e.

(** [np.percentile(a, q)] with the default linear interpolation: the rank
    [q / 100] must lie in [[0, 1]], the virtual index is [(n - 1) * q / 100],
    and the result interpolates between its two neighbours in sorted order. *)
Definition np_percentile (a : Series) (q : fnum) : outcome fnum :=
  match fdiv q (Fin 100) with
  | Fin t =>
      if Qle_bool 0 t && Qle_bool t 1 then
        let arr := np_sort a in
        let n := length arr in
        let virtual_index := inject_Z (Z.of_nat (n - 1)) * t in
        let previous := Z.to_nat (Qfloor virtual_index) in
        let next := Nat.min (previous + 1) (n - 1) in
        let gamma := virtual_index - inject_Z (Z.of_nat previous) in
        Ok (lerp (nth previous arr NaN) (nth next arr NaN) gamma)
      else Raise (ValueError "Percentiles must be in the range [0, 100]")
  | _ => Raise (ValueError "Percentiles must be in the range [0, 100]")
  end.

(** ** Data model *)

Inductive RiskLevel : Type := GREEN | YELLOW | ORANGE | RED.

Inductive CircuitBreakerLevel : Type := NONE | LEVEL_1 | LEVEL_2 | LEVEL_3.

(** The [value] of a [CircuitBreakerLevel] member. *)
Definition level_value (l : CircuitBreakerLevel) : Z :=
  match l with NONE => 0 | LEVEL_1 => 1 | LEVEL_2 => 2 | LEVEL_3 => 3 end.

(** An f-string, piece by piece: literal text, and values with the format
    they are interpolated in ([:.2%], [:.2f], [str] of an exception). *)
Inductive fragment : Type :=
| Lit (s : string)
| Pct2 (x : fnum)
| Fix2 (x : fnum)
| Exc (e : exn).

Abbreviation Message := (list fragment).

Record RiskAlert : Type := mkRiskAlert {
  level : RiskLevel;
  message : Message;
  metric : string;
  current_value : fnum;
  limit_value : fnum;
  alert_timestamp : Z;
  action_required : bool
}.

(** A [dict] from symbols to weights, in insertion order. *)
Abbreviation Dict := (list (string * Q)).

Definition dict_keys (d : Dict) : list string := map fst d.
Definition dict_values (d : Dict) : list Q := map snd d.

Fixpoint dict_get (d : Dict) (k : string) : option Q :=
  match d with
  | [] => None
  | (k', v) :: d' => if String.eqb k' k then Some v else dict_get d' k
  end.

(** [d[k] = v]: an existing key keeps its place, a new key goes last. *)
Fixpoint dict_set (d : Dict) (k : string) (v : Q) : Dict :=
  match d with
  | [] => [(k, v)]
  | (k', v') :: d' =>
      if String.eqb k' k then (k', v) :: d' else (k', v') :: dict_set d' k v
  end.

(** Keys of a Python [dict] are unique. *)
Definition dict_wf (d : Dict) : Prop := NoDup (dict_keys d).

(** Objects are held by reference: a reference is an index in the store. *)
Abbreviation ref := nat.

Record Portfolio : Type := mkPortfolio {
  positions : ref;
  nav : Q;
  cash : Q;
  timestamp : Z;
  daily_pnl : Q;
  daily_pnl_pct : Q
}.

(** A [DataFrame] as its columns, in order. *)
Abbreviation DataFrame := (list (string * list fnum)).

Definition df_empty (df : DataFrame) : bool :=
  match df with
  | [] => true
  | (_, s) :: _ => Nat.eqb (length s) 0
  end.

Fixpoint df_column (df : DataFrame) (name : string) : option Series :=
  match df with
  | [] => None
  | (c, s) :: df' => if String.eqb c name then Some s else df_column df' name
  end.

(** [self.position_limits] and [self.circuit_breakers] are dicts built in
    [__init__] with a fixed set of literal keys. *)
Record PositionLimits : Type := mkPositionLimits {
  single_name : fnum;
  sector : fnum;
  gross : fnum;
  net : fnum
}.

Record CircuitBreakers : Type := mkCircuitBreakers {
  daily_loss_1 : fnum;
  daily_loss_2 : fnum;
  drawdown_30d : fnum
}.

Record RiskEngine : Type := mkRiskEngine {
  config : gmap string fnum;
  position_limits : PositionLimits;
  circuit_breakers : CircuitBreakers;
  var_confidence : fnum;
  var_horizon : fnum;
  current_breaker_level : CircuitBreakerLevel;
  risk_alerts : list RiskAlert;
  portfolio_history : list Portfolio;
  correlation_matrix : DataFrame
}.

Inductive LogLevel : Type := INFO | WARNING | CRITICAL.

(** ** The world a method runs in *)

Record World : Type := mkWorld {
  self : RiskEngine;
  store : list Dict;
  clock : nat -> Z;
  ticks : nat;
  logged : list (LogLevel * Message)
}.

Definition M (A : Type) : Type := World -> outcome A * World.

#[global] Instance M_ret : MRet M := fun A a w => (Ok a, w).

#[global] Instance M_bind : MBind M := fun A B f m w =>
  match m w with
  | (Ok a, w') => f a w'
  | (Raise e, w') => (Raise e, w')
  end.

Definition raise {A : Type} (e : exn) : M A := fun w => (Raise e, w).

(** [try: body except Exception as e: handler(e)]. *)
Definition try_except {A : Type} (body : M A) (handler : exn -> M A) : M A :=
  fun w =>
    match body w with
    | (Ok a, w') => (Ok a, w')
    | (Raise e, w') => handler e w'
    end.

Definition get_self : M RiskEngine := fun w => (Ok (self w), w).

Definition put_self (e : RiskEngine) : M unit := fun w =>
  (Ok tt, mkWorld e (store w) (clock w) (ticks w) (logged w)).

(** [datetime.now()]: the next reading of the clock. *)
Definition datetime_now : M Z := fun w =>
  (Ok (clock w (ticks w)),
   mkWorld (self w) (store w) (clock w) (S (ticks w)) (logged w)).

Definition log (lvl : LogLevel) (msg : Message) : M unit := fun w =>
  (Ok tt, mkWorld (self w) (store w) (clock w) (ticks w) (logged w ++ [(lvl, msg)])).

(** Reading through a reference.  References of a running program always
    point to an object; [ReferenceError] marks a world that is not one. *)
Definition deref (r : ref) : M Dict := fun w =>
  match store w !! r with
  | Some d => (Ok d, w)
  | None => (Raise ReferenceError, w)
  end.

(** A new object gets the next free reference. *)
Definition alloc (d : Dict) : M ref := fun w =>
  (Ok (length (store w)),
   mkWorld (self w) (store w ++ [d]) (clock w) (ticks w) (logged w)).

Definition assign (r : ref) (d : Dict) : M unit := fun w =>
  (Ok tt, mkWorld (self w) (<[r := d]> (store w)) (clock w) (ticks w) (logged w)).

(** [d.copy()], [d[k]] and [d[k] = v] on the dict behind a reference. *)
Definition dict_copy (r : ref) : M ref := d ← deref r; alloc d.

Definition getitem (r : ref) (k : string) : M Q :=
  d ← deref r;
  match dict_get d k with
  | Some v => mret v
  | None => raise (KeyError k)
  end.

Definition setitem (r : ref) (k : string) (v : Q) : M unit :=
  d ← deref r; assign r (dict_set d k v).

(** A [for] loop whose body runs for its effect. *)
Fixpoint for_each {A : Type} (l : list A) (body : A -> M unit) : M unit :=
  match l with
  | [] => mret tt
  | x :: l' => body x;; for_each l' body
  end.

(** A [for] loop that appends to a local list. *)
Fixpoint for_collect {A B : Type} (l : list A) (body : A -> M (list B)) : M (list B) :=
  match l with
  | [] => mret []
  | x :: l' => ys ← body x; zs ← for_collect l' body; mret (ys ++ zs)
  end.

Definition lift_outcome {A : Type} (o : outcome A) : M A := fun w => (o, w).

(** ** [RiskEngine.__init__] *)

Definition _get_default_config : gmap string fnum :=
  list_to_map
    [("single_name_limit", Fin 0.03);
     ("sector_limit", Fin 0.15);
     ("gross_limit", Fin 1.50);
     ("net_limit", Fin 0.50);
     ("daily_loss_1", Fin (-0.015));
     ("daily_loss_2", Fin (-0.020));
     ("drawdown_30d", Fin (-0.120));
     ("var_confidence", Fin 0.95);
     ("var_horizon", Fin 1);
     ("correlation_threshold", Fin 0.3);
     ("vix_spike_threshold", Fin 30);
     ("max_sector_exposure", Fin 0.15)].

(** [d.get(key, dflt)]. *)
Definition config_get (c : gmap string fnum) (key : string) (dflt : fnum) : fnum :=
  default dflt (c !! key).

(** [config or self._get_default_config()]: [None] and the empty dict are
    both falsy. *)
Definition config_or_default (cfg : option (gmap string fnum)) : gmap string fnum :=
  match cfg with
  | Some c => if decide (c = ∅) then _get_default_config else c
  | None => _get_default_config
  end.

Definition RiskEngine_init (cfg : option (gmap string fnum)) : outcome RiskEngine :=
  let config := config_or_default cfg in
  Ok {| config := config;
        position_limits :=
          {| single_name := config_get config "single_name_limit" (Fin 0.03);
             sector := config_get config "sector_limit" (Fin 0.15);
             gross := config_get config "gross_limit" (Fin 1.50);
             net := config_get config "net_limit" (Fin 0.50) |};
        circuit_breakers :=
          {| daily_loss_1 := config_get config "daily_loss_1" (Fin (-0.015));
             daily_loss_2 := config_get config "daily_loss_2" (Fin (-0.020));
             drawdown_30d := config_get config "drawdown_30d" (Fin (-0.120)) |};
        var_confidence := config_get config "var_confidence" (Fin 0.95);
        var_horizon := config_get config "var_horizon" (Fin 1);
        current_breaker_level := NONE;
        risk_alerts := [];
        portfolio_history := [];
        correlation_matrix := [] |}.

(** Assignments to attributes of [self]. *)
Definition with_breaker_level (e : RiskEngine) (l : CircuitBreakerLevel) : RiskEngine :=
  mkRiskEngine (config e) (position_limits e) (circuit_breakers e) (var_confidence e)
    (var_horizon e) l (risk_alerts e) (portfolio_history e) (correlation_matrix e).

Definition with_risk_alerts (e : RiskEngine) (a : list RiskAlert) : RiskEngine :=
  mkRiskEngine (config e) (position_limits e) (circuit_breakers e) (var_confidence e)
    (var_horizon e) (current_breaker_level e) a (portfolio_history e) (correlation_matrix e).

Definition with_portfolio_history (e : RiskEngine) (h : list Portfolio) : RiskEngine :=
  mkRiskEngine (config e) (position_limits e) (circuit_breakers e) (var_confidence e)
    (var_horizon e) (current_breaker_level e) (risk_alerts e) h (correlation_matrix e).

(** ** History, drawdown and value at risk *)

Definition update_portfolio_history (portfolio : Portfolio) : M unit :=
  self ← get_self;
  put_self (with_portfolio_history self (portfolio_history self ++ [portfolio]));;
  self ← get_self;
  if (252 <? length (portfolio_history self))%nat
  then put_self (with_portfolio_history self (lastn 252 (portfolio_history self)))
  else mret tt.

Definition _calculate_30day_drawdown (portfolio : Portfolio) : M fnum :=
  self ← get_self;
  if (length (portfolio_history self) <? 30)%nat then mret (Fin 0)
  else
    let recent_history := lastn 30 (portfolio_history self) in
    let nav_series := map (fun p => Fin (nav p)) recent_history in
    let rolling_max := expanding_max nav_series in
    let drawdown := series_zip fdiv (series_zip fsub nav_series rolling_max) rolling_max in
    mret (series_min drawdown).

Definition calculate_var (portfolio : Portfolio) : M fnum :=
  self ← get_self;
  if (length (portfolio_history self) <? 30)%nat then mret (Fin 0)
  else
    let nav_series := map (fun p => Fin (nav p)) (lastn 252 (portfolio_history self)) in
    let returns := dropna (pct_change nav_series) in
    if (length returns <? 10)%nat then mret (Fin 0)
    else
      let var_percentile := fmul (fsub (Fin 1) (var_confidence self)) (Fin 100) in
      var ← lift_outcome (np_percentile returns var_percentile);
      mret (fabs var).

(** ** Circuit breakers *)

Definition check_breakers (portfolio : Portfolio) : M CircuitBreakerLevel :=
  self ← get_self;
  if fleb (Fin (daily_pnl_pct portfolio)) (daily_loss_2 (circuit_breakers self)) then
    put_self (with_breaker_level self LEVEL_2);;
    log CRITICAL [Lit "Circuit breaker LEVEL 2 activated: ";
                  Pct2 (Fin (daily_pnl_pct portfolio)); Lit " daily loss"];;
    mret LEVEL_2
  else if fleb (Fin (daily_pnl_pct portfolio)) (daily_loss_1 (circuit_breakers self)) then
    put_self (with_breaker_level self LEVEL_1);;
    log WARNING [Lit "Circuit breaker LEVEL 1 activated: ";
                 Pct2 (Fin (daily_pnl_pct portfolio)); Lit " daily loss"];;
    mret LEVEL_1
  else
    drawdown ← _calculate_30day_drawdown portfolio;
    if fleb drawdown (drawdown_30d (circuit_breakers self)) then
      put_self (with_breaker_level self LEVEL_3);;
      log CRITICAL [Lit "Circuit breaker LEVEL 3 activated: ";
                    Pct2 drawdown; Lit " 30-day drawdown"];;
      mret LEVEL_3
    else
      put_self (with_breaker_level self NONE);;
      mret NONE.

(** [for symbol in d: d[symbol] *= factor]. *)
Definition scale_in_place (r : ref) (factor : Q) : M unit :=
  d ← deref r;
  for_each (dict_keys d) (fun symbol =>
    weight ← getitem r symbol;
    setitem r symbol (weight * factor)).

Definition Qgtb (a b : Q) : bool := negb (Qle_bool a b).

Definition apply_circuit_breaker (portfolio : Portfolio) (lvl : CircuitBreakerLevel) : M ref :=
  adjusted_positions ← dict_copy (positions portfolio);
  match lvl with
  | LEVEL_1 =>
      scale_in_place adjusted_positions 0.5;;
      log INFO [Lit "Applied circuit breaker LEVEL 1: halved gross exposure"]
  | LEVEL_2 =>
      d ← deref adjusted_positions;
      let gross_exposure := sum_Q (map Qabs (dict_values d)) in
      (if Qgtb gross_exposure 0
       then
         let scale_factor := 0.25 / gross_exposure in
         scale_in_place adjusted_positions scale_factor
       else mret tt);;
      log INFO [Lit "Applied circuit breaker LEVEL 2: flattened to 25% gross"]
  | LEVEL_3 =>
      scale_in_place adjusted_positions 0.25;;
      log INFO [Lit "Applied circuit breaker LEVEL 3: safe mode activated"]
  | NONE => mret tt
  end;;
  mret adjusted_positions.

(** ** Limit checks *)

Definition _check_single_name_limits (portfolio : Portfolio) : M (list RiskAlert) :=
  self ← get_self;
  d ← deref (positions portfolio);
  for_collect d (fun '(symbol, weight) =>
    let abs_weight := Fin (Qabs weight) in
    if fgtb abs_weight (single_name (position_limits self)) then
      let lv :=
        if fgtb abs_weight (fmul (single_name (position_limits self)) (Fin 1.2))
        then RED else ORANGE in
      now ← datetime_now;
      mret [mkRiskAlert lv [Lit "Single name limit exceeded: "; Lit symbol]
              "single_name_concentration" abs_weight
              (single_name (position_limits self)) now true]
    else mret []).

Definition _check_exposure_limits (portfolio : Portfolio) : M (list RiskAlert) :=
  self ← get_self;
  d ← deref (positions portfolio);
  let gross_exposure := sum_Q (map Qabs (dict_values d)) in
  let net_exposure := sum_Q (dict_values d) in
  gross_alerts ←
    (if fgtb (Fin gross_exposure) (gross (position_limits self)) then
       let lv :=
         if fgtb (Fin gross_exposure) (fmul (gross (position_limits self)) (Fin 1.1))
         then RED else ORANGE in
       now ← datetime_now;
       mret [mkRiskAlert lv [Lit "Gross exposure limit exceeded"] "gross_exposure"
               (Fin gross_exposure) (gross (position_limits self)) now true]
     else mret []);
  net_alerts ←
    (if fgtb (Fin (Qabs net_exposure)) (net (position_limits self)) then
       now ← datetime_now;
       mret [mkRiskAlert ORANGE [Lit "Net exposure limit exceeded"] "net_exposure"
               (Fin (Qabs net_exposure)) (net (position_limits self)) now false]
     else mret []);
  mret (gross_alerts ++ net_alerts).

Definition _check_var_limits (portfolio : Portfolio) : M (list RiskAlert) :=
  try_except
    (var ← calculate_var portfolio;
     let var_limit := Fin 0.02 in
     if fgtb var var_limit then
       let lv := if fgtb var (fmul var_limit (Fin 1.5)) then RED else ORANGE in
       now ← datetime_now;
       mret [mkRiskAlert lv [Lit "VaR limit exceeded: "; Pct2 var] "value_at_risk"
               var var_limit now true]
     else mret [])
    (fun e => log WARNING [Lit "VaR calculation failed: "; Exc e];; mret []).

(** [df.abs().max().max()]: the column maxima, then their maximum. *)
Definition df_abs_max_max (df : DataFrame) : fnum :=
  series_max (map (fun '(_, column) => series_max (map fabs column)) df).

Definition _check_correlation_limits (portfolio : Portfolio) : M (list RiskAlert) :=
  self ← get_self;
  if negb (df_empty (correlation_matrix self)) then
    let max_correlation := df_abs_max_max (correlation_matrix self) in
    let correlation_threshold := config_get (config self) "correlation_threshold" (Fin 0.3) in
    if fgtb max_correlation correlation_threshold then
      now ← datetime_now;
      mret [mkRiskAlert ORANGE [Lit "High correlation detected: "; Fix2 max_correlation]
              "strategy_correlation" max_correlation correlation_threshold now false]
    else mret []
  else mret [].

Definition check_limits (portfolio : Portfolio) : M (list RiskAlert) :=
  a1 ← _check_single_name_limits portfolio;
  a2 ← _check_exposure_limits portfolio;
  a3 ← _check_var_limits portfolio;
  a4 ← _check_correlation_limits portfolio;
  let alerts := a1 ++ a2 ++ a3 ++ a4 in
  self ← get_self;
  put_self (with_risk_alerts self (risk_alerts self ++ alerts));;
  mret alerts.

(** ** Regime detection *)

Section Regime.

(** The square root of the floating-point library, on the rationals. *)
Variable sqrtQ : Q -> Q.

Definition fsqrt (x : fnum) : fnum :=
  match x with
  | Fin q => if Qle_bool 0 q then Fin (sqrtQ q) else NaN
  | PInf => PInf
  | _ => NaN
  end.

Definition series_sum (s : Series) : fnum := fold_left fadd s (Fin 0).

Definition count_of (s : Series) : fnum := Fin (inject_Z (Z.of_nat (length s))).

Definition window_mean (w : Series) : fnum := fdiv (series_sum w) (count_of w).

(** Sample standard deviation ([ddof = 1]). *)
Definition window_std (w : Series) : fnum :=
  let m := window_mean w in
  let squares := map (fun x => fmul (fsub x m) (fsub x m)) w in
  fsqrt (fdiv (series_sum squares) (fsub (count_of w) (Fin 1))).

(** [s.rolling(n).agg()]: at each position the aggregate of the last [n]
    entries, [NaN] unless all [n] of them are there and valid. *)
Definition rolling (n : nat) (agg : Series -> fnum) (s : Series) : Series :=
  map (fun i =>
         let w := dropna (drop (i + 1 - n) (take (i + 1) s)) in
         if (length w <? n)%nat then NaN else agg w)
      (seq 0 (length s)).

Definition detect_regime (market_data : DataFrame) : M string :=
  try_except
    (close ← match df_column market_data "close" with
             | Some s => mret s
             | None => raise (KeyError "close")
             end;
     let returns := pct_change close in
     let trend_score :=
       series_zip fdiv (rolling 20 window_mean returns) (rolling 20 window_std returns) in
     let current_trend := default (Fin 0) (last trend_score) in
     let vol_score :=
       map (fun x => fmul x (Fin (sqrtQ 252))) (rolling 20 window_std returns) in
     let current_vol := default (Fin 0) (last vol_score) in
     let trend_threshold := Fin 0.1 in
     let vol_threshold := Fin 0.20 in
     if fgtb current_trend trend_threshold && fltb current_vol vol_threshold
     then mret "TREND_LOW_VOL"
     else if fgtb current_trend trend_threshold && fgeb current_vol vol_threshold
     then mret "TREND_HIGH_VOL"
     else if fleb current_trend trend_threshold && fltb current_vol vol_threshold
     then mret "CHOP_LOW_VOL"
     else mret "CHOP_HIGH_VOL")
    (fun e => log WARNING [Lit "Regime detection failed: "; Exc e];; mret "UNKNOWN").

End Regime.

(** * Reference definitions and example inputs *)

(** A snapshot that carries [n] as its NAV and its timestamp. *)
Definition snap (n : Z) : Portfolio := mkPortfolio 0%nat (inject_Z n) 0 n 0 0.

(** Maximum and minimum of a non-empty list of rationals. *)
Definition list_max_Q (l : list Q) : Q :=
  match l with
  | [] => 0
  | x :: l' => fold_left Qmax l' x
  end.

Definition list_min_Q (l : list Q) : Q :=
  match l with
  | [] => 0
  | x :: l' => fold_left Qmin l' x
  end.

(** The 30-day drawdown as the specification words it: over the most recent
    30 NAV values, the running maximum at a point is the largest NAV up to
    and including it, the drawdown at a point is [(nav - running_max) /
    running_max], and the result is the smallest drawdown in the window. *)
Definition spec_running_max (navs : list Q) (i : nat) : Q :=
  list_max_Q (take (S i) navs).

Definition spec_drawdown_at (navs : list Q) (i : nat) : Q :=
  (nth i navs 0 - spec_running_max navs i) / spec_running_max navs i.

Definition spec_rolling_30d_drawdown (history_navs : list Q) : Q :=
  let navs := lastn 30 history_navs in
  list_min_Q (map (spec_drawdown_at navs) (seq 0 (length navs))).

(** The engine built from the default configuration; [blank_engine] only
    fills the branch of [RiskEngine_init] that is never taken. *)
Definition blank_engine : RiskEngine :=
  mkRiskEngine ∅ (mkPositionLimits NaN NaN NaN NaN) (mkCircuitBreakers NaN NaN NaN)
    NaN NaN NONE [] [] [].

Definition default_engine : RiskEngine :=
  match RiskEngine_init None with
  | Ok e => e
  | Raise _ => blank_engine
  end.

(** A world around an engine with a given history and store, at tick 0 of
    a clock that advances by one unit per reading. *)
Definition world_of (e : RiskEngine) (h : list Portfolio) (st : list Dict) : World :=
  mkWorld (with_portfolio_history e h) st (fun n => Z.of_nat n) 0%nat [].

(** Thirty snapshots whose NAV falls from 100 by one unit a day, thirty
    whose NAV triples every day, and thirty with no NAV at all. *)
Definition falling_history : list Portfolio :=
  map (fun i => snap (100 - Z.of_nat i)) (seq 0 30).

Definition tripling_history : list Portfolio :=
  map (fun i => snap (3 ^ Z.of_nat i)) (seq 0 30).

Definition zero_history : list Portfolio :=
  map (fun _ => snap 0) (seq 0 30).

(** The returns that [calculate_var] takes its percentile of. *)
Definition var_returns (e : RiskEngine) : Series :=
  dropna (pct_change (map (fun p => Fin (nav p)) (lastn 252 (portfolio_history e)))).

(** The percentile rank [(1 - confidence) * 100] is one numpy accepts. *)
Definition confidence_valid (e : RiskEngine) : Prop :=
  ∃ c, var_confidence e = Fin c ∧ 0 <= c ∧ c <= 1.

(** Every entry of a series is a finite number satisfying [P]. *)
Definition all_fin (P : Q → Prop) (s : Series) : Prop :=
  Forall (fun x => ∃ q, x = Fin q ∧ P q) s.

(** The loop [for symbol in d: d[symbol] *= factor] as a function of the
    dict it runs on, and the dict [apply_circuit_breaker] leaves behind the
    reference it returns. *)
Definition scale_step (factor : Q) (d : Dict) (symbol : string) : Dict :=
  match dict_get d symbol with
  | Some weight => dict_set d symbol (weight * factor)
  | None => d
  end.

Definition scale_loop (factor : Q) (keys : list string) (d : Dict) : Dict :=
  fold_left (scale_step factor) keys d.

Definition scaled (factor : Q) (d : Dict) : Dict :=
  map (fun kv => (fst kv, snd kv * factor)) d.

Definition gross_exposure_of (d : Dict) : Q := sum_Q (map Qabs (dict_values d)).

Definition adjusted (lvl : CircuitBreakerLevel) (d : Dict) : Dict :=
  match lvl with
  | NONE => d
  | LEVEL_1 => scale_loop 0.5 (dict_keys d) d
  | LEVEL_2 =>
      if Qgtb (gross_exposure_of d) 0
      then scale_loop (0.25 / gross_exposure_of d) (dict_keys d) d
      else d
  | LEVEL_3 => scale_loop 0.25 (dict_keys d) d
  end.

Definition breaker_log (lvl : CircuitBreakerLevel) : list (LogLevel * Message) :=
  match lvl with
  | NONE => []
  | LEVEL_1 => [(INFO, [Lit "Applied circuit breaker LEVEL 1: halved gross exposure"])]
  | LEVEL_2 => [(INFO, [Lit "Applied circuit breaker LEVEL 2: flattened to 25% gross"])]
  | LEVEL_3 => [(INFO, [Lit "Applied circuit breaker LEVEL 3: safe mode activated"])]
  end.

(** A long and a short position behind reference 0, and a flat book. *)
Definition two_positions : list Dict := [[("AAPL"%string, 0.1); ("MSFT"%string, -0.3)]].

Definition flat_book : list Dict := [[("AAPL"%string, 0); ("MSFT"%string, 0)]].

(** The configuration keys that hold limits and thresholds, and what makes
    a configuration invalid: one of them is there and is not finite. *)
Definition limit_keys : list string :=
  ["single_name_limit"; "sector_limit"; "gross_limit"; "net_limit";
   "daily_loss_1"; "daily_loss_2"; "drawdown_30d"]%string.

Definition config_invalid (c : gmap string fnum) : Prop :=
  ∃ k v, In k limit_keys ∧ c !! k = Some v ∧ is_fin v = false.

Definition nan_config : gmap string fnum :=
  list_to_map [("gross_limit"%string, NaN); ("daily_loss_2"%string, PInf)].

(** The last value of the two statistics that [detect_regime] classifies,
    and its table of labels. *)
Definition current_trend (sqrtQ : Q → Q) (close : Series) : fnum :=
  let returns := pct_change close in
  default (Fin 0)
    (last (series_zip fdiv (rolling 20 window_mean returns)
             (rolling 20 (window_std sqrtQ) returns))).

Definition current_vol (sqrtQ : Q → Q) (close : Series) : fnum :=
  let returns := pct_change close in
  default (Fin 0)
    (last (map (fun x => fmul x (Fin (sqrtQ 252))) (rolling 20 (window_std sqrtQ) returns))).

Definition regime_table (trending low_vol : bool) : string :=
  match trending, low_vol with
  | true, true => "TREND_LOW_VOL"
  | true, false => "TREND_HIGH_VOL"
  | false, true => "CHOP_LOW_VOL"
  | false, false => "CHOP_HIGH_VOL"
  end.

(** A square root to three decimals, for running [detect_regime]. *)
Definition sqrt_milli (q : Q) : Q :=
  inject_Z (Z.sqrt (Qfloor (q * 1000000))) / 1000.

(** Market data: no rows at all, three closes, and no close column. *)
Definition no_rows : DataFrame := [("close"%string, [])].

Definition three_closes : DataFrame := [("close"%string, [Fin 100; Fin 101; Fin 102])].

Definition no_close_column : DataFrame := [("open"%string, [Fin 100; Fin 101; Fin 102])].

(** *** What [check_limits] finds *)

(** An alert at a given time, and with its time erased. *)
Definition stamped (a : RiskAlert) (t : Z) : RiskAlert :=
  mkRiskAlert (level a) (message a) (metric a) (current_value a) (limit_value a) t
    (action_required a).

Definition untimed (a : RiskAlert) : RiskAlert := stamped a 0.

(** Alerts are created one after the other, each with the next reading of
    the clock. *)
Fixpoint stamp (clk : nat → Z) (t : nat) (l : list RiskAlert) : list RiskAlert :=
  match l with
  | [] => []
  | a :: l' => stamped a (clk t) :: stamp clk (S t) l'
  end.

(** The world after [n] readings of the clock. *)
Definition advance (w : World) (n : nat) : World :=
  mkWorld (self w) (store w) (clock w) (ticks w + n) (logged w).

(** The breaches of each check as a function of the engine and of the
    positions, every alert at time 0. *)
Definition single_name_finding (e : RiskEngine) (kv : string * Q) : list RiskAlert :=
  let abs_weight := Fin (Qabs (snd kv)) in
  if fgtb abs_weight (single_name (position_limits e)) then
    [mkRiskAlert
       (if fgtb abs_weight (fmul (single_name (position_limits e)) (Fin 1.2))
        then RED else ORANGE)
       [Lit "Single name limit exceeded: "; Lit (fst kv)]
       "single_name_concentration" abs_weight (single_name (position_limits e)) 0 true]
  else [].

Definition single_name_findings (e : RiskEngine) (d : Dict) : list RiskAlert :=
  flat_map (single_name_finding e) d.

Definition gross_findings (e : RiskEngine) (d : Dict) : list RiskAlert :=
  let gross_exposure := sum_Q (map Qabs (dict_values d)) in
  if fgtb (Fin gross_exposure) (gross (position_limits e)) then
    [mkRiskAlert
       (if fgtb (Fin gross_exposure) (fmul (gross (position_limits e)) (Fin 1.1))
        then RED else ORANGE)
       [Lit "Gross exposure limit exceeded"] "gross_exposure"
       (Fin gross_exposure) (gross (position_limits e)) 0 true]
  else [].

Definition net_findings (e : RiskEngine) (d : Dict) : list RiskAlert :=
  let net_exposure := sum_Q (dict_values d) in
  if fgtb (Fin (Qabs net_exposure)) (net (position_limits e)) then
    [mkRiskAlert ORANGE [Lit "Net exposure limit exceeded"] "net_exposure"
       (Fin (Qabs net_exposure)) (net (position_limits e)) 0 false]
  else [].

(** The outcome of [calculate_var], which only reads the engine. *)
Definition var_outcome (e : RiskEngine) : outcome fnum :=
  fst (calculate_var (mkPortfolio 0%nat 0 0 0 0 0) (mkWorld e [] (fun _ => 0%Z) 0%nat [])).

Definition var_findings (e : RiskEngine) : list RiskAlert :=
  match var_outcome e with
  | Ok var =>
      if fgtb var (Fin 0.02) then
        [mkRiskAlert (if fgtb var (fmul (Fin 0.02) (Fin 1.5)) then RED else ORANGE)
           [Lit "VaR limit exceeded: "; Pct2 var] "value_at_risk" var (Fin 0.02) 0 true]
      else []
  | Raise _ => []
  end.

Definition var_warnings (e : RiskEngine) : list (LogLevel * Message) :=
  match var_outcome e with
  | Ok _ => []
  | Raise err => [(WARNING, [Lit "VaR calculation failed: "; Exc err])]
  end.

Definition correlation_findings (e : RiskEngine) : list RiskAlert :=
  if negb (df_empty (correlation_matrix e)) then
    let max_correlation := df_abs_max_max (correlation_matrix e) in
    let correlation_threshold := config_get (config e) "correlation_threshold" (Fin 0.3) in
    if fgtb max_correlation correlation_threshold then
      [mkRiskAlert ORANGE [Lit "High correlation detected: "; Fix2 max_correlation]
         "strategy_correlation" max_correlation correlation_threshold 0 false]
    else []
  else [].

Definition limit_findings (e : RiskEngine) (d : Dict) : list RiskAlert :=
  single_name_findings e d ++ (gross_findings e d ++ net_findings e d) ++
  var_findings e ++ correlation_findings e.

(** One position above the single-name limit, and the world after a first
    call of [check_limits] on it. *)
Definition one_breach : list Dict := [[("AAPL"%string, 0.05)]].

Definition after_first_check : World :=
  snd (check_limits (snap 1) (world_of default_engine [] one_breach)).

Definition aapl_alert (t : Z) : RiskAlert :=
  mkRiskAlert RED [Lit "Single name limit exceeded: "; Lit "AAPL"]
    "single_name_concentration" (Fin 0.05) (Fin 0.03) t true.

(** Simple returns of a NAV list, each against its predecessor. *)
Fixpoint returns_from (prev : Q) (l : list Q) : list Q :=
  match l with
  | [] => []
  | x :: l' => (x / prev - 1) :: returns_from x l'
  end.

(** * The response in binary64

    A Python [float] is an IEEE 754 binary64 number, and [+], [-], [*], [/],
    [abs] and the comparisons on floats are the binary64 operations, rounded
    to nearest, ties to even: the operations of the kernel's primitive
    floats.  The arithmetic of [apply_circuit_breaker] is modelled on them
    here.  The copy, the store and the logger are those of the method above;
    in this module the method is a function from the contents of
    [portfolio.positions] to the contents of the dict it returns. *)

Module Binary64.

#[local] Set Warnings "-inexact-float".

Abbreviation Dict := (list (string * float)).

Definition dict_keys (d : Dict) : list string := map fst d.
Definition dict_values (d : Dict) : list float := map snd d.

Fixpoint dict_get (d : Dict) (k : string) : option float :=
  match d with
  | [] => None
  | (k', v) :: d' => if String.eqb k' k then Some v else dict_get d' k
  end.

Fixpoint dict_set (d : Dict) (k : string) (v : float) : Dict :=
  match d with
  | [] => [(k, v)]
  | (k', v') :: d' =>
      if String.eqb k' k then (k', v) :: d' else (k', v') :: dict_set d' k v
  end.

Definition dict_wf (d : Dict) : Prop := NoDup (dict_keys d).




(** [for symbol in adjusted_positions: adjusted_positions[symbol] *= factor] *)
Definition scale_step (factor : float) (d : Dict) (symbol : string) : Dict :=
  match dict_get d symbol with
  | Some weight => dict_set d symbol (weight * factor)%float
  | None => d
  end.

Definition scale_in_place (adjusted_positions : Dict) (factor : float) : Dict :=
  fold_left (scale_step factor) (dict_keys adjusted_positions) adjusted_positions.

(** The method, given the built-in [sum] of the interpreter. *)
Definition apply_circuit_breaker (builtin_sum : list float → float)
    (positions : Dict) (lvl : CircuitBreakerLevel) : Dict :=
  let adjusted_positions := positions in
  match lvl with
  | LEVEL_1 => scale_in_place adjusted_positions 0.5%float
  | LEVEL_2 =>
      let gross_exposure := builtin_sum (map abs (dict_values adjusted_positions)) in
      if (0 <? gross_exposure)%float
      then
        let scale_factor := (0.25 / gross_exposure)%float in
        scale_in_place adjusted_positions scale_factor
      else adjusted_positions
  | LEVEL_3 => scale_in_place adjusted_positions 0.25%float
  | NONE => adjusted_positions
  end.

(** Gross exposure as the code measures it, [sum(abs(weight) ...)]. *)
Definition gross_exposure_of (builtin_sum : list float → float) (d : Dict) : float :=
  builtin_sum (map abs (dict_values d)).

(** Every weight times one factor. *)
Definition scaled (factor : float) (d : Dict) : Dict :=
  map (fun kv => (fst kv, (snd kv * factor)%float)) d.


End Binary64.

(** * Further definitions: the response, the checks and the summary *)

(** Two dicts with the same symbols in the same order and equal weights. *)
Definition same_weights (d1 d2 : Dict) : Prop :=
  Forall2 (fun a b => fst a = fst b ∧ snd a == snd b) d1 d2.

Definition net_exposure_of (d : Dict) : Q := sum_Q (dict_values d).

(** A portfolio that holds the positions behind another reference. *)
Definition with_positions (p : Portfolio) (r : ref) : Portfolio :=
  mkPortfolio r (nav p) (cash p) (timestamp p) (daily_pnl p) (daily_pnl_pct p).

(** The factor that a level multiplies the weights by, when it touches
    them at all. *)
Definition response_factor (lvl : CircuitBreakerLevel) (d : Dict) : option Q :=
  match lvl with
  | NONE => None
  | LEVEL_1 => Some 0.5
  | LEVEL_2 =>
      if Qgtb (gross_exposure_of d) 0 then Some (0.25 / gross_exposure_of d) else None
  | LEVEL_3 => Some 0.25
  end.

(** A book of two small positions, 10 % gross. *)
Definition small_book : list Dict := [[("AAPL"%string, 0.06); ("MSFT"%string, -0.04)]].

(** The positions whose absolute weight exceeds a limit, in the order of
    the dict, and the alert that the single-name check raises for one. *)
Definition breaching (limit : Q) (d : Dict) : Dict :=
  List.filter (fun kv => Qgtb (Qabs (snd kv)) limit) d.

Definition single_name_alert (limit : Q) (kv : string * Q) : RiskAlert :=
  mkRiskAlert
    (if Qgtb (Qabs (snd kv)) (limit * 1.2) then RED else ORANGE)
    [Lit "Single name limit exceeded: "; Lit (fst kv)]
    "single_name_concentration" (Fin (Qabs (snd kv))) (Fin limit) 0 true.

(** A book with one position over the red line of the default single-name
    limit, one over the limit, and one within it. *)
Definition mixed_book : list Dict :=
  [[("AAPL"%string, 0.037); ("MSFT"%string, -0.031); ("IBM"%string, 0.02)]].

(** The alerts of one metric in a list of alerts. *)
Definition alerts_of (name : string) (alerts : list RiskAlert) : list RiskAlert :=
  List.filter (fun a => String.eqb (metric a) name) alerts.

(** A leveraged long book: 160 % gross, 160 % net. *)
Definition leveraged_book : list Dict := [[("SPY"%string, 0.8); ("QQQ"%string, 0.8)]].

(** An engine configured with a confidence of 95 instead of 0.95. *)
Definition percent_engine : RiskEngine :=
  match RiskEngine_init (Some {[ "var_confidence"%string := Fin 95 ]}) with
  | Ok e => e
  | Raise _ => blank_engine
  end.

(** All the entries of a frame. *)
Definition df_entries (df : DataFrame) : list fnum := concat (map snd df).

(** An engine around a given correlation matrix. *)
Definition with_correlation_matrix (e : RiskEngine) (m : DataFrame) : RiskEngine :=
  mkRiskEngine (config e) (position_limits e) (circuit_breakers e) (var_confidence e)
    (var_horizon e) (current_breaker_level e) (risk_alerts e) (portfolio_history e) m.

(** Two strategies, correlated at 0.45, and one whose correlations are
    undefined. *)
Definition correlated_strategies : DataFrame :=
  [("a"%string, [Fin 1; Fin (-0.45); NaN]);
   ("b"%string, [Fin (-0.45); Fin 1; NaN]);
   ("c"%string, [NaN; NaN; NaN])].

(** The drawdown that [check_breakers] compares, which only reads the
    engine, and the level it decides on. *)
Definition drawdown_of (e : RiskEngine) : fnum :=
  match fst (_calculate_30day_drawdown (mkPortfolio 0%nat 0 0 0 0 0)
               (mkWorld e [] (fun _ => 0%Z) 0%nat [])) with
  | Ok dd => dd
  | Raise _ => NaN
  end.

Definition breaker_decision (cb : CircuitBreakers) (pnl : Q) (dd : fnum) :
    CircuitBreakerLevel :=
  if fleb (Fin pnl) (daily_loss_2 cb) then LEVEL_2
  else if fleb (Fin pnl) (daily_loss_1 cb) then LEVEL_1
  else if fleb dd (drawdown_30d cb) then LEVEL_3
  else NONE.

(** A window of NAVs that never falls. *)
Definition nondecreasing (navs : list Q) : Prop :=
  ∀ i j, (i ≤ j)%nat → (j < length navs)%nat → nth i navs 0 <= nth j navs 0.

(** Thirty snapshots whose NAV rises by one unit a day, a day with a loss
    of 1.8 %, and an engine whose two loss thresholds are swapped. *)
Definition rising_history : list Portfolio :=
  map (fun i => snap (100 + Z.of_nat i)) (seq 0 30).

Definition losing_day : Portfolio := mkPortfolio 0%nat 100 0 0 (-1.8) (-0.018).

Definition swapped_engine : RiskEngine :=
  match RiskEngine_init (Some (list_to_map [("daily_loss_1"%string, Fin (-0.020));
                                            ("daily_loss_2"%string, Fin (-0.015))])) with
  | Ok e => e
  | Raise _ => blank_engine
  end.

(** ** [RiskEngine.get_risk_summary] *)

(** [timedelta(hours=1)], timestamps being counted in microseconds. *)
Definition one_hour : Z := 3600000000.

(** [sorted(items, key=lambda x: abs(x[1]), reverse=True)]: by absolute
    weight, largest first; the sort is stable, so positions of equal
    absolute weight keep the order of the dict. *)
Fixpoint insert_by_abs_desc (x : string * Q) (l : list (string * Q)) : list (string * Q) :=
  match l with
  | [] => [x]
  | y :: l' =>
      if Qle_bool (Qabs (snd y)) (Qabs (snd x)) then x :: l
      else y :: insert_by_abs_desc x l'
  end.

Definition sorted_by_abs_desc (items : list (string * Q)) : list (string * Q) :=
  foldr insert_by_abs_desc [] items.

(** The nested dict under ['within_limits'] and the report itself; the
    keys that other records already use get a prefix. *)
Record WithinLimits : Type := mkWithinLimits {
  within_gross : bool;
  within_net : bool;
  within_single_name : bool
}.

Record RiskSummary : Type := mkRiskSummary {
  summary_timestamp : Z;
  summary_nav : Q;
  summary_daily_pnl : Q;
  summary_daily_pnl_pct : Q;
  gross_exposure : Q;
  net_exposure : Q;
  num_positions : nat;
  top_positions : list (string * Q);
  var_95_1day : fnum;
  circuit_breaker_level : Z;
  active_alerts : nat;
  summary_position_limits : PositionLimits;
  within_limits : WithinLimits
}.

Definition get_risk_summary (portfolio : Portfolio) : M RiskSummary :=
  self ← get_self;
  d ← deref (positions portfolio);
  let gross_exposure := sum_Q (map Qabs (dict_values d)) in
  let net_exposure := sum_Q (dict_values d) in
  let sorted_positions := sorted_by_abs_desc d in
  let top_positions := take 5 sorted_positions in
  var ← calculate_var portfolio;
  timestamp ← datetime_now;
  active ← for_collect (risk_alerts self)
             (fun a =>
                now ← datetime_now;
                mret (if (now - one_hour <? alert_timestamp a)%Z then [a] else []));
  mret {| summary_timestamp := timestamp;
          summary_nav := nav portfolio;
          summary_daily_pnl := daily_pnl portfolio;
          summary_daily_pnl_pct := daily_pnl_pct portfolio;
          gross_exposure := gross_exposure;
          net_exposure := net_exposure;
          num_positions := length d;
          top_positions := top_positions;
          var_95_1day := var;
          circuit_breaker_level := level_value (current_breaker_level self);
          active_alerts := length active;
          summary_position_limits := position_limits self;
          within_limits :=
            {| within_gross := fleb (Fin gross_exposure) (gross (position_limits self));
               within_net := fleb (Fin (Qabs net_exposure)) (net (position_limits self));
               within_single_name :=
                 forallb (fun w => fleb (Fin (Qabs w)) (single_name (position_limits self)))
                   (dict_values d) |} |}.

(** The alerts that are less than an hour old, the clock being read anew
    for each alert. *)
Fixpoint recent (clk : nat → Z) (t : nat) (alerts : list RiskAlert) : list RiskAlert :=
  match alerts with
  | [] => []
  | a :: l =>
      (if (clk t - one_hour <? alert_timestamp a)%Z then [a] else []) ++ recent clk (S t) l
  end.

(** Largest absolute weight first. *)
Fixpoint abs_descending (l : list (string * Q)) : Prop :=
  match l with
  | [] => True
  | x :: l' => Forall (fun y => Qabs (snd y) <= Qabs (snd x)) l' ∧ abs_descending l'
  end.

(** Seven positions, two of the same size. *)
Definition seven_positions : list Dict :=
  [[("A"%string, 0.01); ("B"%string, -0.05); ("C"%string, 0.03); ("D"%string, -0.03);
    ("E"%string, 0.02); ("F"%string, 0.06); ("G"%string, -0.04)]].

(** The value that an engine works with for a configuration key, and the
    fallback that the code gives to [config.get] for it. *)
Definition engine_value (e : RiskEngine) (key : string) : option fnum :=
  if String.eqb key "single_name_limit" then Some (single_name (position_limits e))
  else if String.eqb key "sector_limit" then Some (sector (position_limits e))
  else if String.eqb key "gross_limit" then Some (gross (position_limits e))
  else if String.eqb key "net_limit" then Some (net (position_limits e))
  else if String.eqb key "daily_loss_1" then Some (daily_loss_1 (circuit_breakers e))
  else if String.eqb key "daily_loss_2" then Some (daily_loss_2 (circuit_breakers e))
  else if String.eqb key "drawdown_30d" then Some (drawdown_30d (circuit_breakers e))
  else if String.eqb key "var_confidence" then Some (var_confidence e)
  else if String.eqb key "var_horizon" then Some (var_horizon e)
  else if String.eqb key "correlation_threshold"
       then Some (config_get (config e) "correlation_threshold" (Fin 0.3))
  else None.

Definition fallback (key : string) : option fnum :=
  if String.eqb key "single_name_limit" then Some (Fin 0.03)
  else if String.eqb key "sector_limit" then Some (Fin 0.15)
  else if String.eqb key "gross_limit" then Some (Fin 1.50)
  else if String.eqb key "net_limit" then Some (Fin 0.50)
  else if String.eqb key "daily_loss_1" then Some (Fin (-0.015))
  else if String.eqb key "daily_loss_2" then Some (Fin (-0.020))
  else if String.eqb key "drawdown_30d" then Some (Fin (-0.120))
  else if String.eqb key "var_confidence" then Some (Fin 0.95)
  else if String.eqb key "var_horizon" then Some (Fin 1)
  else if String.eqb key "correlation_threshold" then Some (Fin 0.3)
  else None.

(** Thirty snapshots with the same NAV. *)
Definition flat_history : list Portfolio := map (fun _ => snap 100) (seq 0 30).

(** * Proofs *)

Ltac run_monad :=
  unfold mbind, M_bind, mret, M_ret, get_self, put_self, log, raise,
    lift_outcome, try_except, datetime_now; cbn [fst snd self store clock ticks logged].

(** ** Comparisons on finite numbers *)

Lemma fleb_Fin (a b : Q) : fleb (Fin a) (Fin b) = true ↔ a <= b.
Proof.
  unfold fleb, fcompare. rewrite Qle_alt.
  destruct (a ?= b); split; congruence.
Qed.

Lemma fltb_Fin (a b : Q) : fltb (Fin a) (Fin b) = true ↔ a < b.
Proof.
  unfold fltb, fcompare. rewrite Qlt_alt.
  destruct (a ?= b); split; congruence.
Qed.

Lemma fleb_Fin_false (a b : Q) : fleb (Fin a) (Fin b) = false ↔ b < a.
Proof.
  rewrite <- not_true_iff_false, fleb_Fin. split; [apply Qnot_le_lt | apply Qlt_not_le].
Qed.


Lemma drawdown_runs (p : Portfolio) (w : World) :
  ∃ dd, _calculate_30day_drawdown p w = (Ok dd, w).
Proof.
  unfold _calculate_30day_drawdown. run_monad.
  destruct (length (portfolio_history (self w)) <? 30)%nat; eauto.
Qed.

(** ** Circuit breakers *)

(** C1: [check_breakers] takes the first condition that holds, in this
    order: a daily P&L at or below [daily_loss_2] gives [LEVEL_2], whatever
    the drawdown; else one at or below [daily_loss_1] gives [LEVEL_1]; else a
    30-day drawdown at or below [drawdown_30d] gives [LEVEL_3]; else the level
    is [NONE].  The level returned is the one stored in
    [current_breaker_level].  With the default thresholds a daily P&L of
    -0.025 yields [LEVEL_2]. *)
Theorem check_breakers_priority (p : Portfolio) (w : World) :
  ∃ dd lvl w',
    _calculate_30day_drawdown p w = (Ok dd, w) ∧
    check_breakers p w = (Ok lvl, w') ∧
    current_breaker_level (self w') = lvl ∧
    (fleb (Fin (daily_pnl_pct p)) (daily_loss_2 (circuit_breakers (self w))) = true →
     lvl = LEVEL_2) ∧
    (fleb (Fin (daily_pnl_pct p)) (daily_loss_2 (circuit_breakers (self w))) = false →
     fleb (Fin (daily_pnl_pct p)) (daily_loss_1 (circuit_breakers (self w))) = true →
     lvl = LEVEL_1) ∧
    (fleb (Fin (daily_pnl_pct p)) (daily_loss_2 (circuit_breakers (self w))) = false →
     fleb (Fin (daily_pnl_pct p)) (daily_loss_1 (circuit_breakers (self w))) = false →
     fleb dd (drawdown_30d (circuit_breakers (self w))) = true →
     lvl = LEVEL_3) ∧
    (fleb (Fin (daily_pnl_pct p)) (daily_loss_2 (circuit_breakers (self w))) = false →
     fleb (Fin (daily_pnl_pct p)) (daily_loss_1 (circuit_breakers (self w))) = false →
     fleb dd (drawdown_30d (circuit_breakers (self w))) = false →
     lvl = NONE) ∧
    (∀ e0, RiskEngine_init None = Ok e0 →
           circuit_breakers (self w) = circuit_breakers e0 →
           daily_pnl_pct p == -0.025 →
           lvl = LEVEL_2).
Proof.
  destruct (drawdown_runs p w) as [dd Hdd].
  exists dd.
  unfold check_breakers. run_monad.
  destruct (fleb (Fin (daily_pnl_pct p)) (daily_loss_2 (circuit_breakers (self w)))) eqn:H2.
  - eexists _, _. split; [first [exact Hdd | reflexivity] | split; [reflexivity | split; [reflexivity |]]].
    repeat split; intros; congruence.
  - assert (Hdefault : ∀ e0, RiskEngine_init None = Ok e0 →
              circuit_breakers (self w) = circuit_breakers e0 →
              daily_pnl_pct p == -0.025 → False).
    { intros e0 He0 Hcb Hpnl. injection He0 as <-. rewrite Hcb in H2.
      cbn in H2. apply fleb_Fin_false in H2. rewrite Hpnl in H2.
      revert H2. apply Qle_not_lt. discriminate. }
    destruct (fleb (Fin (daily_pnl_pct p)) (daily_loss_1 (circuit_breakers (self w)))) eqn:H1;
      [| destruct (fleb dd (drawdown_30d (circuit_breakers (self w)))) eqn:H3];
      rewrite ?Hdd; cbn; rewrite ?H3;
      (eexists _, _; split; [first [exact Hdd | reflexivity] | split; [reflexivity | split; [reflexivity |]]]);
      repeat split; intros; try congruence; exfalso; eauto.
Qed.

Lemma check_breakers_priority_witness :
  ∃ w', check_breakers (mkPortfolio 0%nat 100 0 0 (-2.5) (-0.025))
          (world_of default_engine falling_history []) = (Ok LEVEL_2, w').
Proof.
  destruct (check_breakers_priority (mkPortfolio 0%nat 100 0 0 (-2.5) (-0.025))
              (world_of default_engine falling_history []))
    as (dd & lvl & w' & _ & Hrun & _ & _ & _ & _ & _ & Hdefault).
  exists w'. rewrite Hrun.
  rewrite (Hdefault default_engine eq_refl eq_refl); reflexivity.
Defined.

(** ** The history buffer *)

Lemma lastn_length {A : Type} (n : nat) (l : list A) :
  length (lastn n l) = Nat.min (length l) n.
Proof. unfold lastn. rewrite length_drop. lia. Qed.

Lemma lastn_all {A : Type} (n : nat) (l : list A) :
  (length l ≤ n)%nat → lastn n l = l.
Proof. intros H. unfold lastn. replace (length l - n)%nat with 0%nat by lia. reflexivity. Qed.

Lemma lastn_app {A : Type} (n : nat) (l k : list A) :
  lastn n (lastn n l ++ k) = lastn n (l ++ k).
Proof.
  unfold lastn. rewrite !length_app, length_drop.
  rewrite <- drop_app_le by lia. rewrite drop_drop. f_equal. lia.
Qed.

Lemma update_portfolio_history_run (p : Portfolio) (w : World) :
  update_portfolio_history p w =
  (Ok tt,
   mkWorld (with_portfolio_history (self w) (lastn 252 (portfolio_history (self w) ++ [p])))
     (store w) (clock w) (ticks w) (logged w)).
Proof.
  unfold update_portfolio_history. run_monad. cbn [with_portfolio_history portfolio_history].
  destruct (252 <? length (portfolio_history (self w) ++ [p]))%nat eqn:E.
  - reflexivity.
  - apply Nat.ltb_ge in E. rewrite lastn_all by exact E. reflexivity.
Qed.

Lemma record_all_run (ps : list Portfolio) (w : World) :
  (length (portfolio_history (self w)) ≤ 252)%nat →
  for_each ps update_portfolio_history w =
  (Ok tt,
   mkWorld (with_portfolio_history (self w) (lastn 252 (portfolio_history (self w) ++ ps)))
     (store w) (clock w) (ticks w) (logged w)).
Proof.
  revert w. induction ps as [| p ps IH]; intros w Hlen.
  - cbn. rewrite app_nil_r, lastn_all by exact Hlen. destruct w as [[] ? ? ? ?]; reflexivity.
  - cbn [for_each]. unfold mbind, M_bind. rewrite update_portfolio_history_run.
    rewrite IH.
    + cbn [self store clock ticks logged with_portfolio_history portfolio_history
            config position_limits circuit_breakers var_confidence var_horizon
            current_breaker_level risk_alerts correlation_matrix].
      rewrite lastn_app, <- app_assoc. reflexivity.
    + cbn [self with_portfolio_history portfolio_history]. rewrite lastn_length. lia.
Qed.

(** C3: the history buffer holds at most 252 snapshots in insertion order,
    and evicts the oldest one first.  One call of [update_portfolio_history]
    takes a history of length [n] to one of length [min (n + 1) 252]; below
    capacity the snapshot is appended, at capacity the first entry is dropped,
    the others keep their order and the new snapshot is last; the other engine
    fields are untouched.  Recording any sequence of snapshots from a buffer
    within capacity leaves the last 252 of them, so the 253rd call from an
    empty buffer evicts the first-recorded snapshot. *)
Theorem history_bounded_fifo (p : Portfolio) (w : World) :
  ∃ w',
    update_portfolio_history p w = (Ok tt, w') ∧
    length (portfolio_history (self w')) =
      Nat.min (length (portfolio_history (self w)) + 1) 252 ∧
    ((length (portfolio_history (self w)) < 252)%nat →
     portfolio_history (self w') = portfolio_history (self w) ++ [p]) ∧
    (length (portfolio_history (self w)) = 252%nat →
     portfolio_history (self w') = drop 1 (portfolio_history (self w)) ++ [p]) ∧
    last (portfolio_history (self w')) = Some p ∧
    self w' = with_portfolio_history (self w) (portfolio_history (self w')) ∧
    (∀ (ps : list Portfolio) (w0 : World),
       (length (portfolio_history (self w0)) ≤ 252)%nat →
       ∃ w1,
         for_each ps update_portfolio_history w0 = (Ok tt, w1) ∧
         portfolio_history (self w1) = lastn 252 (portfolio_history (self w0) ++ ps) ∧
         (length (portfolio_history (self w1)) ≤ 252)%nat ∧
         (portfolio_history (self w0) = [] → length ps = 253%nat →
          portfolio_history (self w1) = drop 1 ps)).
Proof.
  eexists. split; [apply update_portfolio_history_run |].
  cbn [self with_portfolio_history portfolio_history].
  set (h := portfolio_history (self w)).
  repeat split.
  - rewrite lastn_length, length_app. cbn. lia.
  - intros Hlt. apply lastn_all. rewrite length_app. cbn. lia.
  - intros Hfull. unfold lastn. rewrite length_app. cbn [length].
    replace (length h + 1 - 252)%nat with 1%nat by lia.
    rewrite drop_app_le by lia. reflexivity.
  - unfold lastn. rewrite length_app. cbn [length].
    rewrite drop_app_le by lia. apply last_snoc.
  - intros ps w0 Hlen. eexists. split; [apply record_all_run; exact Hlen |].
    cbn [self with_portfolio_history portfolio_history].
    repeat split.
    + rewrite lastn_length. lia.
    + intros Hnil Hps. rewrite Hnil. cbn [app]. unfold lastn. rewrite Hps. reflexivity.
Qed.

Lemma history_bounded_fifo_witness :
  ∃ w', update_portfolio_history (snap 252)
          (mkWorld (with_portfolio_history
                      (mkRiskEngine ∅ (mkPositionLimits NaN NaN NaN NaN)
                         (mkCircuitBreakers NaN NaN NaN) NaN NaN NONE [] [] [])
                      (map (fun i => snap (Z.of_nat i)) (seq 0 252)))
             [] (fun _ => 0%Z) 0%nat []) = (Ok tt, w') ∧
        portfolio_history (self w') = map (fun i => snap (Z.of_nat i)) (seq 1 252).
Proof.
  destruct (history_bounded_fifo (snap 252)
              (mkWorld (with_portfolio_history
                      (mkRiskEngine ∅ (mkPositionLimits NaN NaN NaN NaN)
                         (mkCircuitBreakers NaN NaN NaN) NaN NaN NONE [] [] [])
                      (map (fun i => snap (Z.of_nat i)) (seq 0 252)))
             [] (fun _ => 0%Z) 0%nat [])) as (w' & Hrun & _ & _ & Hfull & _).
  exists w'. split; [exact Hrun |].
  rewrite Hfull by reflexivity. reflexivity.
Defined.

(** ** The drawdown monitor *)

Lemma nanmax_Fin (a b : Q) : nanmax (Fin a) (Fin b) = Fin (Qmax a b).
Proof.
  unfold nanmax, fltb, fcompare, Qmax, GenericMinMax.gmax.
  destruct (a ?= b); reflexivity.
Qed.

Lemma nanmin_Fin (a b : Q) : nanmin (Fin a) (Fin b) = Fin (Qmin a b).
Proof.
  unfold nanmin, fltb, fcompare, Qmin, GenericMinMax.gmin.
  rewrite <- (Qcompare_antisym a b).
  destruct (a ?= b); reflexivity.
Qed.

Lemma fold_max_ge_init (l : list Q) (m : Q) : m <= fold_left Qmax l m.
Proof.
  revert m. induction l as [| x l IH]; intros m; cbn.
  - apply Qle_refl.
  - eapply Qle_trans; [apply Q.le_max_l | apply IH].
Qed.

Lemma fold_max_ge_elem (l : list Q) (m x : Q) : In x l → x <= fold_left Qmax l m.
Proof.
  revert m. induction l as [| y l IH]; intros m Hin; [destruct Hin |].
  cbn. destruct Hin as [-> | Hin].
  - eapply Qle_trans; [apply Q.le_max_r | apply fold_max_ge_init].
  - apply IH, Hin.
Qed.

Lemma list_max_Q_upper (l : list Q) (x : Q) : In x l → x <= list_max_Q l.
Proof.
  destruct l as [| y l]; [intros [] |].
  intros [-> | Hin]; cbn.
  - apply fold_max_ge_init.
  - apply fold_max_ge_elem, Hin.
Qed.

Lemma fold_min_le_init (l : list Q) (m : Q) : fold_left Qmin l m <= m.
Proof.
  revert m. induction l as [| x l IH]; intros m; cbn.
  - apply Qle_refl.
  - eapply Qle_trans; [apply IH | apply Q.le_min_l].
Qed.

Lemma series_zip_length (op : fnum → fnum → fnum) (a b : Series) :
  length a = length b → length (series_zip op a b) = length a.
Proof.
  revert b. induction a as [| x a IH]; intros [| y b] H; cbn in *; try congruence.
  f_equal. apply IH. congruence.
Qed.

Lemma series_zip_seq (op : fnum → fnum → fnum) (a b : Series) :
  length a = length b →
  series_zip op a b = map (fun i => op (nth i a NaN) (nth i b NaN)) (seq 0 (length a)).
Proof.
  revert b. induction a as [| x a IH]; intros [| y b] H; cbn in *; try congruence.
  f_equal. rewrite IH by congruence. rewrite <- seq_shift, map_map. reflexivity.
Qed.

Lemma nth_map_seq {A : Type} (f : nat → A) (n i : nat) (d : A) :
  (i < n)%nat → nth i (map f (seq 0 n)) d = f i.
Proof.
  intros H. rewrite (nth_indep _ d (f 0%nat)) by (rewrite length_map, length_seq; exact H).
  rewrite (map_nth f (seq 0 n) 0%nat i), seq_nth by exact H. reflexivity.
Qed.

Lemma expanding_max_from_length (acc : fnum) (s : Series) :
  length (expanding_max_from acc s) = length s.
Proof. revert acc. induction s as [| x s IH]; intros acc; cbn; [| rewrite IH]; reflexivity. Qed.

Lemma expanding_max_from_nth (l : list Q) (m : Q) (i : nat) :
  (i < length l)%nat →
  nth i (expanding_max_from (Fin m) (map Fin l)) NaN = Fin (fold_left Qmax (take (S i) l) m).
Proof.
  revert m i. induction l as [| x l IH]; intros m i Hi; cbn in Hi; [lia |].
  cbn [map expanding_max_from]. rewrite nanmax_Fin.
  destruct i as [| i]; cbn [nth].
  - destruct l; reflexivity.
  - rewrite IH by lia. reflexivity.
Qed.

Lemma expanding_max_nth (navs : list Q) (i : nat) :
  (i < length navs)%nat →
  nth i (expanding_max (map Fin navs)) NaN = Fin (spec_running_max navs i).
Proof.
  destruct navs as [| x l]; cbn [length]; intros Hi; [lia |].
  unfold expanding_max, spec_running_max. cbn [map expanding_max_from nanmax].
  destruct i as [| i]; cbn [nth].
  - reflexivity.
  - rewrite expanding_max_from_nth by lia. reflexivity.
Qed.

Lemma running_max_ge_nav (navs : list Q) (i : nat) :
  (i < length navs)%nat → nth i navs 0 <= spec_running_max navs i.
Proof.
  intros Hi. apply list_max_Q_upper.
  rewrite <- (firstn_skipn (S i) navs) at 1.
  rewrite app_nth1 by (rewrite length_take; lia).
  apply nth_In. rewrite length_take. lia.
Qed.

Lemma series_min_Fin (l : list Q) :
  l ≠ [] → series_min (map Fin l) = Fin (list_min_Q l).
Proof.
  destruct l as [| x l]; [congruence | intros _].
  unfold series_min. cbn [map fold_left nanmin list_min_Q].
  revert x. induction l as [| y l IH]; intros x; cbn [map fold_left]; [reflexivity |].
  rewrite nanmin_Fin. apply IH.
Qed.

Lemma lastn_map {A B : Type} (f : A → B) (n : nat) (l : list A) :
  lastn n (map f l) = map f (lastn n l).
Proof. unfold lastn. rewrite length_map. apply skipn_map. Qed.

(** The drawdown series of a window of positive NAVs. *)
Lemma drawdown_series (navs : list Q) :
  Forall (fun x => 0 < x) navs →
  series_zip fdiv
    (series_zip fsub (map Fin navs) (expanding_max (map Fin navs)))
    (expanding_max (map Fin navs)) =
  map Fin (map (spec_drawdown_at navs) (seq 0 (length navs))).
Proof.
  intros Hpos.
  assert (Hlen : length (expanding_max (map Fin navs)) = length navs).
  { unfold expanding_max. rewrite expanding_max_from_length. apply length_map. }
  rewrite series_zip_seq
    by (rewrite series_zip_length; rewrite length_map; congruence).
  rewrite series_zip_length, length_map by (rewrite length_map; congruence).
  rewrite map_map. apply map_ext_in. intros i Hi.
  apply in_seq in Hi. destruct Hi as [_ Hi]. cbn in Hi.
  rewrite series_zip_seq by (rewrite length_map; congruence).
  rewrite length_map, nth_map_seq by exact Hi.
  rewrite expanding_max_nth by exact Hi.
  rewrite (nth_indep _ NaN (Fin 0)) by (rewrite length_map; exact Hi).
  rewrite (map_nth Fin navs 0 i).
  assert (Hnav : 0 < nth i navs 0).
  { rewrite Forall_forall in Hpos. apply Hpos. apply list_elem_of_In, nth_In, Hi. }
  pose proof (running_max_ge_nav navs i Hi) as Hge.
  cbn [fsub fneg fadd fdiv].
  destruct (Qeq_bool (spec_running_max navs i) 0) eqn:E.
  - apply Qeq_bool_iff in E. lra.
  - reflexivity.
Qed.

Lemma spec_drawdown_at_nonpos (navs : list Q) (i : nat) :
  Forall (fun x => 0 < x) navs → (i < length navs)%nat → spec_drawdown_at navs i <= 0.
Proof.
  intros Hpos Hi.
  assert (Hnav : 0 < nth i navs 0).
  { rewrite Forall_forall in Hpos. apply Hpos. apply list_elem_of_In, nth_In, Hi. }
  pose proof (running_max_ge_nav navs i Hi) as Hge.
  unfold spec_drawdown_at.
  apply Qle_shift_div_r; lra.
Qed.

(** C7: the 30-day rolling drawdown is total and non-positive.  With fewer
    than 30 snapshots in the history it is exactly [0.0]; with at least 30,
    all NAVs of the window positive, it is the minimum over the most recent
    30 NAV values of [(nav - running_max) / running_max], the running maximum
    being the largest NAV up to each point, and that value is at most 0. *)
Theorem drawdown_30d_contract (p : Portfolio) (w : World) :
  (∃ dd, _calculate_30day_drawdown p w = (Ok dd, w)) ∧
  ((length (portfolio_history (self w)) < 30)%nat →
   _calculate_30day_drawdown p w = (Ok (Fin 0), w)) ∧
  ((30 ≤ length (portfolio_history (self w)))%nat →
   Forall (fun s => 0 < nav s) (lastn 30 (portfolio_history (self w))) →
   ∃ v, _calculate_30day_drawdown p w = (Ok (Fin v), w) ∧
        v = spec_rolling_30d_drawdown (map nav (portfolio_history (self w))) ∧
        v <= 0).
Proof.
  split; [apply drawdown_runs |]. split.
  - intros Hlt. unfold _calculate_30day_drawdown. run_monad.
    apply Nat.ltb_lt in Hlt. rewrite Hlt. reflexivity.
  - intros Hge Hpos. unfold _calculate_30day_drawdown. run_monad.
    apply Nat.ltb_ge in Hge. rewrite Hge.
    set (navs := map nav (lastn 30 (portfolio_history (self w)))).
    assert (Hnavs : map (fun q => Fin (nav q)) (lastn 30 (portfolio_history (self w))) =
                    map Fin navs) by (unfold navs; rewrite map_map; reflexivity).
    assert (Hpos' : Forall (fun x => 0 < x) navs).
    { unfold navs. apply Forall_forall. intros x Hx.
      apply list_elem_of_In, in_map_iff in Hx. destruct Hx as (s & <- & Hs).
      rewrite Forall_forall in Hpos. apply Hpos, list_elem_of_In, Hs. }
    assert (Hlen : length navs = 30%nat).
    { unfold navs. rewrite length_map, lastn_length. apply Nat.ltb_ge in Hge. lia. }
    rewrite Hnavs, drawdown_series by exact Hpos'.
    rewrite series_min_Fin by (rewrite Hlen; discriminate).
    eexists. split; [reflexivity |]. split.
    + unfold spec_rolling_30d_drawdown. rewrite lastn_map. reflexivity.
    + rewrite Hlen. cbn [seq map list_min_Q].
      eapply Qle_trans; [apply fold_min_le_init |].
      apply spec_drawdown_at_nonpos; [exact Hpos' | lia].
Qed.

Lemma drawdown_30d_contract_witness :
  ∃ v, _calculate_30day_drawdown (snap 0) (world_of default_engine falling_history []) =
         (Ok (Fin v), world_of default_engine falling_history []) ∧ v <= 0.
Proof.
  destruct (drawdown_30d_contract (snap 0) (world_of default_engine falling_history []))
    as (_ & _ & H).
  destruct H as (v & Hv & _ & Hle).
  - cbn. lia.
  - repeat constructor.
  - exists v. split; assumption.
Defined.

(** ** Value at risk *)

Lemma series_zip_take_r (op : fnum → fnum → fnum) (a b : Series) :
  series_zip op a (take (length a) b) = series_zip op a b.
Proof.
  revert b. induction a as [| x a IH]; intros [| y b]; cbn; try reflexivity.
  f_equal. apply IH.
Qed.

Lemma ffill_from_Fin (prev : fnum) (l : list Q) :
  ffill_from prev (map Fin l) = map Fin l.
Proof.
  revert prev. induction l as [| x l IH]; intros prev; cbn; [| rewrite IH]; reflexivity.
Qed.

Lemma series_zip_div_prev (prev : Q) (l : list Q) :
  0 < prev → Forall (fun x => 0 < x) l →
  map (fun x => fsub x (Fin 1)) (series_zip fdiv (map Fin l) (Fin prev :: map Fin l)) =
  map Fin (returns_from prev l).
Proof.
  revert prev. induction l as [| x l IH]; intros prev Hprev Hpos; [reflexivity |].
  apply Forall_cons in Hpos. destruct Hpos as [Hx Hl].
  cbn [map series_zip returns_from]. f_equal.
  - cbn. destruct (Qeq_bool prev 0) eqn:E; [| reflexivity].
    apply Qeq_bool_iff in E. lra.
  - apply IH; assumption.
Qed.

Lemma pct_change_positive (x : Q) (l : list Q) :
  Forall (fun y => 0 < y) (x :: l) →
  pct_change (map Fin (x :: l)) = NaN :: map Fin (returns_from x l).
Proof.
  intros Hpos. apply Forall_cons in Hpos. destruct Hpos as [Hx Hl].
  unfold pct_change, ffill. rewrite ffill_from_Fin.
  unfold shift1. cbn [map length].
  replace (S (length (map Fin l)) - 1)%nat with (length (map Fin l)) by lia.
  cbn [series_zip map]. f_equal.
  rewrite series_zip_take_r. apply series_zip_div_prev; assumption.
Qed.

Lemma returns_from_length (prev : Q) (l : list Q) :
  length (returns_from prev l) = length l.
Proof. revert prev. induction l as [| x l IH]; intros prev; cbn; [| rewrite IH]; reflexivity. Qed.

Lemma dropna_Fin (l : list Q) : dropna (map Fin l) = map Fin l.
Proof.
  unfold dropna. induction l as [| x l IH]; [reflexivity |].
  cbn [map]. rewrite filter_cons_True by reflexivity. rewrite IH. reflexivity.
Qed.

(** With positive NAVs every return is finite, and only the undefined
    first one is dropped. *)
Lemma var_returns_positive (navs : list Q) :
  navs ≠ [] → Forall (fun y => 0 < y) navs →
  ∃ rets, dropna (pct_change (map Fin navs)) = map Fin rets ∧
          length rets = (length navs - 1)%nat.
Proof.
  destruct navs as [| x l]; [congruence | intros _ Hpos].
  exists (returns_from x l). rewrite pct_change_positive by exact Hpos.
  unfold dropna. rewrite filter_cons_False by (cbn; congruence).
  fold (dropna (map Fin (returns_from x l))). rewrite dropna_Fin.
  split; [reflexivity |]. rewrite returns_from_length. cbn. lia.
Qed.

(** *** The percentile *)

Lemma all_fin_map (P : Q → Prop) (l : list Q) :
  Forall P l → all_fin P (map Fin l).
Proof.
  intros H. unfold all_fin. induction H; cbn; constructor; eauto.
Qed.

Lemma insert_sorted_Forall (P : fnum → Prop) (x : fnum) (s : Series) :
  P x → Forall P s → Forall P (insert_sorted x s).
Proof.
  intros Hx Hs. induction Hs as [| y s Hy Hs IH]; cbn.
  - constructor; [exact Hx | constructor].
  - destruct (is_nan y || fleb x y); repeat (constructor; try assumption).
Qed.

Lemma np_sort_Forall (P : fnum → Prop) (s : Series) :
  Forall P s → Forall P (np_sort s).
Proof.
  intros Hs. induction Hs as [| y s Hy Hs IH]; cbn; [constructor |].
  apply insert_sorted_Forall; assumption.
Qed.

Lemma insert_sorted_length (x : fnum) (s : Series) :
  length (insert_sorted x s) = S (length s).
Proof.
  induction s as [| y s IH]; cbn; [reflexivity |].
  destruct (is_nan y || fleb x y); cbn; [| rewrite IH]; reflexivity.
Qed.

Lemma np_sort_length (s : Series) : length (np_sort s) = length s.
Proof.
  induction s as [| y s IH]; [reflexivity |].
  change (np_sort (y :: s)) with (insert_sorted y (np_sort s)).
  rewrite insert_sorted_length, IH. reflexivity.
Qed.

Lemma lerp_Fin (a b t : Q) :
  ∃ r, lerp (Fin a) (Fin b) t = Fin r ∧
       (r == a + (b - a) * t).
Proof.
  unfold lerp. cbn [fsub fneg fadd fmul].
  destruct (Qle_bool (1 # 2) t); eexists; (split; [reflexivity | ring]).
Qed.


Lemma all_fin_nth (P : Q → Prop) (s : Series) (i : nat) :
  all_fin P s → (i < length s)%nat → ∃ q, nth i s NaN = Fin q ∧ P q.
Proof.
  intros Hs Hi. unfold all_fin in Hs. rewrite Forall_forall in Hs.
  apply Hs, list_elem_of_In, nth_In, Hi.
Qed.

Lemma percentile_rank_valid (c : Q) :
  0 <= c → c <= 1 →
  ∃ t, fdiv (fmul (fsub (Fin 1) (Fin c)) (Fin 100)) (Fin 100) = Fin t ∧
       Qle_bool 0 t && Qle_bool t 1 = true ∧ 0 <= t ∧ t <= 1.
Proof.
  intros H0 H1. eexists. split; [reflexivity |].
  assert (Ht : (1 + - c) * 100 / 100 == 1 - c) by field.
  assert (0 <= (1 + - c) * 100 / 100 ∧ (1 + - c) * 100 / 100 <= 1) as [Ha Hb]
    by (rewrite Ht; split; lra).
  split; [| split; assumption].
  apply andb_true_intro. split; apply Qle_bool_iff; assumption.
Qed.

Lemma virtual_index_bounds (n : nat) (t : Q) :
  (0 < n)%nat → 0 <= t → t <= 1 →
  let vi := inject_Z (Z.of_nat (n - 1)) * t in
  let previous := Z.to_nat (Qfloor vi) in
  (previous < n)%nat ∧
  0 <= vi - inject_Z (Z.of_nat previous) ∧
  vi - inject_Z (Z.of_nat previous) <= 1.
Proof.
  intros Hn Ht0 Ht1 vi previous.
  assert (Hk : 0 <= inject_Z (Z.of_nat (n - 1))).
  { change 0 with (inject_Z 0). rewrite <- Zle_Qle. lia. }
  assert (Hvi0 : 0 <= vi) by (unfold vi; nra).
  assert (Hvi1 : vi <= inject_Z (Z.of_nat (n - 1))) by (unfold vi; nra).
  assert (Hf0 : (0 <= Qfloor vi)%Z).
  { change 0%Z with (Qfloor 0). apply Qfloor_resp_le, Hvi0. }
  assert (Hf1 : (Qfloor vi <= Z.of_nat (n - 1))%Z).
  { rewrite <- (Qfloor_Z (Z.of_nat (n - 1))). apply Qfloor_resp_le, Hvi1. }
  assert (Hprev : Z.of_nat previous = Qfloor vi) by (unfold previous; lia).
  split; [unfold previous; lia |].
  rewrite Hprev.
  pose proof (Qfloor_le vi) as Hle.
  pose proof (Qlt_floor vi) as Hlt.
  rewrite inject_Z_plus in Hlt. change (inject_Z 1) with 1 in Hlt.
  split; lra.
Qed.

(** The percentile of finite values stays in any convex set that holds
    them, an interval in particular. *)
Lemma np_percentile_convex (P : Q → Prop) (a : Series) (c : Q) :
  (∀ x y t r, P x → P y → 0 <= t → t <= 1 → r == x + (y - x) * t → P r) →
  a ≠ [] → all_fin P a → 0 <= c → c <= 1 →
  ∃ r, np_percentile a (fmul (fsub (Fin 1) (Fin c)) (Fin 100)) = Ok (Fin r) ∧ P r.
Proof.
  intros Hconvex Hne Ha Hc0 Hc1. unfold np_percentile.
  destruct (percentile_rank_valid c Hc0 Hc1) as (t & -> & -> & Ht0 & Ht1).
  assert (Hn : (0 < length (np_sort a))%nat).
  { rewrite np_sort_length. destruct a; [congruence | cbn; lia]. }
  destruct (virtual_index_bounds (length (np_sort a)) t Hn Ht0 Ht1) as (Hprev & Hg0 & Hg1).
  apply (np_sort_Forall _ a) in Ha.
  destruct (all_fin_nth _ _ _ Ha Hprev) as (x & -> & Hx).
  set (next := Nat.min _ _).
  assert (Hnext : (next < length (np_sort a))%nat) by (unfold next; lia).
  destruct (all_fin_nth _ _ _ Ha Hnext) as (y & -> & Hy).
  destruct (lerp_Fin x y (inject_Z (Z.of_nat (length (np_sort a) - 1)) * t -
                          inject_Z (Z.of_nat (Z.to_nat
                            (Qfloor (inject_Z (Z.of_nat (length (np_sort a) - 1)) * t))))))
    as (r & -> & Hr).
  exists r. split; [reflexivity |]. exact (Hconvex _ _ _ _ Hx Hy Hg0 Hg1 Hr).
Qed.

Lemma interval_convex (lo hi x y t r : Q) :
  (lo <= x ∧ x <= hi) → (lo <= y ∧ y <= hi) → 0 <= t → t <= 1 →
  r == x + (y - x) * t → lo <= r ∧ r <= hi.
Proof. intros [? ?] [? ?] ? ? ->. split; nra. Qed.

Lemma np_percentile_runs (a : Series) (c : Q) :
  0 <= c → c <= 1 →
  ∃ v, np_percentile a (fmul (fsub (Fin 1) (Fin c)) (Fin 100)) = Ok v.
Proof.
  intros Hc0 Hc1. unfold np_percentile.
  destruct (percentile_rank_valid c Hc0 Hc1) as (t & -> & -> & _). eauto.
Qed.

(** C4: [calculate_var] returns exactly [0.0] when the history holds fewer
    than 30 snapshots and when fewer than 10 valid returns are left;
    otherwise, the configured confidence lying in [[0, 1]], it returns the
    absolute value of the [(1 - confidence) * 100]-th linear-interpolation
    percentile of the returns of the most recent 252 NAV values.  With
    positive NAVs the value is a finite real that is at least 0, and it is at
    most 1 when every return lies in [[-1, 1]]. *)
Theorem var_contract (p : Portfolio) (w : World) :
  ((length (portfolio_history (self w)) < 30)%nat →
   calculate_var p w = (Ok (Fin 0), w)) ∧
  ((length (var_returns (self w)) < 10)%nat →
   calculate_var p w = (Ok (Fin 0), w)) ∧
  ((30 ≤ length (portfolio_history (self w)))%nat →
   (10 ≤ length (var_returns (self w)))%nat →
   confidence_valid (self w) →
   ∃ v, np_percentile (var_returns (self w))
          (fmul (fsub (Fin 1) (var_confidence (self w))) (Fin 100)) = Ok v ∧
        calculate_var p w = (Ok (fabs v), w)) ∧
  (Forall (fun s => 0 < nav s) (lastn 252 (portfolio_history (self w))) →
   confidence_valid (self w) →
   ∃ r, calculate_var p w = (Ok (Fin r), w) ∧ 0 <= r ∧
        (all_fin (fun q => -1 <= q ∧ q <= 1) (var_returns (self w)) → r <= 1)).
Proof.
  unfold calculate_var, var_returns. run_monad.
  set (hist := portfolio_history (self w)).
  set (returns := dropna (pct_change (map (fun s => Fin (nav s)) (lastn 252 hist)))).
  repeat split.
  - intros Hlt. apply Nat.ltb_lt in Hlt. rewrite Hlt. reflexivity.
  - intros Hlt. apply Nat.ltb_lt in Hlt. rewrite Hlt.
    destruct (length hist <? 30)%nat; reflexivity.
  - intros Hlen Hret (c & Hc & Hc0 & Hc1).
    apply Nat.ltb_ge in Hlen, Hret. rewrite Hlen, Hret, Hc.
    destruct (np_percentile_runs returns c Hc0 Hc1) as (v & ->).
    exists v. split; reflexivity.
  - intros Hpos (c & Hc & Hc0 & Hc1).
    destruct (length hist <? 30)%nat eqn:Hlen.
    { exists 0. repeat split; [lra | intros _; lra]. }
    apply Nat.ltb_ge in Hlen.
    set (navs := map nav (lastn 252 hist)).
    assert (Hnavs : map (fun s => Fin (nav s)) (lastn 252 hist) = map Fin navs)
      by (unfold navs; rewrite map_map; reflexivity).
    assert (Hnlen : (30 ≤ length navs)%nat).
    { unfold navs. rewrite length_map, lastn_length. lia. }
    assert (Hpos' : Forall (fun x => 0 < x) navs).
    { unfold navs. apply Forall_forall. intros x Hx.
      apply list_elem_of_In, in_map_iff in Hx. destruct Hx as (s & <- & Hs).
      rewrite Forall_forall in Hpos. apply Hpos, list_elem_of_In, Hs. }
    destruct (var_returns_positive navs) as (rets & Hrets & Hrlen);
      [destruct navs; [cbn in Hnlen; lia | congruence] | exact Hpos' |].
    unfold returns. rewrite Hnavs, Hrets.
    assert (Hne : map Fin rets ≠ []).
    { destruct rets; [cbn in Hrlen; lia | discriminate]. }
    replace (length (map Fin rets) <? 10)%nat with false
      by (symmetry; apply Nat.ltb_ge; rewrite length_map; lia).
    rewrite Hc.
    destruct (np_percentile_convex (fun _ => True) (map Fin rets) c) as (v & Hv & _);
      [trivial | exact Hne | apply all_fin_map, Forall_forall; trivial
      | exact Hc0 | exact Hc1 |].
    rewrite Hv. exists (Qabs v). repeat split.
    + apply Qabs_nonneg.
    + intros Hbound.
      destruct (np_percentile_convex (fun q => -1 <= q ∧ q <= 1) (map Fin rets) c)
        as (v' & Hv' & Hlo & Hhi);
        [intros x y t r Hx Hy Ht0 Ht1 Hr;
         exact (interval_convex _ _ _ _ _ _ Hx Hy Ht0 Ht1 Hr) | exact Hne | exact Hbound
        | exact Hc0 | exact Hc1 |].
      rewrite Hv in Hv'. injection Hv' as ->.
      apply Qabs_Qle_condition. split; assumption.
Qed.

(** The three hypotheses of [var_contract] hold on concrete histories:
    thirty snapshots without NAV leave no valid return, and thirty falling
    NAVs give a value at risk in [[0, 1]]. *)
Lemma var_contract_witness :
  calculate_var (snap 0) (world_of default_engine zero_history []) =
    (Ok (Fin 0), world_of default_engine zero_history []) ∧
  ∃ r, calculate_var (snap 0) (world_of default_engine falling_history []) =
         (Ok (Fin r), world_of default_engine falling_history []) ∧
       0 <= r ∧ r <= 1.
Proof.
  split.
  - apply (var_contract (snap 0) (world_of default_engine zero_history [])).
    vm_compute. lia.
  - destruct (var_contract (snap 0) (world_of default_engine falling_history []))
      as (_ & _ & _ & H).
    destruct H as (r & Hr & H0 & H1).
    + repeat constructor.
    + exists 0.95. repeat split; discriminate.
    + exists r. repeat split; [exact Hr | exact H0 |].
      apply H1. vm_compute. repeat (constructor; [eexists; split; [reflexivity | split; discriminate] |]).
      constructor.
Defined.

(** On a history whose NAV triples every day every return is 2, and so is
    the value at risk. *)
Lemma var_exceeds_one :
  ∃ v, calculate_var (snap 0) (world_of default_engine tripling_history []) =
         (Ok (Fin v), world_of default_engine tripling_history []) ∧
       length (portfolio_history (self (world_of default_engine tripling_history []))) = 30%nat ∧
       ¬ (0 <= v ∧ v <= 1).
Proof.
  exists (1620000 # 810000). split; [vm_compute; reflexivity |].
  split; [reflexivity |]. intros [_ H]. revert H. apply Qlt_not_le. reflexivity.
Qed.

(** ** Dicts and the circuit-breaker response *)

Lemma dict_set_keys (d : Dict) (k : string) (v w : Q) :
  dict_get d k = Some w → dict_keys (dict_set d k v) = dict_keys d.
Proof.
  unfold dict_keys.
  induction d as [| [k' v'] d IH]; cbn; [discriminate |].
  destruct (String.eqb k' k) eqn:E; cbn; [reflexivity |].
  intros H. rewrite IH by exact H. reflexivity.
Qed.

Lemma dict_get_is_Some (d : Dict) (k : string) :
  In k (dict_keys d) → ∃ v, dict_get d k = Some v.
Proof.
  induction d as [| [k' v'] d IH]; cbn; [intros [] |].
  destruct (String.eqb k' k) eqn:E; [eauto |].
  intros [-> | Hin]; [rewrite String.eqb_refl in E; discriminate | apply IH, Hin].
Qed.

Lemma scale_step_keys (f : Q) (d : Dict) (k : string) :
  dict_keys (scale_step f d k) = dict_keys d.
Proof.
  unfold scale_step. destruct (dict_get d k) eqn:E; [| reflexivity].
  eapply dict_set_keys, E.
Qed.

Lemma scale_loop_keys (f : Q) (ks : list string) (d : Dict) :
  dict_keys (scale_loop f ks d) = dict_keys d.
Proof.
  revert d. induction ks as [| k ks IH]; intros d; [reflexivity |].
  cbn. unfold scale_loop in IH. rewrite IH. apply scale_step_keys.
Qed.

Lemma dict_get_app_fresh (pre d : Dict) (k : string) :
  ¬ In k (dict_keys pre) → dict_get (pre ++ d) k = dict_get d k.
Proof.
  induction pre as [| [k' v'] pre IH]; cbn; [reflexivity |].
  intros Hnot. destruct (String.eqb k' k) eqn:E.
  - apply String.eqb_eq in E. tauto.
  - apply IH. tauto.
Qed.

Lemma dict_set_app_fresh (pre d : Dict) (k : string) (v : Q) :
  ¬ In k (dict_keys pre) → dict_set (pre ++ d) k v = pre ++ dict_set d k v.
Proof.
  induction pre as [| [k' v'] pre IH]; cbn; [reflexivity |].
  intros Hnot. destruct (String.eqb k' k) eqn:E.
  - apply String.eqb_eq in E. tauto.
  - rewrite IH by tauto. reflexivity.
Qed.

(** On a dict, whose keys are unique, the loop scales every value once. *)
Lemma scale_loop_scaled_from (f : Q) (pre d : Dict) :
  NoDup (dict_keys (pre ++ d)) →
  scale_loop f (dict_keys d) (pre ++ d) = pre ++ scaled f d.
Proof.
  revert pre. induction d as [| [k v] d IH]; intros pre Hnd; [reflexivity |].
  assert (Hfresh : ¬ In k (dict_keys pre)).
  { unfold dict_keys in Hnd. rewrite map_app in Hnd. cbn in Hnd.
    apply NoDup_app in Hnd. destruct Hnd as (_ & Hdisj & _).
    intros Hin. apply (Hdisj k); [apply list_elem_of_In, Hin | left]. }
  assert (Hstep : scale_step f (pre ++ (k, v) :: d) k = (pre ++ [(k, v * f)]) ++ d).
  { unfold scale_step. rewrite dict_get_app_fresh by exact Hfresh.
    cbn [dict_get]. rewrite String.eqb_refl.
    rewrite dict_set_app_fresh by exact Hfresh. cbn [dict_set]. rewrite String.eqb_refl.
    rewrite <- app_assoc. reflexivity. }
  change (scale_loop f (dict_keys ((k, v) :: d)) (pre ++ (k, v) :: d))
    with (scale_loop f (dict_keys d) (scale_step f (pre ++ (k, v) :: d) k)).
  rewrite Hstep, IH.
  - rewrite <- app_assoc. reflexivity.
  - unfold dict_keys in *. rewrite !map_app in *. cbn in *.
    rewrite <- app_assoc. exact Hnd.
Qed.

Lemma scale_loop_scaled (f : Q) (d : Dict) :
  dict_wf d → scale_loop f (dict_keys d) d = scaled f d.
Proof. intros Hwf. apply (scale_loop_scaled_from f [] d), Hwf. Qed.


(** *** Sums of weights *)

Lemma fold_Qplus_acc (l : list Q) (a : Q) :
  fold_left Qplus l a == a + fold_left Qplus l 0.
Proof.
  revert a. induction l as [| x l IH]; intros a; cbn.
  - ring.
  - rewrite (IH (a + x)), (IH (0 + x)). ring.
Qed.

Lemma sum_Q_cons (x : Q) (l : list Q) : sum_Q (x :: l) == x + sum_Q l.
Proof. unfold sum_Q. cbn. rewrite fold_Qplus_acc. ring. Qed.


Lemma gross_exposure_scaled (f : Q) (d : Dict) :
  0 <= f → gross_exposure_of (scaled f d) == f * gross_exposure_of d.
Proof.
  intros Hf. unfold gross_exposure_of, dict_values, scaled.
  induction d as [| [k v] d IH]; [cbn; ring |].
  cbn [map snd fst]. rewrite !sum_Q_cons, IH, Qabs_Qmult, (Qabs_pos f) by exact Hf.
  ring.
Qed.

Lemma Qgtb_true (a b : Q) : Qgtb a b = true ↔ b < a.
Proof.
  unfold Qgtb. rewrite negb_true_iff, <- not_true_iff_false, Qle_bool_iff.
  split; [apply Qnot_le_lt | apply Qlt_not_le].
Qed.

Lemma Qgtb_false (a b : Q) : Qgtb a b = false ↔ a <= b.
Proof. unfold Qgtb. rewrite negb_false_iff. apply Qle_bool_iff. Qed.

(** *** Running the response *)

Lemma deref_run (r : ref) (d : Dict) (w : World) :
  store w !! r = Some d → deref r w = (Ok d, w).
Proof. intros H. unfold deref. rewrite H. reflexivity. Qed.

Lemma for_each_scale_run (r : ref) (f : Q) (ks : list string) (d : Dict) (w : World) :
  store w !! r = Some d →
  (∀ k, In k ks → In k (dict_keys d)) →
  for_each ks (fun symbol => weight ← getitem r symbol; setitem r symbol (weight * f)) w =
  (Ok tt,
   mkWorld (self w) (<[r := scale_loop f ks d]> (store w)) (clock w) (ticks w) (logged w)).
Proof.
  revert d w. induction ks as [| k ks IH]; intros d w Hr Hks.
  - cbn. rewrite list_insert_id by exact Hr. destruct w; reflexivity.
  - destruct (dict_get_is_Some d k) as (v & Hv); [apply Hks; left; reflexivity |].
    cbn [for_each]. unfold getitem, setitem, assign. run_monad.
    rewrite (deref_run r d w Hr), Hv. run_monad. rewrite (deref_run r d w Hr).
    cbn [self store clock ticks logged].
    assert (Hlt : (r < length (store w))%nat) by (eapply lookup_lt_Some, Hr).
    assert (Hstep : dict_set d k (v * f) = scale_step f d k)
      by (unfold scale_step; rewrite Hv; reflexivity).
    rewrite Hstep.
    rewrite (IH (scale_step f d k)).
    + cbn [self store clock ticks logged]. rewrite list_insert_insert_eq. reflexivity.
    + cbn [store]. apply list_lookup_insert_eq, Hlt.
    + intros k' Hk'. rewrite scale_step_keys. apply Hks. right. exact Hk'.
Qed.

Lemma scale_in_place_run (r : ref) (f : Q) (d : Dict) (w : World) :
  store w !! r = Some d →
  scale_in_place r f w =
  (Ok tt,
   mkWorld (self w) (<[r := scale_loop f (dict_keys d) d]> (store w))
     (clock w) (ticks w) (logged w)).
Proof.
  intros Hr. unfold scale_in_place. unfold mbind at 1, M_bind at 1.
  rewrite (deref_run r d w Hr). apply for_each_scale_run; [exact Hr | auto].
Qed.

Lemma store_snoc_insert (st : list Dict) (d d' : Dict) :
  <[length st := d']> (st ++ [d]) = st ++ [d'].
Proof.
  rewrite insert_app_r_alt by lia. rewrite Nat.sub_diag. reflexivity.
Qed.

(** What a call of [apply_circuit_breaker] does to the world: one new dict
    at the next free reference, one log record, nothing else. *)
Lemma apply_circuit_breaker_run (p : Portfolio) (lvl : CircuitBreakerLevel)
    (d : Dict) (w : World) :
  store w !! positions p = Some d →
  apply_circuit_breaker p lvl w =
  (Ok (length (store w)),
   mkWorld (self w) (store w ++ [adjusted lvl d]) (clock w) (ticks w)
     (logged w ++ breaker_log lvl)).
Proof.
  intros Hp. unfold apply_circuit_breaker, dict_copy, alloc.
  unfold mbind at 1, M_bind at 1. unfold mbind at 1, M_bind at 1.
  rewrite (deref_run _ d w Hp).
  set (w1 := mkWorld (self w) (store w ++ [d]) (clock w) (ticks w) (logged w)).
  assert (Hnew : store w1 !! length (store w) = Some d)
    by (apply list_lookup_middle; reflexivity).
  destruct lvl; unfold mbind, M_bind.
  - cbn. rewrite app_nil_r. reflexivity.
  - rewrite (scale_in_place_run _ _ d w1 Hnew). cbn.
    rewrite store_snoc_insert. reflexivity.
  - rewrite (deref_run _ d w1 Hnew).
    change (sum_Q (map Qabs (dict_values d))) with (gross_exposure_of d).
    cbn [adjusted]. destruct (Qgtb (gross_exposure_of d) 0).
    + rewrite (scale_in_place_run _ _ d w1 Hnew). cbn.
      rewrite store_snoc_insert. reflexivity.
    + reflexivity.
  - rewrite (scale_in_place_run _ _ d w1 Hnew). cbn.
    rewrite store_snoc_insert. reflexivity.
Qed.

Lemma adjusted_keys (lvl : CircuitBreakerLevel) (d : Dict) :
  dict_keys (adjusted lvl d) = dict_keys d.
Proof.
  destruct lvl; cbn [adjusted]; try apply scale_loop_keys; [reflexivity |].
  destruct (Qgtb (gross_exposure_of d) 0); [apply scale_loop_keys | reflexivity].
Qed.

(** *** The loop in binary64 *)










(** C9: [apply_circuit_breaker] leaves the engine and its input alone.
    Every field of [self] is as before, every dict of the store, the input
    positions among them, is as before, the clock has not been read, and the
    dict behind the returned reference is a new object; with level [NONE] its
    content is that of the input positions. *)
Theorem apply_circuit_breaker_pure (p : Portfolio) (lvl : CircuitBreakerLevel)
    (w : World) (d : Dict) :
  store w !! positions p = Some d →
  ∃ r w' d',
    apply_circuit_breaker p lvl w = (Ok r, w') ∧
    self w' = self w ∧
    (∀ r0 d0, store w !! r0 = Some d0 → store w' !! r0 = Some d0) ∧
    store w' !! positions p = Some d ∧
    store w !! r = None ∧
    r ≠ positions p ∧
    store w' !! r = Some d' ∧
    clock w' = clock w ∧ ticks w' = ticks w ∧
    (lvl = NONE → d' = d).
Proof.
  intros Hp.
  exists (length (store w)). eexists. exists (adjusted lvl d).
  split; [apply apply_circuit_breaker_run, Hp |].
  cbn [self store clock ticks].
  assert (Hold : ∀ r0 d0, store w !! r0 = Some d0 →
                          (store w ++ [adjusted lvl d]) !! r0 = Some d0)
    by (intros r0 d0 H; apply lookup_app_l_Some, H).
  repeat split.
  - exact Hold.
  - apply Hold, Hp.
  - apply lookup_ge_None. lia.
  - apply lookup_lt_Some in Hp. lia.
  - apply list_lookup_middle. reflexivity.
  - intros ->. reflexivity.
Qed.

Lemma apply_circuit_breaker_pure_witness :
  ∃ r w',
    apply_circuit_breaker (snap 1) NONE (world_of default_engine [] two_positions) =
      (Ok r, w') ∧
    self w' = self (world_of default_engine [] two_positions) ∧
    r ≠ positions (snap 1) ∧
    store w' !! r = Some [("AAPL"%string, 0.1); ("MSFT"%string, -0.3)].
Proof.
  destruct (apply_circuit_breaker_pure (snap 1) NONE
              (world_of default_engine [] two_positions)
              [("AAPL"%string, 0.1); ("MSFT"%string, -0.3)])
    as (r & w' & d' & Hrun & Hself & _ & _ & _ & Hne & Hd' & _ & _ & Hnone).
  - reflexivity.
  - exists r, w'. rewrite <- (Hnone eq_refl). repeat split; assumption.
Defined.

(** C10: [calculate_var] does not look at its portfolio argument: its
    result is fixed by the history and the confidence that the engine holds,
    and it changes nothing.  The positions that [apply_circuit_breaker]
    returns are fixed by the level and the content of the input positions,
    whatever the engine, and have the symbols of the input, in the same
    order. *)
Theorem outputs_depend_on_inputs_only :
  (∀ (p1 p2 : Portfolio) (w : World), calculate_var p1 w = calculate_var p2 w) ∧
  (∀ (p1 p2 : Portfolio) (w1 w2 : World),
     portfolio_history (self w1) = portfolio_history (self w2) →
     var_confidence (self w1) = var_confidence (self w2) →
     fst (calculate_var p1 w1) = fst (calculate_var p2 w2) ∧
     snd (calculate_var p1 w1) = w1) ∧
  (∀ (lvl : CircuitBreakerLevel) (p1 p2 : Portfolio) (w1 w2 : World) (d : Dict),
     store w1 !! positions p1 = Some d →
     store w2 !! positions p2 = Some d →
     ∃ r1 r2 w1' w2' d',
       apply_circuit_breaker p1 lvl w1 = (Ok r1, w1') ∧
       apply_circuit_breaker p2 lvl w2 = (Ok r2, w2') ∧
       store w1' !! r1 = Some d' ∧
       store w2' !! r2 = Some d' ∧
       dict_keys d' = dict_keys d).
Proof.
  split; [reflexivity |]. split.
  - intros p1 p2 w1 w2 Hh Hc. unfold calculate_var. run_monad. rewrite Hh, Hc.
    destruct (length (portfolio_history (self w2)) <? 30)%nat; [split; reflexivity |].
    destruct (length _ <? 10)%nat; [split; reflexivity |].
    destruct (np_percentile _ _); split; reflexivity.
  - intros lvl p1 p2 w1 w2 d H1 H2.
    exists (length (store w1)), (length (store w2)). eexists. eexists.
    exists (adjusted lvl d).
    split; [apply apply_circuit_breaker_run, H1 |].
    split; [apply apply_circuit_breaker_run, H2 |].
    cbn [store].
    split; [apply list_lookup_middle; reflexivity |].
    split; [apply list_lookup_middle; reflexivity |].
    apply adjusted_keys.
Qed.

Lemma outputs_depend_on_inputs_only_witness :
  fst (calculate_var (snap 1) (world_of default_engine falling_history [])) =
  fst (calculate_var (snap 2) (world_of default_engine falling_history two_positions)) ∧
  ∃ r1 r2 w1' w2' d',
    apply_circuit_breaker (snap 1) LEVEL_1 (world_of default_engine [] two_positions) =
      (Ok r1, w1') ∧
    apply_circuit_breaker (snap 2) LEVEL_1 (world_of blank_engine falling_history two_positions) =
      (Ok r2, w2') ∧
    store w1' !! r1 = Some d' ∧
    store w2' !! r2 = Some d' ∧
    dict_keys d' = ["AAPL"%string; "MSFT"%string].
Proof.
  destruct outputs_depend_on_inputs_only as (_ & Hvar & Hcb). split.
  - apply Hvar; reflexivity.
  - apply (Hcb LEVEL_1 (snap 1) (snap 2) _ _
             [("AAPL"%string, 0.1); ("MSFT"%string, -0.3)]); reflexivity.
Defined.

(** ** Construction *)

(** The configuration [nan_config] is invalid, and [RiskEngine] is built
    from it all the same: the engine holds [NaN] as its gross limit. *)
Lemma invalid_config_accepted :
  config_invalid nan_config ∧
  (∃ e, RiskEngine_init (Some nan_config) = Ok e ∧
        gross (position_limits e) = NaN ∧
        daily_loss_2 (circuit_breakers e) = PInf) ∧
  ¬ (∃ err, RiskEngine_init (Some nan_config) = Raise err).
Proof.
  split; [| split].
  - exists "gross_limit"%string, NaN. repeat split. cbn. tauto.
  - eexists. split; [reflexivity |]. split; reflexivity.
  - intros (err & H). discriminate H.
Qed.

Lemma fleb_NaN_r (x : fnum) : fleb x NaN = false.
Proof. destruct x; reflexivity. Qed.

(** C6: the configuration is not validated.  For every configuration,
    invalid ones included, the construction of [RiskEngine] succeeds: the
    engine holds the configuration (the default one when none or an empty
    one is given), each limit and threshold is the configured value, or its
    default when the key is absent, and the state starts empty.  Nothing
    validates the values later either: with [NaN] thresholds
    [check_breakers] still answers, with [NONE], for every portfolio. *)
Theorem construction_never_validates (cfg : option (gmap string fnum)) :
  ∃ e,
    RiskEngine_init cfg = Ok e ∧
    config e = config_or_default cfg ∧
    position_limits e =
      mkPositionLimits
        (config_get (config e) "single_name_limit" (Fin 0.03))
        (config_get (config e) "sector_limit" (Fin 0.15))
        (config_get (config e) "gross_limit" (Fin 1.50))
        (config_get (config e) "net_limit" (Fin 0.50)) ∧
    circuit_breakers e =
      mkCircuitBreakers
        (config_get (config e) "daily_loss_1" (Fin (-0.015)))
        (config_get (config e) "daily_loss_2" (Fin (-0.020)))
        (config_get (config e) "drawdown_30d" (Fin (-0.120))) ∧
    current_breaker_level e = NONE ∧
    risk_alerts e = [] ∧
    portfolio_history e = [] ∧
    (∀ (p : Portfolio) (w : World),
       circuit_breakers (self w) = mkCircuitBreakers NaN NaN NaN →
       ∃ w', check_breakers p w = (Ok NONE, w')).
Proof.
  eexists. split; [reflexivity |]. cbn. repeat split.
  intros p w Hcb. unfold check_breakers. run_monad. rewrite Hcb. cbn.
  destruct (drawdown_runs p w) as (dd & ->). rewrite fleb_NaN_r. eauto.
Qed.

Lemma construction_never_validates_witness :
  ∃ e, RiskEngine_init (Some nan_config) = Ok e ∧
       position_limits e = mkPositionLimits (Fin 0.03) (Fin 0.15) NaN (Fin 0.50).
Proof.
  destruct (construction_never_validates (Some nan_config))
    as (e & Hinit & Hcfg & Hlim & _).
  exists e. split; [exact Hinit |]. rewrite Hlim, Hcfg. reflexivity.
Defined.

(** ** Regime detection *)

Lemma fleb_negb_fltb (x y : fnum) :
  is_nan x = false → is_nan y = false → fleb x y = negb (fltb y x).
Proof.
  destruct x as [a | | |], y as [b | | |]; intros Hx Hy; try discriminate; try reflexivity.
  unfold fleb, fltb, fcompare. rewrite <- (Qcompare_antisym a b).
  destruct (a ?= b); reflexivity.
Qed.

Lemma detect_regime_body (sqrtQ : Q → Q) (md : DataFrame) (close : Series) (w : World) :
  df_column md "close" = Some close →
  detect_regime sqrtQ md w =
  (Ok (if fgtb (current_trend sqrtQ close) (Fin 0.1) &&
          fltb (current_vol sqrtQ close) (Fin 0.20)
       then "TREND_LOW_VOL"
       else if fgtb (current_trend sqrtQ close) (Fin 0.1) &&
               fgeb (current_vol sqrtQ close) (Fin 0.20)
       then "TREND_HIGH_VOL"
       else if fleb (current_trend sqrtQ close) (Fin 0.1) &&
               fltb (current_vol sqrtQ close) (Fin 0.20)
       then "CHOP_LOW_VOL"
       else "CHOP_HIGH_VOL")%string, w).
Proof.
  intros Hclose. unfold detect_regime. run_monad. rewrite Hclose.
  fold (current_trend sqrtQ close). fold (current_vol sqrtQ close).
  destruct (fgtb (current_trend sqrtQ close) (Fin 0.1) &&
            fltb (current_vol sqrtQ close) (Fin 0.20)); [reflexivity |].
  destruct (fgtb (current_trend sqrtQ close) (Fin 0.1) &&
            fgeb (current_vol sqrtQ close) (Fin 0.20)); [reflexivity |].
  destruct (fleb (current_trend sqrtQ close) (Fin 0.1) &&
            fltb (current_vol sqrtQ close) (Fin 0.20)); reflexivity.
Qed.

(** No rows and three closes are both too little for a 20-period window,
    and neither yields [UNKNOWN]: the first is labelled through the zero
    defaults, the second has [NaN] statistics and falls to the last branch. *)
Lemma short_series_not_unknown :
  detect_regime sqrt_milli no_rows (world_of default_engine [] []) =
    (Ok "CHOP_LOW_VOL"%string, world_of default_engine [] []) ∧
  current_trend sqrt_milli [Fin 100; Fin 101; Fin 102] = NaN ∧
  current_vol sqrt_milli [Fin 100; Fin 101; Fin 102] = NaN ∧
  detect_regime sqrt_milli three_closes (world_of default_engine [] []) =
    (Ok "CHOP_HIGH_VOL"%string, world_of default_engine [] []).
Proof. repeat split; vm_compute; reflexivity. Qed.

(** C5: [detect_regime] never raises.  It returns one of the five labels
    and leaves the engine and the store alone.  [UNKNOWN] is the label
    exactly when the computation raises, which it does when the data has no
    [close] column; a series that is only too short does not raise and gets
    one of the four other labels, [CHOP_LOW_VOL] when it has no rows at all.
    When both statistics are defined the label is the one of the table:
    trend above 0.1 or not, volatility below 0.20 or not. *)
Theorem detect_regime_total (sqrtQ : Q → Q) (md : DataFrame) (w : World) :
  ∃ label w',
    detect_regime sqrtQ md w = (Ok label, w') ∧
    self w' = self w ∧ store w' = store w ∧
    In label ["TREND_LOW_VOL"; "TREND_HIGH_VOL"; "CHOP_LOW_VOL"; "CHOP_HIGH_VOL";
              "UNKNOWN"]%string ∧
    (label = "UNKNOWN"%string ↔ df_column md "close" = None) ∧
    (df_column md "close" = Some [] → label = "CHOP_LOW_VOL"%string) ∧
    (∀ close,
       df_column md "close" = Some close →
       is_nan (current_trend sqrtQ close) = false →
       is_nan (current_vol sqrtQ close) = false →
       label = regime_table (fgtb (current_trend sqrtQ close) (Fin 0.1))
                 (fltb (current_vol sqrtQ close) (Fin 0.20))).
Proof.
  destruct (df_column md "close") as [close |] eqn:Hclose.
  - rewrite (detect_regime_body sqrtQ md close w Hclose).
    eexists _, w. split; [reflexivity |]. split; [reflexivity |]. split; [reflexivity |].
    set (t := current_trend sqrtQ close). set (v := current_vol sqrtQ close).
    assert (Hempty : close = [] → t = Fin 0 ∧ v = Fin 0)
      by (intros ->; split; reflexivity).
    assert (Htable : is_nan t = false → is_nan v = false →
                     fleb t (Fin 0.1) = negb (fgtb t (Fin 0.1)) ∧
                     fgeb v (Fin 0.20) = negb (fltb v (Fin 0.20))).
    { intros Ht Hv. split; apply fleb_negb_fltb; assumption || reflexivity. }
    split; [| split; [| split]].
    + destruct (fgtb t (Fin 0.1) && fltb v (Fin 0.20));
        [| destruct (fgtb t (Fin 0.1) && fgeb v (Fin 0.20));
           [| destruct (fleb t (Fin 0.1) && fltb v (Fin 0.20))]];
        cbn; tauto.
    + destruct (fgtb t (Fin 0.1) && fltb v (Fin 0.20));
        [| destruct (fgtb t (Fin 0.1) && fgeb v (Fin 0.20));
           [| destruct (fleb t (Fin 0.1) && fltb v (Fin 0.20))]];
        split; discriminate.
    + intros Hnil. injection Hnil as ->. destruct (Hempty eq_refl) as [-> ->].
      reflexivity.
    + intros close' Hc Ht Hv. injection Hc as <-.
      change (is_nan t = false) in Ht. change (is_nan v = false) in Hv.
      change (current_trend sqrtQ close) with t.
      change (current_vol sqrtQ close) with v.
      destruct (Htable Ht Hv) as [H1 H2]. rewrite H1, H2.
      destruct (fgtb t (Fin 0.1)), (fltb v (Fin 0.20)); reflexivity.
  - unfold detect_regime. run_monad. rewrite Hclose. cbn.
    eexists _, _. split; [reflexivity |]. cbn.
    repeat split; try discriminate; tauto.
Qed.

Lemma detect_regime_total_witness :
  ∃ w', detect_regime sqrt_milli no_close_column (world_of default_engine [] []) =
          (Ok "UNKNOWN"%string, w').
Proof.
  destruct (detect_regime_total sqrt_milli no_close_column (world_of default_engine [] []))
    as (label & w' & Hrun & _ & _ & _ & Hunknown & _).
  exists w'. rewrite Hrun. f_equal. f_equal. apply Hunknown. reflexivity.
Defined.

(** ** Limit checks *)

Lemma stamp_app (clk : nat → Z) (t : nat) (a b : list RiskAlert) :
  stamp clk t (a ++ b) = stamp clk t a ++ stamp clk (t + length a) b.
Proof.
  revert t. induction a as [| x a IH]; intros t; cbn.
  - rewrite Nat.add_0_r. reflexivity.
  - rewrite IH. do 3 f_equal. lia.
Qed.

Lemma stamp_length (clk : nat → Z) (t : nat) (a : list RiskAlert) :
  length (stamp clk t a) = length a.
Proof. revert t. induction a as [| x a IH]; intros t; cbn; [| rewrite IH]; reflexivity. Qed.

Lemma untimed_stamp (clk : nat → Z) (t : nat) (a : list RiskAlert) :
  map untimed (stamp clk t a) = map untimed a.
Proof.
  revert t. induction a as [| x a IH]; intros t; cbn; [reflexivity |].
  rewrite IH. reflexivity.
Qed.

Lemma stamp_constant_clock (clk : nat → Z) (t t' : nat) (a : list RiskAlert) :
  (∀ i j, clk i = clk j) → stamp clk t a = stamp clk t' a.
Proof.
  intros Hclk. revert t t'. induction a as [| x a IH]; intros t t'; cbn; [reflexivity |].
  rewrite (Hclk t t'), (IH (S t) (S t')). reflexivity.
Qed.

Lemma stamp_eq_iff (clk : nat → Z) (t t' : nat) (a : list RiskAlert) :
  stamp clk t a = stamp clk t' a ↔
  ∀ k, (k < length a)%nat → clk (t + k)%nat = clk (t' + k)%nat.
Proof.
  revert t t'. induction a as [| x a IH]; intros t t'; cbn [stamp length].
  - split; [intros _ k Hk; lia | reflexivity].
  - split.
    + intros Heq. injection Heq as Hclk Hrest.
      pose proof (proj1 (IH (S t) (S t')) Hrest) as Hall.
      intros [| k] Hk.
      * rewrite !Nat.add_0_r. exact Hclk.
      * rewrite !Nat.add_succ_r. apply (Hall k). lia.
    + intros Hall. f_equal.
      * unfold stamped. f_equal. specialize (Hall 0%nat).
        rewrite !Nat.add_0_r in Hall. apply Hall. lia.
      * apply (proj2 (IH (S t) (S t'))). intros k Hk. specialize (Hall (S k)).
        rewrite !Nat.add_succ_r in Hall. apply Hall. lia.
Qed.

Lemma advance_0 (w : World) : advance w 0 = w.
Proof. destruct w. unfold advance. cbn. rewrite Nat.add_0_r. reflexivity. Qed.

Lemma advance_advance (w : World) (n m : nat) :
  advance (advance w n) m = advance w (n + m).
Proof. unfold advance. cbn. f_equal. lia. Qed.

Lemma for_collect_stamp {A : Type} (body : A → M (list RiskAlert))
    (f : A → list RiskAlert) (l : list A) :
  (∀ x w, body x w =
          (Ok (stamp (clock w) (ticks w) (f x)), advance w (length (f x)))) →
  ∀ w, for_collect l body w =
       (Ok (stamp (clock w) (ticks w) (flat_map f l)),
        advance w (length (flat_map f l))).
Proof.
  intros Hbody. induction l as [| x l IH]; intros w.
  - cbn. rewrite advance_0. reflexivity.
  - cbn [for_collect flat_map]. unfold mbind, M_bind. rewrite Hbody, IH.
    unfold mret, M_ret. rewrite stamp_app, length_app, advance_advance. reflexivity.
Qed.

Lemma single_name_body_run (e : RiskEngine) (kv : string * Q) (w : World) :
  (let '(symbol, weight) := kv in
   let abs_weight := Fin (Qabs weight) in
   if fgtb abs_weight (single_name (position_limits e)) then
     let lv :=
       if fgtb abs_weight (fmul (single_name (position_limits e)) (Fin 1.2))
       then RED else ORANGE in
     now ← datetime_now;
     mret [mkRiskAlert lv [Lit "Single name limit exceeded: "; Lit symbol]
             "single_name_concentration" abs_weight
             (single_name (position_limits e)) now true]
   else mret []) w =
  (Ok (stamp (clock w) (ticks w) (single_name_finding e kv)),
   advance w (length (single_name_finding e kv))).
Proof.
  destruct kv as [symbol weight]. unfold single_name_finding. cbn [fst snd].
  destruct (fgtb (Fin (Qabs weight)) (single_name (position_limits e))).
  - run_monad. unfold advance. cbn. rewrite Nat.add_1_r. reflexivity.
  - run_monad. cbn. rewrite advance_0. reflexivity.
Qed.

Lemma check_single_name_run (p : Portfolio) (d : Dict) (w : World) :
  store w !! positions p = Some d →
  _check_single_name_limits p w =
  (Ok (stamp (clock w) (ticks w) (single_name_findings (self w) d)),
   advance w (length (single_name_findings (self w) d))).
Proof.
  intros Hp. unfold _check_single_name_limits.
  unfold mbind at 1, M_bind at 1, get_self.
  unfold mbind at 1, M_bind at 1. rewrite (deref_run _ d w Hp).
  apply (for_collect_stamp _ (single_name_finding (self w))).
  intros [symbol weight] w'. apply (single_name_body_run (self w) (symbol, weight)).
Qed.

Ltac same_world :=
  apply f_equal2; [reflexivity | unfold advance; cbn; f_equal; lia].

Lemma check_exposure_run (p : Portfolio) (d : Dict) (w : World) :
  store w !! positions p = Some d →
  _check_exposure_limits p w =
  (Ok (stamp (clock w) (ticks w) (gross_findings (self w) d ++ net_findings (self w) d)),
   advance w (length (gross_findings (self w) d ++ net_findings (self w) d))).
Proof.
  intros Hp. unfold _check_exposure_limits.
  unfold mbind at 1, M_bind at 1, get_self.
  unfold mbind at 1, M_bind at 1. rewrite (deref_run _ d w Hp).
  unfold gross_findings, net_findings, advance.
  destruct (fgtb (Fin (sum_Q (map Qabs (dict_values d)))) (gross (position_limits (self w))));
    destruct (fgtb (Fin (Qabs (sum_Q (dict_values d)))) (net (position_limits (self w))));
    run_monad; destruct w; same_world.
Qed.

Lemma calculate_var_run (p : Portfolio) (w : World) :
  calculate_var p w = (var_outcome (self w), w).
Proof.
  unfold var_outcome, calculate_var. run_monad.
  destruct (length (portfolio_history (self w)) <? 30)%nat; [reflexivity |].
  destruct (length _ <? 10)%nat; [reflexivity |].
  destruct (np_percentile _ _); reflexivity.
Qed.

Lemma check_var_run (p : Portfolio) (w : World) :
  _check_var_limits p w =
  (Ok (stamp (clock w) (ticks w) (var_findings (self w))),
   mkWorld (self w) (store w) (clock w) (ticks w + length (var_findings (self w)))
     (logged w ++ var_warnings (self w))).
Proof.
  unfold _check_var_limits, try_except.
  unfold mbind at 1, M_bind at 1. rewrite calculate_var_run.
  unfold var_findings, var_warnings.
  destruct (var_outcome (self w)) as [var | err].
  - destruct (fgtb var (Fin 0.02)); run_monad; destruct w; cbn; rewrite app_nil_r;
      same_world.
  - run_monad. destruct w. same_world.
Qed.

Lemma check_correlation_run (p : Portfolio) (w : World) :
  _check_correlation_limits p w =
  (Ok (stamp (clock w) (ticks w) (correlation_findings (self w))),
   advance w (length (correlation_findings (self w)))).
Proof.
  unfold _check_correlation_limits, correlation_findings, advance. run_monad.
  destruct (negb (df_empty (correlation_matrix (self w)))).
  - destruct (fgtb _ _); destruct w; same_world.
  - destruct w; same_world.
Qed.

(** A call of [check_limits] in full: the alerts are the findings, stamped
    with successive readings of the clock; the engine appends them to its
    alert log and is otherwise unchanged. *)
Lemma check_limits_run (p : Portfolio) (d : Dict) (w : World) :
  store w !! positions p = Some d →
  check_limits p w =
  (Ok (stamp (clock w) (ticks w) (limit_findings (self w) d)),
   mkWorld
     (with_risk_alerts (self w)
        (risk_alerts (self w) ++ stamp (clock w) (ticks w) (limit_findings (self w) d)))
     (store w) (clock w) (ticks w + length (limit_findings (self w) d))
     (logged w ++ var_warnings (self w))).
Proof.
  intros Hp. unfold check_limits.
  unfold mbind at 1, M_bind at 1. rewrite (check_single_name_run p d w Hp).
  unfold mbind at 1, M_bind at 1.
  rewrite (check_exposure_run p d (advance w _) Hp).
  unfold mbind at 1, M_bind at 1. rewrite check_var_run.
  unfold mbind at 1, M_bind at 1. rewrite check_correlation_run.
  run_monad. unfold advance. cbn [self store clock ticks logged].
  unfold limit_findings. rewrite !stamp_app, !length_app.
  apply f_equal2; [reflexivity | f_equal; lia].
Qed.

Lemma limit_findings_alert_log (e : RiskEngine) (log : list RiskAlert) (d : Dict) :
  limit_findings (with_risk_alerts e log) d = limit_findings e d ∧
  var_warnings (with_risk_alerts e log) = var_warnings e.
Proof.
  assert (Hvar : var_outcome (with_risk_alerts e log) = var_outcome e).
  { unfold var_outcome, calculate_var. run_monad.
    cbn [with_risk_alerts portfolio_history var_confidence].
    destruct (length (portfolio_history e) <? 30)%nat; [reflexivity |].
    destruct (length _ <? 10)%nat; [reflexivity |].
    destruct (np_percentile _ _); reflexivity. }
  unfold limit_findings, var_findings, var_warnings. rewrite Hvar.
  split; reflexivity.
Qed.

(** C8: two calls of [check_limits] in succession on the same portfolio
    find the same breaches: the two alert lists have the same length and
    agree, alert by alert and in order, in every field but the timestamp,
    which is the reading of the clock when the alert is created.  The two
    lists are equal exactly when every alert of the second call is created
    at the same reading as its counterpart of the first call: always when
    the clock does not advance or when no alert is raised, never when an
    alert is raised and the clock advances strictly from reading to
    reading.  The first call changes nothing of the engine but its alert
    log, which receives the alerts of both calls, and nothing of the
    store. *)
Theorem check_limits_repeatable (p : Portfolio) (w : World) (d : Dict) :
  store w !! positions p = Some d →
  ∃ a1 w1 a2 w2,
    check_limits p w = (Ok a1, w1) ∧
    check_limits p w1 = (Ok a2, w2) ∧
    store w1 = store w ∧
    portfolio_history (self w1) = portfolio_history (self w) ∧
    correlation_matrix (self w1) = correlation_matrix (self w) ∧
    risk_alerts (self w2) = risk_alerts (self w) ++ a1 ++ a2 ∧
    length a1 = length a2 ∧
    map untimed a1 = map untimed a2 ∧
    a1 = stamp (clock w) (ticks w) (map untimed a1) ∧
    a2 = stamp (clock w) (ticks w + length a1) (map untimed a1) ∧
    ((∀ i j, clock w i = clock w j) → a1 = a2) ∧
    (a1 = a2 ↔
     ∀ k, (k < length a1)%nat →
          clock w (ticks w + k)%nat = clock w (ticks w + length a1 + k)%nat) ∧
    (a1 = [] → a2 = []) ∧
    (a1 ≠ [] → (∀ i j, (i < j)%nat → (clock w i < clock w j)%Z) → a1 ≠ a2).
Proof.
  intros Hp.
  pose proof (check_limits_run p d w Hp) as H1.
  set (F := limit_findings (self w) d) in *.
  set (w1 := mkWorld _ _ _ _ _) in H1.
  assert (Hp1 : store w1 !! positions p = Some d) by exact Hp.
  pose proof (check_limits_run p d w1 Hp1) as H2.
  cbn [w1 self store clock ticks logged] in H2.
  rewrite (proj1 (limit_findings_alert_log _ _ _)) in H2. fold F in H2.
  assert (Huntimed : map untimed F = F).
  { clear. unfold F, limit_findings, single_name_findings.
    rewrite !map_app. f_equal; [| f_equal; [f_equal |]; [| | f_equal]].
    - induction d as [| kv d IH]; [reflexivity |]. cbn [flat_map].
      rewrite map_app, IH. f_equal. unfold single_name_finding.
      destruct (fgtb _ _); reflexivity.
    - unfold gross_findings. destruct (fgtb _ _); reflexivity.
    - unfold net_findings. destruct (fgtb _ _); reflexivity.
    - unfold var_findings. destruct (var_outcome _); [destruct (fgtb _ _) |]; reflexivity.
    - unfold correlation_findings. destruct (negb _); [destruct (fgtb _ _) |]; reflexivity. }
  eexists _, _, _, _. split; [exact H1 |]. split; [exact H2 |].
  cbn [w1 self store with_risk_alerts portfolio_history correlation_matrix risk_alerts].
  rewrite !stamp_length, !untimed_stamp, Huntimed.
  assert (Hiff : stamp (clock w) (ticks w) F = stamp (clock w) (ticks w + length F) F ↔
                 ∀ k, (k < length F)%nat →
                      clock w (ticks w + k)%nat = clock w (ticks w + length F + k)%nat)
    by apply stamp_eq_iff.
  do 3 (split; [reflexivity |]).
  split; [rewrite <- app_assoc; reflexivity |].
  do 4 (split; [reflexivity |]).
  split; [intros Hclk; apply stamp_constant_clock, Hclk |].
  split; [exact Hiff |].
  split.
  - intros Hnil. apply (f_equal (@length _)) in Hnil.
    rewrite stamp_length in Hnil. destruct F; [reflexivity | discriminate Hnil].
  - intros Hne Hclk Heq. pose proof (proj1 Hiff Heq) as Hsame.
    destruct F as [| x F']; [apply Hne; reflexivity |].
    specialize (Hsame 0%nat ltac:(cbn; lia)).
    specialize (Hclk (ticks w + 0)%nat (ticks w + length (x :: F') + 0)%nat
                  ltac:(cbn; lia)).
    lia.
Qed.

Lemma check_limits_repeatable_witness :
  ∃ a1 a2,
    fst (check_limits (snap 1) (world_of default_engine [] one_breach)) = Ok a1 ∧
    fst (check_limits (snap 1) after_first_check) = Ok a2 ∧
    map untimed a1 = map untimed a2.
Proof.
  destruct (check_limits_repeatable (snap 1) (world_of default_engine [] one_breach)
              [("AAPL"%string, 0.05)] eq_refl)
    as (a1 & w1 & a2 & w2 & H1 & H2 & _ & _ & _ & _ & _ & Hsame & _).
  exists a1, a2. unfold after_first_check. rewrite H1. cbn [fst snd]. rewrite H2.
  repeat split. exact Hsame.
Defined.

(** With one position above the single-name limit and a clock that
    advances, two calls in succession return alerts that differ in their
    timestamp, the store, the history and the correlation matrix being as
    they were. *)
Lemma check_limits_timestamps_differ :
  store after_first_check = store (world_of default_engine [] one_breach) ∧
  portfolio_history (self after_first_check) =
    portfolio_history (self (world_of default_engine [] one_breach)) ∧
  correlation_matrix (self after_first_check) =
    correlation_matrix (self (world_of default_engine [] one_breach)) ∧
  fst (check_limits (snap 1) (world_of default_engine [] one_breach)) =
    Ok [aapl_alert 0] ∧
  fst (check_limits (snap 1) after_first_check) = Ok [aapl_alert 1] ∧
  fst (check_limits (snap 1) (world_of default_engine [] one_breach)) ≠
    fst (check_limits (snap 1) after_first_check).
Proof.
  assert (H1 : fst (check_limits (snap 1) (world_of default_engine [] one_breach)) =
               Ok [aapl_alert 0]) by (vm_compute; reflexivity).
  assert (H2 : fst (check_limits (snap 1) after_first_check) = Ok [aapl_alert 1])
    by (vm_compute; reflexivity).
  repeat split; try assumption; try (vm_compute; reflexivity).
  rewrite H1, H2. discriminate.
Qed.

(** * Further properties *)

(** ** The circuit-breaker response *)

Lemma adjusted_factor (lvl : CircuitBreakerLevel) (d : Dict) :
  dict_wf d →
  adjusted lvl d =
  match response_factor lvl d with
  | Some f => scaled f d
  | None => d
  end.
Proof.
  intros Hwf. destruct lvl; cbn [adjusted response_factor];
    try (apply scale_loop_scaled, Hwf); [reflexivity |].
  destruct (Qgtb (gross_exposure_of d) 0); [apply scale_loop_scaled, Hwf | reflexivity].
Qed.

Lemma response_factor_pos (lvl : CircuitBreakerLevel) (d : Dict) (f : Q) :
  response_factor lvl d = Some f → 0 < f.
Proof.
  destruct lvl; cbn [response_factor]; try discriminate.
  - intros [= <-]. reflexivity.
  - destruct (Qgtb (gross_exposure_of d) 0) eqn:E; [| discriminate].
    intros [= <-]. apply Qgtb_true in E. apply Qlt_shift_div_l; lra.
  - intros [= <-]. reflexivity.
Qed.

Lemma dict_get_scaled (f : Q) (d : Dict) (k : string) :
  dict_get (scaled f d) k = option_map (fun v => v * f) (dict_get d k).
Proof.
  induction d as [| [k' v'] d IH]; [reflexivity |].
  cbn. destruct (String.eqb k' k); [reflexivity | exact IH].
Qed.

Lemma net_exposure_scaled (f : Q) (d : Dict) :
  net_exposure_of (scaled f d) == f * net_exposure_of d.
Proof.
  unfold net_exposure_of, dict_values, scaled.
  induction d as [| [k v] d IH]; [cbn; ring |].
  cbn [map snd fst]. rewrite !sum_Q_cons, IH. ring.
Qed.

Lemma scaled_wf (f : Q) (d : Dict) : dict_wf d → dict_wf (scaled f d).
Proof.
  unfold dict_wf, scaled, dict_keys. rewrite map_map. cbn [fst]. auto.
Qed.

(** X1: the LEVEL_1 and LEVEL_3 responses multiply every weight by 0.5 and
    by 0.25: each symbol keeps its place and gets its weight times the
    factor, and gross and net exposure are the input's times the factor. *)
Theorem fixed_factor_levels (p : Portfolio) (w : World) (d : Dict)
    (lvl : CircuitBreakerLevel) (f : Q) :
  store w !! positions p = Some d →
  dict_wf d →
  (lvl = LEVEL_1 ∧ f = 0.5) ∨ (lvl = LEVEL_3 ∧ f = 0.25) →
  ∃ r w' d',
    apply_circuit_breaker p lvl w = (Ok r, w') ∧
    store w' !! r = Some d' ∧
    d' = scaled f d ∧
    (∀ k v, dict_get d k = Some v → dict_get d' k = Some (v * f)) ∧
    gross_exposure_of d' == f * gross_exposure_of d ∧
    net_exposure_of d' == f * net_exposure_of d.
Proof.
  intros Hp Hwf Hlvl.
  exists (length (store w)). eexists. exists (adjusted lvl d).
  split; [apply apply_circuit_breaker_run, Hp |].
  split; [apply list_lookup_middle; reflexivity |].
  assert (Hadj : adjusted lvl d = scaled f d ∧ 0 <= f).
  { rewrite adjusted_factor by exact Hwf.
    destruct Hlvl as [[-> ->] | [-> ->]]; split; (reflexivity || discriminate). }
  destruct Hadj as [-> Hf].
  split; [reflexivity |]. split; [| split].
  - intros k v Hk. rewrite dict_get_scaled, Hk. reflexivity.
  - apply gross_exposure_scaled, Hf.
  - apply net_exposure_scaled.
Qed.

Lemma fixed_factor_levels_witness :
  ∃ r w',
    apply_circuit_breaker (snap 1) LEVEL_1 (world_of default_engine [] two_positions) =
      (Ok r, w') ∧
    store w' !! r = Some [("AAPL"%string, 0.1 * 0.5); ("MSFT"%string, -0.3 * 0.5)].
Proof.
  destruct (fixed_factor_levels (snap 1) (world_of default_engine [] two_positions)
              [("AAPL"%string, 0.1); ("MSFT"%string, -0.3)] LEVEL_1 0.5)
    as (r & w' & d' & Hrun & Hd' & Hscaled & _).
  - reflexivity.
  - apply (bool_decide_unpack _). vm_compute. reflexivity.
  - left. split; reflexivity.
  - exists r, w'. split; [exact Hrun |]. rewrite Hd', Hscaled. reflexivity.
Defined.

(** X2: no level turns a long position into a short one or the reverse,
    and a position of weight zero stays at zero.  LEVEL_1 and LEVEL_3 never
    enlarge a position, and neither does LEVEL_2 on a book of at least 25 %
    gross; on a book of less than 25 % gross LEVEL_2 enlarges every
    position that is not zero. *)
Theorem response_keeps_direction (p : Portfolio) (w : World) (d : Dict)
    (lvl : CircuitBreakerLevel) :
  store w !! positions p = Some d →
  dict_wf d →
  ∃ r w' d',
    apply_circuit_breaker p lvl w = (Ok r, w') ∧
    store w' !! r = Some d' ∧
    ∀ k v, dict_get d k = Some v →
      ∃ v', dict_get d' k = Some v' ∧
            (0 < v → 0 < v') ∧ (v < 0 → v' < 0) ∧ (v == 0 → v' == 0) ∧
            (lvl ≠ LEVEL_2 ∨ 0.25 <= gross_exposure_of d → Qabs v' <= Qabs v) ∧
            (lvl = LEVEL_2 → 0 < gross_exposure_of d → gross_exposure_of d < 0.25 →
             ¬ v == 0 → Qabs v < Qabs v').
Proof.
  intros Hp Hwf.
  exists (length (store w)). eexists. exists (adjusted lvl d).
  split; [apply apply_circuit_breaker_run, Hp |].
  split; [apply list_lookup_middle; reflexivity |].
  intros k v Hk. rewrite adjusted_factor by exact Hwf.
  destruct (response_factor lvl d) as [f |] eqn:Hf.
  - pose proof (response_factor_pos lvl d f Hf) as Hpos.
    exists (v * f). rewrite dict_get_scaled, Hk. split; [reflexivity |].
    assert (Habs : Qabs (v * f) == Qabs v * f)
      by (rewrite Qabs_Qmult, (Qabs_pos f) by lra; reflexivity).
    pose proof (Qabs_nonneg v) as Hnn.
    split; [intros; nra |]. split; [intros; nra |]. split; [intros ->; ring |].
    split.
    + intros Hcase. rewrite Habs.
      assert (Hle : f <= 1).
      { destruct lvl; cbn [response_factor] in Hf; try discriminate.
        - injection Hf as <-. discriminate.
        - destruct (Qgtb (gross_exposure_of d) 0) eqn:E; [| discriminate].
          injection Hf as <-. apply Qgtb_true in E.
          destruct Hcase as [Hne | Hge]; [congruence |].
          apply Qle_shift_div_r; lra.
        - injection Hf as <-. discriminate. }
      nra.
    + intros -> Hg0 Hg Hv. rewrite Habs. cbn [response_factor] in Hf.
      rewrite (proj2 (Qgtb_true _ _) Hg0) in Hf. injection Hf as <-.
      assert (Hgt : 1 < 0.25 / gross_exposure_of d) by (apply Qlt_shift_div_l; lra).
      assert (Hvpos : 0 < Qabs v).
      { destruct (Qlt_le_dec 0 (Qabs v)) as [H | H]; [exact H |].
        exfalso. apply Hv. apply Qabs_Qle_condition in H. lra. }
      nra.
  - exists v. split; [exact Hk |].
    split; [tauto |]. split; [tauto |]. split; [tauto |].
    split; [intros; apply Qle_refl |].
    intros -> Hg0 _ _. cbn [response_factor] in Hf.
    rewrite (proj2 (Qgtb_true _ _) Hg0) in Hf. discriminate.
Qed.

Lemma response_keeps_direction_witness :
  ∃ r w' v',
    apply_circuit_breaker (snap 1) LEVEL_2 (world_of default_engine [] small_book) =
      (Ok r, w') ∧
    (∃ d', store w' !! r = Some d' ∧ dict_get d' "MSFT" = Some v') ∧
    v' < 0 ∧ Qabs (-0.04) < Qabs v'.
Proof.
  destruct (response_keeps_direction (snap 1) (world_of default_engine [] small_book)
              [("AAPL"%string, 0.06); ("MSFT"%string, -0.04)] LEVEL_2)
    as (r & w' & d' & Hrun & Hd' & Hall).
  - reflexivity.
  - apply (bool_decide_unpack _). vm_compute. reflexivity.
  - destruct (Hall "MSFT"%string (-0.04) eq_refl) as (v' & Hv' & _ & Hneg & _ & _ & Hup).
    exists r, w', v'. split; [exact Hrun |]. split; [eauto |].
    split; [apply Hneg; reflexivity |].
    apply Hup; try reflexivity. discriminate.
Defined.

Lemma same_weights_scaled_twice (f g h : Q) (d : Dict) :
  f * g == h → same_weights (scaled g (scaled f d)) (scaled h d).
Proof.
  intros Hfg. unfold same_weights, scaled.
  induction d as [| [k v] d IH]; cbn; constructor; [| exact IH].
  cbn. split; [reflexivity |]. rewrite <- Hfg. ring.
Qed.

(** X3: the responses compose.  Applying LEVEL_1 to the positions that
    LEVEL_1 returned gives the weights that LEVEL_3 gives on the input:
    halving twice is a cut to a quarter. *)
Theorem level1_twice_is_level3 (p : Portfolio) (w : World) (d : Dict) :
  store w !! positions p = Some d →
  dict_wf d →
  ∃ r1 w1 r2 w2 d2 r3 w3 d3,
    apply_circuit_breaker p LEVEL_1 w = (Ok r1, w1) ∧
    apply_circuit_breaker (with_positions p r1) LEVEL_1 w1 = (Ok r2, w2) ∧
    store w2 !! r2 = Some d2 ∧
    apply_circuit_breaker p LEVEL_3 w = (Ok r3, w3) ∧
    store w3 !! r3 = Some d3 ∧
    same_weights d2 d3.
Proof.
  intros Hp Hwf.
  pose proof (apply_circuit_breaker_run p LEVEL_1 d w Hp) as H1.
  rewrite adjusted_factor in H1 by exact Hwf. cbn [response_factor] in H1.
  set (w1 := mkWorld _ _ _ _ _) in H1.
  assert (Hp1 : store w1 !! positions (with_positions p (length (store w))) =
                Some (scaled 0.5 d)) by (apply list_lookup_middle; reflexivity).
  pose proof (apply_circuit_breaker_run _ LEVEL_1 _ w1 Hp1) as H2.
  rewrite adjusted_factor in H2 by (apply scaled_wf, Hwf). cbn [response_factor] in H2.
  pose proof (apply_circuit_breaker_run p LEVEL_3 d w Hp) as H3.
  rewrite adjusted_factor in H3 by exact Hwf. cbn [response_factor] in H3.
  eexists _, _, _, _, _, _, _, _.
  split; [exact H1 |]. split; [exact H2 |].
  split; [apply list_lookup_middle; reflexivity |].
  split; [exact H3 |].
  split; [apply list_lookup_middle; reflexivity |].
  apply same_weights_scaled_twice. reflexivity.
Qed.

Lemma level1_twice_is_level3_witness :
  ∃ r1 w1 r2 w2 d2 r3 w3 d3,
    apply_circuit_breaker (snap 1) LEVEL_1 (world_of default_engine [] two_positions) =
      (Ok r1, w1) ∧
    apply_circuit_breaker (with_positions (snap 1) r1) LEVEL_1 w1 = (Ok r2, w2) ∧
    store w2 !! r2 = Some d2 ∧
    apply_circuit_breaker (snap 1) LEVEL_3 (world_of default_engine [] two_positions) =
      (Ok r3, w3) ∧
    store w3 !! r3 = Some d3 ∧
    same_weights d2 d3.
Proof.
  apply (level1_twice_is_level3 (snap 1) (world_of default_engine [] two_positions)
           [("AAPL"%string, 0.1); ("MSFT"%string, -0.3)]).
  - reflexivity.
  - apply (bool_decide_unpack _). vm_compute. reflexivity.
Defined.

(** ** The limit checks *)

Lemma fltb_Fin_false_iff (a b : Q) : b <= a → fltb (Fin a) (Fin b) = false.
Proof.
  intros H. apply not_true_iff_false. rewrite fltb_Fin. apply Qle_not_lt, H.
Qed.

Lemma fgtb_Fin (a b : Q) : fgtb (Fin a) (Fin b) = Qgtb a b.
Proof.
  unfold fgtb, Qgtb. destruct (Qle_bool a b) eqn:E.
  - cbn. apply fltb_Fin_false_iff. apply Qle_bool_iff, E.
  - apply fltb_Fin. apply Qnot_le_lt. intros H. apply Qle_bool_iff in H. congruence.
Qed.

Lemma stamp_map_untimed {B : Type} (f : RiskAlert → B) (clk : nat → Z) (t : nat)
    (l : list RiskAlert) :
  (∀ a z, f (stamped a z) = f a) → map f (stamp clk t l) = map f l.
Proof.
  intros Hf. revert t. induction l as [| a l IH]; intros t; cbn; [reflexivity |].
  rewrite Hf, IH. reflexivity.
Qed.

Lemma stamp_Forall (P : RiskAlert → Prop) (clk : nat → Z) (t : nat) (l : list RiskAlert) :
  (∀ a z, P a → P (stamped a z)) → Forall P l → Forall P (stamp clk t l).
Proof.
  intros HP Hl. revert t. induction Hl as [| a l Ha Hl IH]; intros t; cbn; constructor; auto.
Qed.

Lemma stamp_nil_iff (clk : nat → Z) (t : nat) (l : list RiskAlert) :
  stamp clk t l = [] ↔ l = [].
Proof. destruct l; cbn; split; congruence. Qed.

Lemma single_name_findings_breaching (e : RiskEngine) (limit : Q) (d : Dict) :
  single_name (position_limits e) = Fin limit →
  single_name_findings e d = map (single_name_alert limit) (breaching limit d).
Proof.
  intros HL. unfold single_name_findings, breaching.
  induction d as [| [k v] d IH]; [reflexivity |].
  cbn [flat_map List.filter]. rewrite IH. unfold single_name_finding at 1.
  rewrite HL. cbn [fst snd fmul]. rewrite !fgtb_Fin.
  destruct (Qgtb (Qabs v) limit); reflexivity.
Qed.

Lemma breaching_nil_iff (limit : Q) (d : Dict) :
  breaching limit d = [] ↔ ∀ k v, In (k, v) d → Qabs v <= limit.
Proof.
  unfold breaching. induction d as [| [k v] d IH]; cbn.
  - split; [intros _ ? ? [] | reflexivity].
  - destruct (Qgtb (Qabs v) limit) eqn:E.
    + split; [discriminate |]. intros H. exfalso.
      apply Qgtb_true in E. specialize (H k v (or_introl eq_refl)). lra.
    + apply Qgtb_false in E. rewrite IH. split.
      * intros H k' v' [[= <- <-] | Hin]; [exact E | eauto].
      * intros H k' v' Hin. eauto.
Qed.

(** X5: the single-name check raises one alert for each position whose
    absolute weight is above the limit, in the order of the positions, and
    none for the others: it raises no alert exactly when every absolute
    weight is at most the limit.  Each alert carries the absolute weight and
    the limit, asks for action, and is RED when the absolute weight is above
    1.2 times the limit and ORANGE otherwise.  The engine and the store are
    untouched. *)
Theorem single_name_alerts_exact (p : Portfolio) (w : World) (d : Dict) (limit : Q) :
  store w !! positions p = Some d →
  single_name (position_limits (self w)) = Fin limit →
  ∃ alerts w',
    _check_single_name_limits p w = (Ok alerts, w') ∧
    self w' = self w ∧ store w' = store w ∧
    map untimed alerts = map (single_name_alert limit) (breaching limit d) ∧
    (alerts = [] ↔ ∀ k v, In (k, v) d → Qabs v <= limit) ∧
    Forall (fun a =>
              action_required a = true ∧ limit_value a = Fin limit ∧
              ∃ x, current_value a = Fin x ∧ limit < x ∧
                   (level a = RED ↔ limit * 1.2 < x) ∧
                   (level a = ORANGE ↔ x <= limit * 1.2)) alerts.
Proof.
  intros Hp HL. eexists _, _.
  split; [apply (check_single_name_run p d w Hp) |].
  split; [reflexivity |]. split; [reflexivity |].
  rewrite (single_name_findings_breaching _ limit d HL).
  split; [| split].
  - rewrite untimed_stamp, map_map. apply map_ext. reflexivity.
  - rewrite stamp_nil_iff, <- breaching_nil_iff.
    destruct (breaching limit d); cbn; split; congruence.
  - apply stamp_Forall; [intros a z H; exact H |].
    apply Forall_forall. intros a Ha.
    apply list_elem_of_In, in_map_iff in Ha. destruct Ha as ([k v] & <- & Hin).
    apply filter_In in Hin. destruct Hin as [_ Hgt]. cbn [snd] in Hgt.
    apply Qgtb_true in Hgt.
    cbn [single_name_alert action_required limit_value current_value level fst snd].
    split; [reflexivity |]. split; [reflexivity |].
    exists (Qabs v). split; [reflexivity |]. split; [exact Hgt |].
    destruct (Qgtb (Qabs v) (limit * 1.2)) eqn:E.
    + apply Qgtb_true in E. split; split; try tauto; try discriminate. intros; lra.
    + apply Qgtb_false in E. split; split; try tauto; try discriminate. intros; lra.
Qed.

Lemma single_name_alerts_exact_witness :
  ∃ alerts w',
    _check_single_name_limits (snap 1) (world_of default_engine [] mixed_book) =
      (Ok alerts, w') ∧
    map level alerts = [RED; ORANGE] ∧
    map current_value alerts = [Fin 0.037; Fin 0.031].
Proof.
  destruct (single_name_alerts_exact (snap 1) (world_of default_engine [] mixed_book)
              [("AAPL"%string, 0.037); ("MSFT"%string, -0.031); ("IBM"%string, 0.02)] 0.03
              eq_refl eq_refl)
    as (alerts & w' & Hrun & _ & _ & Hmap & _).
  exists alerts, w'. split; [exact Hrun |].
  assert (Hl : map level alerts = map level (map untimed alerts))
    by (rewrite map_map; reflexivity).
  assert (Hc : map current_value alerts = map current_value (map untimed alerts))
    by (rewrite map_map; reflexivity).
  rewrite Hl, Hc, Hmap. split; reflexivity.
Defined.

(** X6: the exposure check raises at most two alerts, the gross one
    first.  It raises a gross alert exactly when [Σ|weight|] is above the
    gross limit: the alert asks for action and is RED when the exposure is
    above 1.1 times the limit, ORANGE otherwise.  It raises a net alert
    exactly when [|Σ weight|] is above the net limit: that alert is ORANGE
    and asks for no action. *)
Theorem exposure_alerts_exact (p : Portfolio) (w : World) (d : Dict) (G N : Q) :
  store w !! positions p = Some d →
  gross (position_limits (self w)) = Fin G →
  net (position_limits (self w)) = Fin N →
  ∃ alerts w',
    _check_exposure_limits p w = (Ok alerts, w') ∧
    self w' = self w ∧ store w' = store w ∧
    map untimed alerts =
      (if Qgtb (gross_exposure_of d) G
       then [mkRiskAlert (if Qgtb (gross_exposure_of d) (G * 1.1) then RED else ORANGE)
               [Lit "Gross exposure limit exceeded"] "gross_exposure"
               (Fin (gross_exposure_of d)) (Fin G) 0 true]
       else []) ++
      (if Qgtb (Qabs (net_exposure_of d)) N
       then [mkRiskAlert ORANGE [Lit "Net exposure limit exceeded"] "net_exposure"
               (Fin (Qabs (net_exposure_of d))) (Fin N) 0 false]
       else []) ∧
    (alerts_of "gross_exposure" alerts ≠ [] ↔ G < gross_exposure_of d) ∧
    (alerts_of "net_exposure" alerts ≠ [] ↔ N < Qabs (net_exposure_of d)) ∧
    (length alerts ≤ 2)%nat.
Proof.
  intros Hp HG HN. eexists _, _.
  split; [apply (check_exposure_run p d w Hp) |].
  split; [reflexivity |]. split; [reflexivity |].
  unfold gross_findings, net_findings. rewrite HG, HN. cbn [fmul].
  rewrite !fgtb_Fin.
  change (sum_Q (map Qabs (dict_values d))) with (gross_exposure_of d).
  change (sum_Q (dict_values d)) with (net_exposure_of d).
  rewrite <- !Qgtb_true.
  destruct (Qgtb (gross_exposure_of d) G), (Qgtb (Qabs (net_exposure_of d)) N);
    cbn; repeat split; try congruence; try lia; try discriminate.
Qed.

Lemma exposure_alerts_exact_witness :
  ∃ alerts w',
    _check_exposure_limits (snap 1) (world_of default_engine [] leveraged_book) =
      (Ok alerts, w') ∧
    map level alerts = [ORANGE; ORANGE] ∧
    map action_required alerts = [true; false].
Proof.
  destruct (exposure_alerts_exact (snap 1) (world_of default_engine [] leveraged_book)
              [("SPY"%string, 0.8); ("QQQ"%string, 0.8)] 1.50 0.50 eq_refl eq_refl eq_refl)
    as (alerts & w' & Hrun & _ & _ & Hmap & _).
  exists alerts, w'. split; [exact Hrun |].
  assert (Hl : map level alerts = map level (map untimed alerts))
    by (rewrite map_map; reflexivity).
  assert (Ha : map action_required alerts = map action_required (map untimed alerts))
    by (rewrite map_map; reflexivity).
  rewrite Hl, Ha, Hmap. split; reflexivity.
Defined.

(** *** Failures of the value-at-risk estimate *)

Lemma percentile_rank_of_confidence (conf : fnum) :
  (∃ t, fdiv (fmul (fsub (Fin 1) conf) (Fin 100)) (Fin 100) = Fin t ∧
        Qle_bool 0 t && Qle_bool t 1 = true) ↔
  (∃ c, conf = Fin c ∧ 0 <= c ∧ c <= 1).
Proof.
  split.
  - intros (t & Ht & Hb). destruct conf as [c | | |]; try discriminate.
    exists c. split; [reflexivity |].
    cbn in Ht. injection Ht as <-.
    apply andb_prop in Hb. destruct Hb as [H0 H1].
    apply Qle_bool_iff in H0, H1.
    assert (Heq : (1 + - c) * 100 / 100 == 1 - c) by field.
    rewrite Heq in H0, H1. split; lra.
  - intros (c & -> & H0 & H1).
    destruct (percentile_rank_valid c H0 H1) as (t & Ht & Hb & _). eauto.
Qed.

Lemma np_percentile_raises_iff (a : Series) (conf : fnum) :
  (∃ e, np_percentile a (fmul (fsub (Fin 1) conf) (Fin 100)) = Raise e) ↔
  ¬ (∃ c, conf = Fin c ∧ 0 <= c ∧ c <= 1).
Proof.
  rewrite <- percentile_rank_of_confidence. unfold np_percentile.
  destruct (fdiv _ _) as [t | | |].
  - destruct (Qle_bool 0 t && Qle_bool t 1) eqn:E.
    + split; [intros (e & He); discriminate | intros H; exfalso; apply H; eauto].
    + split; [intros _ (t' & [= <-] & Hb); congruence | eauto].
  - split; [intros _ (t' & Ht & _); discriminate | eauto].
  - split; [intros _ (t' & Ht & _); discriminate | eauto].
  - split; [intros _ (t' & Ht & _); discriminate | eauto].
Qed.

Lemma np_percentile_error (a : Series) (q : fnum) (e : exn) :
  np_percentile a q = Raise e → e = ValueError "Percentiles must be in the range [0, 100]".
Proof.
  unfold np_percentile. destruct (fdiv _ _) as [t | | |]; try congruence.
  destruct (Qle_bool 0 t && Qle_bool t 1); congruence.
Qed.

(** X7: [calculate_var] raises exactly when it gets as far as the
    percentile, with 30 snapshots or more and 10 valid returns or more, and
    the configured confidence is not a number of [[0, 1]].  What it raises
    is numpy's [ValueError], and the world is as before. *)
Theorem calculate_var_raises_iff (p : Portfolio) (w : World) :
  ((∃ e w', calculate_var p w = (Raise e, w')) ↔
   ((30 ≤ length (portfolio_history (self w)))%nat ∧
    (10 ≤ length (var_returns (self w)))%nat ∧
    ¬ confidence_valid (self w))) ∧
  (∀ e w', calculate_var p w = (Raise e, w') →
           e = ValueError "Percentiles must be in the range [0, 100]" ∧ w' = w).
Proof.
  rewrite calculate_var_run. unfold var_outcome, calculate_var, var_returns, confidence_valid.
  run_monad.
  destruct (length (portfolio_history (self w)) <? 30)%nat eqn:E30.
  { apply Nat.ltb_lt in E30. split; [| intros e w' H; discriminate].
    split; [intros (e & w' & H); discriminate | intros (H & _); lia]. }
  apply Nat.ltb_ge in E30.
  destruct (length (dropna _) <? 10)%nat eqn:E10.
  { apply Nat.ltb_lt in E10. split; [| intros e w' H; discriminate].
    split; [intros (e & w' & H); discriminate | intros (_ & H & _); lia]. }
  apply Nat.ltb_ge in E10.
  destruct (np_percentile _ _) as [v | e] eqn:Hperc.
  - split; [| intros e w' H; discriminate].
    split; [intros (e & w' & H); discriminate |].
    intros (_ & _ & Hbad). exfalso.
    match type of Hperc with
    | np_percentile ?a _ = _ =>
        destruct (proj2 (np_percentile_raises_iff a _) Hbad) as (e & He)
    end.
    rewrite He in Hperc. discriminate.
  - split.
    + split; [| intros _; eauto].
      intros _. split; [exact E30 |]. split; [exact E10 |].
      eapply (proj1 (np_percentile_raises_iff _ _)). eauto.
    + intros e' w' [= <- <-]. split; [| reflexivity].
      eapply np_percentile_error, Hperc.
Qed.

Lemma calculate_var_raises_iff_witness :
  ∃ e w',
    calculate_var (snap 0)
      (world_of (match RiskEngine_init (Some {[ "var_confidence"%string := Fin 95 ]}) with
                 | Ok e => e
                 | Raise _ => blank_engine
                 end) falling_history []) = (Raise e, w').
Proof.
  apply calculate_var_raises_iff. split; [cbn; lia |]. split; [vm_compute; lia |].
  intros (c & Hc & _ & H1). vm_compute in Hc. injection Hc as <-.
  revert H1. apply Qlt_not_le. reflexivity.
Defined.

(** X8: the VaR check never lets a failure of [calculate_var] through.
    When the estimate raises, the check returns no alert and hands one
    warning with the exception to the logger; when the estimate is a value
    [v], nothing is logged and there is an alert exactly when [v > 0.02].
    [check_limits] as a whole returns its alerts in both cases. *)
Theorem var_check_swallows_failure (p : Portfolio) (w : World) :
  ∃ alerts w',
    _check_var_limits p w = (Ok alerts, w') ∧
    self w' = self w ∧ store w' = store w ∧
    (∀ e w0, calculate_var p w = (Raise e, w0) →
       alerts = [] ∧ ticks w' = ticks w ∧
       logged w' = logged w ++ [(WARNING, [Lit "VaR calculation failed: "; Exc e])]) ∧
    (∀ v w0, calculate_var p w = (Ok v, w0) →
       logged w' = logged w ∧
       (alerts ≠ [] ↔ fgtb v (Fin 0.02) = true) ∧
       Forall (fun a => current_value a = v ∧ limit_value a = Fin 0.02 ∧
                        action_required a = true) alerts) ∧
    (∀ d, store w !! positions p = Some d →
          ∃ all_alerts w'', check_limits p w = (Ok all_alerts, w'')).
Proof.
  eexists _, _. split; [apply check_var_run |].
  split; [reflexivity |]. split; [reflexivity |].
  cbn [ticks logged]. rewrite calculate_var_run.
  unfold var_findings, var_warnings.
  split; [| split].
  - intros e w0 [= He <-]. rewrite He. cbn. split; [reflexivity |].
    split; [lia | reflexivity].
  - intros v w0 [= Hv <-]. rewrite Hv. split; [apply app_nil_r |].
    destruct (fgtb v (Fin 0.02)); cbn.
    + split; [split; [reflexivity | discriminate] |].
      constructor; [| constructor]. repeat split.
    + split; [split; [congruence | discriminate] | constructor].
  - intros d Hp. eexists _, _. apply (check_limits_run p d w Hp).
Qed.

Lemma var_check_swallows_failure_witness :
  ∃ w',
    _check_var_limits (snap 0) (world_of percent_engine falling_history []) = (Ok [], w') ∧
    logged w' =
      [(WARNING, [Lit "VaR calculation failed: ";
                  Exc (ValueError "Percentiles must be in the range [0, 100]")])].
Proof.
  destruct (var_check_swallows_failure (snap 0) (world_of percent_engine falling_history []))
    as (alerts & w' & Hrun & _ & _ & Hraise & _).
  destruct (Hraise (ValueError "Percentiles must be in the range [0, 100]")
              (world_of percent_engine falling_history []))
    as (-> & _ & Hlog); [vm_compute; reflexivity |].
  exists w'. split; [exact Hrun | exact Hlog].
Defined.

(** X9: [check_limits] returns with alerts whenever the positions are
    there, raises nothing, and only appends: the alert log afterwards is the
    log before followed by the alerts returned, and no other field of the
    engine and no dict changes.  There are at most as many alerts as
    positions plus four, and the clock is read once for each of them. *)
Theorem check_limits_appends (p : Portfolio) (w : World) (d : Dict) :
  store w !! positions p = Some d →
  ∃ alerts w',
    check_limits p w = (Ok alerts, w') ∧
    risk_alerts (self w') = risk_alerts (self w) ++ alerts ∧
    self w' = with_risk_alerts (self w) (risk_alerts (self w')) ∧
    store w' = store w ∧
    (length alerts ≤ length d + 4)%nat ∧
    ticks w' = (ticks w + length alerts)%nat ∧
    alerts = stamp (clock w) (ticks w) (map untimed alerts).
Proof.
  intros Hp. eexists _, _. split; [apply (check_limits_run p d w Hp) |].
  cbn [self store ticks with_risk_alerts risk_alerts].
  split; [reflexivity |]. split; [reflexivity |]. split; [reflexivity |].
  rewrite stamp_length.
  assert (Huntimed : map untimed (limit_findings (self w) d) = limit_findings (self w) d).
  { unfold limit_findings, single_name_findings.
    rewrite !map_app. f_equal; [| f_equal; [f_equal |]; [| | f_equal]].
    - clear Hp. induction d as [| kv d IH]; [reflexivity |]. cbn [flat_map].
      rewrite map_app, IH. f_equal. unfold single_name_finding.
      destruct (fgtb _ _); reflexivity.
    - unfold gross_findings. destruct (fgtb _ _); reflexivity.
    - unfold net_findings. destruct (fgtb _ _); reflexivity.
    - unfold var_findings. destruct (var_outcome _); [destruct (fgtb _ _) |]; reflexivity.
    - unfold correlation_findings. destruct (negb _); [destruct (fgtb _ _) |]; reflexivity. }
  split; [| split; [reflexivity |]].
  - unfold limit_findings. rewrite !length_app.
    assert (H1 : (length (single_name_findings (self w) d) ≤ length d)%nat).
    { unfold single_name_findings. clear. induction d as [| kv d IH]; [cbn; lia |].
      cbn [flat_map]. rewrite length_app. unfold single_name_finding at 1.
      destruct (fgtb _ _); cbn [length]; lia. }
    assert (H2 : (length (gross_findings (self w) d) ≤ 1)%nat)
      by (unfold gross_findings; destruct (fgtb _ _); cbn; lia).
    assert (H3 : (length (net_findings (self w) d) ≤ 1)%nat)
      by (unfold net_findings; destruct (fgtb _ _); cbn; lia).
    assert (H4 : (length (var_findings (self w)) ≤ 1)%nat)
      by (unfold var_findings; destruct (var_outcome _); [destruct (fgtb _ _) |]; cbn; lia).
    assert (H5 : (length (correlation_findings (self w)) ≤ 1)%nat)
      by (unfold correlation_findings; destruct (negb _); [destruct (fgtb _ _) |]; cbn; lia).
    lia.
  - rewrite untimed_stamp, Huntimed. reflexivity.
Qed.

Lemma check_limits_appends_witness :
  ∃ alerts w',
    check_limits (snap 1) (world_of default_engine [] mixed_book) = (Ok alerts, w') ∧
    risk_alerts (self w') = alerts ∧ (length alerts ≤ 7)%nat.
Proof.
  destruct (check_limits_appends (snap 1) (world_of default_engine [] mixed_book)
              [("AAPL"%string, 0.037); ("MSFT"%string, -0.031); ("IBM"%string, 0.02)] eq_refl)
    as (alerts & w' & Hrun & Hlog & _ & _ & Hlen & _).
  exists alerts, w'. split; [exact Hrun |]. split; [exact Hlog | exact Hlen].
Defined.

(** *** The correlation check *)

Lemma fltb_nanmax (t a b : fnum) :
  fltb t (nanmax a b) = fltb t a || fltb t b.
Proof.
  destruct a as [a | | |], b as [b | | |]; cbn [nanmax];
    try (destruct t; reflexivity);
    try (destruct t; cbn; rewrite ?orb_false_r, ?orb_true_r; reflexivity).
  destruct t as [t | | |]; try (destruct (fltb (Fin a) (Fin b)); reflexivity).
  apply eq_true_iff_eq. rewrite orb_true_iff.
  destruct (fltb (Fin a) (Fin b)) eqn:E.
  - apply fltb_Fin in E. rewrite !fltb_Fin. split; [tauto | intros [H | H]; lra].
  - apply not_true_iff_false in E. rewrite fltb_Fin in E.
    rewrite !fltb_Fin. split; [tauto | intros [H | H]; lra].
Qed.

Lemma fgtb_fold_nanmax (s : Series) (acc t : fnum) :
  fgtb (fold_left nanmax s acc) t = true ↔
  fgtb acc t = true ∨ ∃ x, In x s ∧ fgtb x t = true.
Proof.
  revert acc. induction s as [| y s IH]; intros acc; cbn [fold_left].
  - split; [tauto | intros [H | (x & [] & _)]; exact H].
  - rewrite IH. unfold fgtb at 1. rewrite fltb_nanmax, orb_true_iff. fold (fgtb acc t).
    fold (fgtb y t). split.
    + intros [[H | H] | (x & Hx & H)]; [tauto | right; exists y; cbn; tauto
                                        | right; exists x; cbn; tauto].
    + intros [H | (x & [<- | Hx] & H)]; [tauto | tauto | right; eauto].
Qed.

Lemma fgtb_series_max (s : Series) (t : fnum) :
  fgtb (series_max s) t = true ↔ ∃ x, In x s ∧ fgtb x t = true.
Proof.
  unfold series_max. rewrite fgtb_fold_nanmax. split; [| eauto].
  intros [H | H]; [destruct t; discriminate | exact H].
Qed.

Lemma fgtb_df_abs_max_max (df : DataFrame) (t : fnum) :
  fgtb (df_abs_max_max df) t = true ↔
  ∃ x, In x (df_entries df) ∧ fgtb (fabs x) t = true.
Proof.
  unfold df_abs_max_max, df_entries. rewrite fgtb_series_max. split.
  - intros (m & Hm & Hgt). apply in_map_iff in Hm. destruct Hm as ([c col] & <- & Hcol).
    apply fgtb_series_max in Hgt. destruct Hgt as (y & Hy & Hgt).
    apply in_map_iff in Hy. destruct Hy as (x & <- & Hx).
    exists x. split; [| exact Hgt].
    apply in_concat. exists col. split; [| exact Hx].
    apply in_map_iff. exists (c, col). split; [reflexivity | exact Hcol].
  - intros (x & Hx & Hgt). apply in_concat in Hx. destruct Hx as (col & Hcol & Hx).
    apply in_map_iff in Hcol. destruct Hcol as ([c col'] & Hsnd & Hcol).
    cbn in Hsnd. subst col'.
    exists (series_max (map fabs col)). split.
    + apply in_map_iff. exists (c, col). split; [reflexivity | exact Hcol].
    + apply fgtb_series_max. exists (fabs x). split; [apply in_map, Hx | exact Hgt].
Qed.

(** X10: the correlation check raises at most one alert, ORANGE and
    without a call for action.  It raises it exactly when the correlation
    matrix is not empty and one of its entries is above the configured
    threshold (0.3 when none is configured) in absolute value; undefined
    entries are passed over.  An engine whose matrix was never set raises
    none. *)
Theorem correlation_alert_iff (p : Portfolio) (w : World) :
  ∃ alerts w',
    _check_correlation_limits p w = (Ok alerts, w') ∧
    self w' = self w ∧ store w' = store w ∧
    (length alerts ≤ 1)%nat ∧
    (alerts ≠ [] ↔
     df_empty (correlation_matrix (self w)) = false ∧
     ∃ x, In x (df_entries (correlation_matrix (self w))) ∧
          fgtb (fabs x) (config_get (config (self w)) "correlation_threshold" (Fin 0.3)) =
            true) ∧
    (correlation_matrix (self w) = [] → alerts = []) ∧
    Forall (fun a => level a = ORANGE ∧ action_required a = false ∧
                     current_value a = df_abs_max_max (correlation_matrix (self w)))
      alerts.
Proof.
  eexists _, _. split; [apply check_correlation_run |].
  split; [reflexivity |]. split; [reflexivity |].
  unfold correlation_findings. rewrite <- fgtb_df_abs_max_max.
  destruct (df_empty (correlation_matrix (self w))) eqn:Hempty; cbn [negb].
  - cbn [stamp length]. split; [lia |]. split; [| split; [reflexivity | constructor]].
    split; [congruence | intros [H _]; discriminate].
  - assert (Hnil : correlation_matrix (self w) = [] → False)
      by (intros H; rewrite H in Hempty; discriminate).
    destruct (fgtb _ _) eqn:Hgt; cbn [stamp length].
    + split; [lia |]. split; [| split].
      * split; [intros _; split; reflexivity | discriminate].
      * intros H. destruct (Hnil H).
      * constructor; [| constructor]. repeat split.
    + split; [lia |]. split; [| split; [reflexivity | constructor]].
      split; [congruence | intros [_ H]; discriminate].
Qed.

Lemma correlation_alert_iff_witness :
  ∃ alerts w',
    _check_correlation_limits (snap 0)
      (world_of (with_correlation_matrix default_engine correlated_strategies) [] []) =
      (Ok alerts, w') ∧
    map current_value alerts = [Fin 1].
Proof.
  destruct (correlation_alert_iff (snap 0)
              (world_of (with_correlation_matrix default_engine correlated_strategies) [] []))
    as (alerts & w' & Hrun & _ & _ & Hlen & Hiff & _ & Hall).
  exists alerts, w'. split; [exact Hrun |].
  assert (Hne : alerts ≠ []).
  { apply Hiff. split; [reflexivity |]. exists (Fin 1). split; [cbn; tauto | reflexivity]. }
  destruct alerts as [| a [| b alerts]]; [congruence | | cbn in Hlen; lia].
  apply Forall_cons in Hall. destruct Hall as [(_ & _ & Hv) _].
  cbn. rewrite Hv. reflexivity.
Defined.

(** ** The circuit breakers *)

Lemma drawdown_run (p : Portfolio) (w : World) :
  _calculate_30day_drawdown p w = (Ok (drawdown_of (self w)), w).
Proof.
  unfold drawdown_of, _calculate_30day_drawdown. run_monad.
  destruct (length (portfolio_history (self w)) <? 30)%nat; reflexivity.
Qed.

Lemma check_breakers_run (p : Portfolio) (w : World) :
  ∃ msgs,
    check_breakers p w =
    (Ok (breaker_decision (circuit_breakers (self w)) (daily_pnl_pct p)
           (drawdown_of (self w))),
     mkWorld
       (with_breaker_level (self w)
          (breaker_decision (circuit_breakers (self w)) (daily_pnl_pct p)
             (drawdown_of (self w))))
       (store w) (clock w) (ticks w) (logged w ++ msgs)).
Proof.
  unfold check_breakers, breaker_decision. run_monad.
  destruct (fleb (Fin (daily_pnl_pct p)) (daily_loss_2 (circuit_breakers (self w))));
    [eexists; reflexivity |].
  destruct (fleb (Fin (daily_pnl_pct p)) (daily_loss_1 (circuit_breakers (self w))));
    [eexists; reflexivity |].
  rewrite drawdown_run.
  destruct (fleb (drawdown_of (self w)) (drawdown_30d (circuit_breakers (self w)))).
  - eexists; reflexivity.
  - exists []. rewrite app_nil_r. reflexivity.
Qed.

Lemma drawdown_of_breaker_level (e : RiskEngine) (l : CircuitBreakerLevel) :
  drawdown_of (with_breaker_level e l) = drawdown_of e.
Proof.
  unfold drawdown_of, _calculate_30day_drawdown. run_monad.
  cbn [with_breaker_level portfolio_history].
  destruct (length (portfolio_history e) <? 30)%nat; reflexivity.
Qed.

(** X11: the breaker has no memory.  The level that [check_breakers]
    returns for a portfolio is the same after any earlier call, whatever
    that call returned and stored: it is fixed by the portfolio's daily P&L,
    the thresholds and the history.  Each call overwrites
    [current_breaker_level] and touches no other field and no dict. *)
Theorem check_breakers_no_memory (p1 p2 : Portfolio) (w : World) :
  ∃ l1 w1 l2 w2,
    check_breakers p1 w = (Ok l1, w1) ∧
    check_breakers p2 w1 = (Ok l2, w2) ∧
    fst (check_breakers p2 w) = Ok l2 ∧
    current_breaker_level (self w2) = l2 ∧
    self w2 = with_breaker_level (self w) l2 ∧
    store w2 = store w.
Proof.
  destruct (check_breakers_run p1 w) as (m1 & H1).
  set (l1 := breaker_decision _ _ _) in H1. set (w1 := mkWorld _ _ _ _ _) in H1.
  destruct (check_breakers_run p2 w1) as (m2 & H2).
  destruct (check_breakers_run p2 w) as (m3 & H3).
  cbn [w1 self store clock ticks logged] in H2.
  rewrite drawdown_of_breaker_level in H2.
  cbn [with_breaker_level circuit_breakers] in H2.
  eexists _, _, _, _. split; [exact H1 |]. split; [exact H2 |].
  rewrite H3. cbn [fst self store]. repeat split.
Qed.

Lemma fleb_trans (x y z : fnum) :
  fleb x y = true → fleb y z = true → fleb x z = true.
Proof.
  destruct x as [a | | |], y as [b | | |], z as [c | | |];
    try discriminate; try reflexivity.
  rewrite !fleb_Fin. apply Qle_trans.
Qed.

(** X12: when the first loss threshold is not above the second one,
    [daily_loss_1 <= daily_loss_2], LEVEL_1 is never returned: every loss
    that reaches [daily_loss_1] has reached [daily_loss_2] and is answered
    with LEVEL_2. *)
Theorem level1_needs_ordered_thresholds (p : Portfolio) (w : World) :
  fleb (daily_loss_1 (circuit_breakers (self w)))
       (daily_loss_2 (circuit_breakers (self w))) = true →
  ∃ lvl w',
    check_breakers p w = (Ok lvl, w') ∧
    lvl ≠ LEVEL_1 ∧
    (fleb (Fin (daily_pnl_pct p)) (daily_loss_1 (circuit_breakers (self w))) = true →
     lvl = LEVEL_2).
Proof.
  intros Hord. destruct (check_breakers_run p w) as (msgs & Hrun).
  eexists _, _. split; [exact Hrun |]. unfold breaker_decision.
  destruct (fleb (Fin (daily_pnl_pct p)) (daily_loss_2 (circuit_breakers (self w)))) eqn:H2.
  - split; [discriminate | reflexivity].
  - destruct (fleb (Fin (daily_pnl_pct p)) (daily_loss_1 (circuit_breakers (self w)))) eqn:H1.
    + rewrite (fleb_trans _ _ _ H1 Hord) in H2. discriminate.
    + split; [| congruence].
      destruct (fleb (drawdown_of (self w)) (drawdown_30d (circuit_breakers (self w))));
        discriminate.
Qed.

Lemma level1_needs_ordered_thresholds_witness :
  ∃ lvl w',
    check_breakers losing_day (world_of swapped_engine [] []) = (Ok lvl, w') ∧
    lvl ≠ LEVEL_1.
Proof.
  destruct (level1_needs_ordered_thresholds losing_day (world_of swapped_engine [] []))
    as (lvl & w' & Hrun & Hne & _); [reflexivity |].
  exists lvl, w'. split; assumption.
Defined.

(** X13: with fewer than 30 snapshots in the history the drawdown is 0.0,
    so a negative drawdown threshold is never reached: [check_breakers]
    does not return LEVEL_3, and it returns [NONE] exactly when the daily
    P&L is above both loss thresholds. *)
Theorem level3_needs_history (p : Portfolio) (w : World) (t : Q) :
  (length (portfolio_history (self w)) < 30)%nat →
  drawdown_30d (circuit_breakers (self w)) = Fin t →
  t < 0 →
  ∃ lvl w',
    check_breakers p w = (Ok lvl, w') ∧
    lvl ≠ LEVEL_3 ∧
    (lvl = NONE ↔
     fleb (Fin (daily_pnl_pct p)) (daily_loss_2 (circuit_breakers (self w))) = false ∧
     fleb (Fin (daily_pnl_pct p)) (daily_loss_1 (circuit_breakers (self w))) = false).
Proof.
  intros Hlen Ht Hneg. destruct (check_breakers_run p w) as (msgs & Hrun).
  eexists _, _. split; [exact Hrun |]. unfold breaker_decision.
  assert (Hdd : fleb (drawdown_of (self w)) (drawdown_30d (circuit_breakers (self w))) = false).
  { unfold drawdown_of, _calculate_30day_drawdown. run_monad.
    apply Nat.ltb_lt in Hlen. rewrite Hlen, Ht. cbn. apply fleb_Fin_false. exact Hneg. }
  rewrite Hdd.
  destruct (fleb (Fin (daily_pnl_pct p)) (daily_loss_2 (circuit_breakers (self w))));
    [split; [discriminate | split; [discriminate | intros [H _]; discriminate]] |].
  destruct (fleb (Fin (daily_pnl_pct p)) (daily_loss_1 (circuit_breakers (self w))));
    [split; [discriminate | split; [discriminate | intros [_ H]; discriminate]] |].
  split; [discriminate | split; [tauto | reflexivity]].
Qed.

Lemma level3_needs_history_witness :
  ∃ w', check_breakers (snap 50) (world_of default_engine (take 29 falling_history) []) =
          (Ok NONE, w').
Proof.
  destruct (level3_needs_history (snap 50)
              (world_of default_engine (take 29 falling_history) []) (-0.120))
    as (lvl & w' & Hrun & _ & Hnone); [cbn; lia | reflexivity | reflexivity |].
  exists w'. rewrite Hrun. f_equal. f_equal. apply Hnone. split; reflexivity.
Defined.

(** *** Bounds of the drawdown *)

Lemma Qmin_cases (a b : Q) : Qmin a b = a ∨ Qmin a b = b.
Proof. unfold Qmin, GenericMinMax.gmin. destruct (a ?= b); tauto. Qed.

Lemma fold_min_In (l : list Q) (m : Q) : In (fold_left Qmin l m) (m :: l).
Proof.
  revert m. induction l as [| x l IH]; intros m; cbn [fold_left]; [left; reflexivity |].
  destruct (IH (Qmin m x)) as [H | H]; [| right; right; exact H].
  rewrite <- H. destruct (Qmin_cases m x) as [-> | ->]; cbn; tauto.
Qed.

Lemma fold_min_le_elem (l : list Q) (m x : Q) : In x l → fold_left Qmin l m <= x.
Proof.
  revert m. induction l as [| y l IH]; intros m Hin; [destruct Hin |].
  cbn. destruct Hin as [-> | Hin].
  - eapply Qle_trans; [apply fold_min_le_init | apply Q.le_min_r].
  - apply IH, Hin.
Qed.

Lemma list_min_Q_In (l : list Q) : l ≠ [] → In (list_min_Q l) l.
Proof. destruct l as [| x l]; [congruence | intros _; apply fold_min_In]. Qed.

Lemma list_min_Q_lower (l : list Q) (x : Q) : In x l → list_min_Q l <= x.
Proof.
  destruct l as [| y l]; [intros [] |]. intros [-> | Hin]; cbn.
  - apply fold_min_le_init.
  - apply fold_min_le_elem, Hin.
Qed.

Lemma fold_max_le (l : list Q) (m c : Q) :
  m <= c → (∀ x, In x l → x <= c) → fold_left Qmax l m <= c.
Proof.
  revert m. induction l as [| y l IH]; intros m Hm Hl; cbn; [exact Hm |].
  apply IH; [apply Q.max_lub; [exact Hm | apply Hl; left; reflexivity] |].
  intros x Hx. apply Hl. right. exact Hx.
Qed.

Lemma list_max_Q_le (l : list Q) (c : Q) :
  l ≠ [] → (∀ x, In x l → x <= c) → list_max_Q l <= c.
Proof.
  destruct l as [| y l]; [congruence | intros _ Hl]. cbn.
  apply fold_max_le; [apply Hl; left; reflexivity |].
  intros x Hx. apply Hl. right. exact Hx.
Qed.

Lemma prefix_In (navs : list Q) (i j : nat) :
  (i ≤ j)%nat → (j < length navs)%nat → In (nth i navs 0) (take (S j) navs).
Proof.
  intros Hij Hj.
  rewrite <- (firstn_skipn (S j) navs) at 1.
  rewrite app_nth1 by (rewrite length_take; lia).
  apply nth_In. rewrite length_take. lia.
Qed.

Lemma prefix_elem (navs : list Q) (j : nat) (x : Q) :
  (j < length navs)%nat → In x (take (S j) navs) →
  ∃ i, (i ≤ j)%nat ∧ x = nth i navs 0.
Proof.
  intros Hj Hx. apply (In_nth _ _ 0) in Hx. destruct Hx as (i & Hi & <-).
  rewrite length_take in Hi. exists i. split; [lia |].
  rewrite <- (firstn_skipn (S j) navs) at 2.
  rewrite app_nth1 by (rewrite length_take; lia). reflexivity.
Qed.

Lemma running_max_pos (navs : list Q) (i : nat) :
  Forall (fun x => 0 < x) navs → (i < length navs)%nat → 0 < spec_running_max navs i.
Proof.
  intros Hpos Hi.
  assert (Hnav : 0 < nth i navs 0).
  { rewrite Forall_forall in Hpos. apply Hpos. apply list_elem_of_In, nth_In, Hi. }
  pose proof (running_max_ge_nav navs i Hi). lra.
Qed.

Lemma spec_drawdown_at_zero_iff (navs : list Q) (i : nat) :
  Forall (fun x => 0 < x) navs → (i < length navs)%nat →
  (spec_drawdown_at navs i == 0 ↔ nth i navs 0 == spec_running_max navs i).
Proof.
  intros Hpos Hi. pose proof (running_max_pos navs i Hpos Hi) as Hm.
  unfold spec_drawdown_at. split.
  - intros H.
    assert (Hz : nth i navs 0 - spec_running_max navs i ==
                 (nth i navs 0 - spec_running_max navs i) / spec_running_max navs i *
                 spec_running_max navs i) by (field; lra).
    rewrite H in Hz. lra.
  - intros H. rewrite H. field. lra.
Qed.

Lemma spec_drawdown_at_gt (navs : list Q) (i : nat) :
  Forall (fun x => 0 < x) navs → (i < length navs)%nat → -1 < spec_drawdown_at navs i.
Proof.
  intros Hpos Hi. pose proof (running_max_pos navs i Hpos Hi) as Hm.
  assert (Hnav : 0 < nth i navs 0).
  { rewrite Forall_forall in Hpos. apply Hpos. apply list_elem_of_In, nth_In, Hi. }
  unfold spec_drawdown_at. apply Qlt_shift_div_l; lra.
Qed.

Lemma running_max_is_nav_iff (navs : list Q) :
  (∀ i, (i < length navs)%nat → nth i navs 0 == spec_running_max navs i) ↔
  nondecreasing navs.
Proof.
  split.
  - intros H i j Hij Hj. rewrite (H j Hj).
    apply list_max_Q_upper, prefix_In; assumption.
  - intros Hnd i Hi. apply Qle_antisym; [apply running_max_ge_nav, Hi |].
    apply list_max_Q_le.
    + destruct navs; [cbn in Hi; lia | discriminate].
    + intros x Hx. destruct (prefix_elem navs i x Hi Hx) as (k & Hk & ->).
      apply Hnd; assumption.
Qed.

Lemma drawdown_value (w : World) :
  (30 ≤ length (portfolio_history (self w)))%nat →
  Forall (fun s => 0 < nav s) (lastn 30 (portfolio_history (self w))) →
  drawdown_of (self w) =
    Fin (spec_rolling_30d_drawdown (map nav (portfolio_history (self w)))) ∧
  length (lastn 30 (map nav (portfolio_history (self w)))) = 30%nat ∧
  Forall (fun x => 0 < x) (lastn 30 (map nav (portfolio_history (self w)))).
Proof.
  intros Hge Hpos.
  set (navs := lastn 30 (map nav (portfolio_history (self w)))).
  assert (Hlen : length navs = 30%nat)
    by (unfold navs; rewrite lastn_length, length_map; lia).
  assert (Hpos' : Forall (fun x => 0 < x) navs).
  { unfold navs. rewrite lastn_map. apply Forall_forall. intros x Hx.
    apply list_elem_of_In, in_map_iff in Hx. destruct Hx as (s & <- & Hs).
    rewrite Forall_forall in Hpos. apply Hpos, list_elem_of_In, Hs. }
  split; [| split; assumption].
  unfold drawdown_of, _calculate_30day_drawdown. run_monad.
  apply Nat.ltb_ge in Hge. rewrite Hge. cbn [fst].
  replace (map (fun p => Fin (nav p)) (lastn 30 (portfolio_history (self w))))
    with (map Fin navs) by (unfold navs; rewrite lastn_map, map_map; reflexivity).
  rewrite drawdown_series by exact Hpos'.
  rewrite series_min_Fin by (rewrite Hlen; discriminate).
  reflexivity.
Qed.

(** X14: over a window of positive NAVs the 30-day drawdown is above -1,
    and it is 0 exactly when the NAV never falls in the window: every NAV
    is at least every NAV before it. *)
Theorem drawdown_bounds (p : Portfolio) (w : World) :
  (30 ≤ length (portfolio_history (self w)))%nat →
  Forall (fun s => 0 < nav s) (lastn 30 (portfolio_history (self w))) →
  ∃ v,
    _calculate_30day_drawdown p w = (Ok (Fin v), w) ∧
    -1 < v ∧
    (v == 0 ↔ nondecreasing (lastn 30 (map nav (portfolio_history (self w))))).
Proof.
  intros Hge Hpos. destruct (drawdown_value w Hge Hpos) as (Hv & Hlen & Hpos').
  rewrite drawdown_run, Hv. eexists. split; [reflexivity |].
  unfold spec_rolling_30d_drawdown.
  set (navs := lastn 30 (map nav (portfolio_history (self w)))) in *.
  set (dds := map (spec_drawdown_at navs) (seq 0 (length navs))).
  assert (Hne : dds ≠ []) by (unfold dds; rewrite Hlen; discriminate).
  assert (Hdd : ∀ x, In x dds ↔ ∃ i, (i < length navs)%nat ∧ x = spec_drawdown_at navs i).
  { intros x. unfold dds. rewrite in_map_iff. split.
    - intros (i & <- & Hi). apply in_seq in Hi. exists i. split; [lia | reflexivity].
    - intros (i & Hi & ->). exists i. split; [reflexivity | apply in_seq; lia]. }
  split.
  - destruct (proj1 (Hdd _) (list_min_Q_In dds Hne)) as (i & Hi & ->).
    apply spec_drawdown_at_gt; assumption.
  - rewrite <- running_max_is_nav_iff. split.
    + intros Hzero i Hi. apply spec_drawdown_at_zero_iff; [assumption .. |].
      apply Qle_antisym; [apply spec_drawdown_at_nonpos; assumption |].
      rewrite <- Hzero. apply list_min_Q_lower. apply Hdd. eauto.
    + intros Hall.
      destruct (proj1 (Hdd _) (list_min_Q_In dds Hne)) as (i & Hi & ->).
      apply spec_drawdown_at_zero_iff; auto.
Qed.

Lemma drawdown_bounds_witness :
  ∃ v, _calculate_30day_drawdown (snap 0) (world_of default_engine rising_history []) =
         (Ok (Fin v), world_of default_engine rising_history []) ∧ -1 < v.
Proof.
  destruct (drawdown_bounds (snap 0) (world_of default_engine rising_history []))
    as (v & Hv & Hgt & _).
  - cbn. lia.
  - repeat constructor.
  - exists v. split; assumption.
Defined.

(** ** The risk summary *)

Lemma recent_run (alerts : list RiskAlert) (w : World) :
  for_collect alerts
    (fun a =>
       now ← datetime_now;
       mret (if (now - one_hour <? alert_timestamp a)%Z then [a] else [])) w =
  (Ok (recent (clock w) (ticks w) alerts), advance w (length alerts)).
Proof.
  revert w. induction alerts as [| a l IH]; intros w.
  - cbn. rewrite advance_0. reflexivity.
  - cbn [for_collect recent length]. run_monad. rewrite IH.
    cbn [self store clock ticks logged]. unfold advance. cbn [self store clock ticks logged].
    apply f_equal2; [reflexivity | f_equal; lia].
Qed.

Lemma get_risk_summary_run (p : Portfolio) (d : Dict) (w : World) :
  store w !! positions p = Some d →
  get_risk_summary p w =
  match var_outcome (self w) with
  | Raise e => (Raise e, w)
  | Ok var =>
      (Ok {| summary_timestamp := clock w (ticks w);
             summary_nav := nav p;
             summary_daily_pnl := daily_pnl p;
             summary_daily_pnl_pct := daily_pnl_pct p;
             gross_exposure := gross_exposure_of d;
             net_exposure := net_exposure_of d;
             num_positions := length d;
             top_positions := take 5 (sorted_by_abs_desc d);
             var_95_1day := var;
             circuit_breaker_level := level_value (current_breaker_level (self w));
             active_alerts :=
               length (recent (clock w) (S (ticks w)) (risk_alerts (self w)));
             summary_position_limits := position_limits (self w);
             within_limits :=
               {| within_gross :=
                    fleb (Fin (gross_exposure_of d)) (gross (position_limits (self w)));
                  within_net :=
                    fleb (Fin (Qabs (net_exposure_of d))) (net (position_limits (self w)));
                  within_single_name :=
                    forallb (fun x => fleb (Fin (Qabs x))
                                        (single_name (position_limits (self w))))
                      (dict_values d) |} |},
       advance w (S (length (risk_alerts (self w)))))
  end.
Proof.
  intros Hp. unfold get_risk_summary.
  unfold mbind at 1, M_bind at 1, get_self.
  unfold mbind at 1, M_bind at 1. rewrite (deref_run _ d w Hp).
  unfold mbind at 1, M_bind at 1. rewrite calculate_var_run.
  destruct (var_outcome (self w)) as [var | e]; [| reflexivity].
  unfold mbind at 1, M_bind at 1, datetime_now.
  unfold mbind at 1, M_bind at 1. rewrite recent_run.
  unfold mret, M_ret, advance. cbn [self store clock ticks logged].
  apply f_equal2; [reflexivity | f_equal; lia].
Qed.

(** X15: [get_risk_summary] reads and reports, it changes neither the
    engine nor a dict.  Unlike [check_limits] it does not catch a failure of
    the VaR estimate: it raises exactly when [calculate_var] raises, with
    the same exception and before the clock is read.  When it returns, it
    has read the clock once for the report and once more for every alert of
    the log, and it reports the number of positions, the stored breaker
    level as a number, and the value of [calculate_var]. *)
Theorem summary_reads_only (p : Portfolio) (w : World) (d : Dict) :
  store w !! positions p = Some d →
  (∀ e, (∃ w', get_risk_summary p w = (Raise e, w')) ↔
        (∃ w', calculate_var p w = (Raise e, w'))) ∧
  (∀ e w', get_risk_summary p w = (Raise e, w') → w' = w) ∧
  (∀ s w', get_risk_summary p w = (Ok s, w') →
     self w' = self w ∧ store w' = store w ∧ logged w' = logged w ∧
     ticks w' = (ticks w + 1 + length (risk_alerts (self w)))%nat ∧
     summary_timestamp s = clock w (ticks w) ∧
     num_positions s = length d ∧
     circuit_breaker_level s = level_value (current_breaker_level (self w)) ∧
     summary_position_limits s = position_limits (self w) ∧
     calculate_var p w = (Ok (var_95_1day s), w)).
Proof.
  intros Hp. rewrite (get_risk_summary_run p d w Hp), calculate_var_run.
  destruct (var_outcome (self w)) as [var | e0].
  - split; [| split].
    + intros e. split; intros (w' & H); discriminate.
    + intros e w' H. discriminate.
    + intros s w' [= <- <-]. cbn. repeat split. lia.
  - split; [| split].
    + intros e. split; intros (w' & [= <- <-]); eauto.
    + intros e w' [= _ <-]. reflexivity.
    + intros s w' H. discriminate.
Qed.

Lemma summary_reads_only_witness :
  ∃ w', get_risk_summary (snap 1) (world_of percent_engine falling_history two_positions) =
          (Raise (ValueError "Percentiles must be in the range [0, 100]"), w').
Proof.
  apply (summary_reads_only (snap 1) (world_of percent_engine falling_history two_positions)
           [("AAPL"%string, 0.1); ("MSFT"%string, -0.3)] eq_refl).
  eexists. vm_compute. reflexivity.
Defined.

Lemma fleb_true_fltb (x y : fnum) : fleb x y = true → fltb y x = false.
Proof.
  destruct x as [a | | |], y as [b | | |]; try discriminate; try reflexivity.
  rewrite fleb_Fin. intros H. apply fltb_Fin_false_iff, H.
Qed.

Lemma single_name_findings_nil (e : RiskEngine) (d : Dict) :
  single_name_findings e d = [] ↔
  forallb (fun x => negb (fgtb (Fin (Qabs x)) (single_name (position_limits e))))
    (dict_values d) = true.
Proof.
  unfold single_name_findings, dict_values.
  induction d as [| [k v] d IH]; [cbn; tauto |].
  cbn [flat_map map forallb snd]. unfold single_name_finding at 1. cbn [snd].
  destruct (fgtb (Fin (Qabs v)) (single_name (position_limits e))); cbn.
  - split; discriminate.
  - exact IH.
Qed.

(** X16: the flags of the summary agree with the checks.  A flag of
    [within_limits] that is true means that the matching check raises no
    alert on the same portfolio: none of the single-name check, no gross
    alert and no net alert of the exposure check.  When the limit is a
    number the converse holds too; when it is [NaN] the two can disagree,
    since every comparison with it is false. *)
Theorem summary_flags_match_checks (p : Portfolio) (w : World) (d : Dict)
    (s : RiskSummary) (w' : World) :
  store w !! positions p = Some d →
  get_risk_summary p w = (Ok s, w') →
  ∃ a1 w1 a2 w2,
    _check_single_name_limits p w = (Ok a1, w1) ∧
    _check_exposure_limits p w = (Ok a2, w2) ∧
    (within_single_name (within_limits s) = true → a1 = []) ∧
    (within_gross (within_limits s) = true → alerts_of "gross_exposure" a2 = []) ∧
    (within_net (within_limits s) = true → alerts_of "net_exposure" a2 = []) ∧
    (is_nan (single_name (position_limits (self w))) = false →
     a1 = [] → within_single_name (within_limits s) = true) ∧
    (is_nan (gross (position_limits (self w))) = false →
     alerts_of "gross_exposure" a2 = [] → within_gross (within_limits s) = true) ∧
    (is_nan (net (position_limits (self w))) = false →
     alerts_of "net_exposure" a2 = [] → within_net (within_limits s) = true).
Proof.
  intros Hp Hs. rewrite (get_risk_summary_run p d w Hp) in Hs.
  destruct (var_outcome (self w)) as [var | e]; [| discriminate].
  injection Hs as <- <-.
  eexists _, _, _, _.
  split; [apply (check_single_name_run p d w Hp) |].
  split; [apply (check_exposure_run p d w Hp) |].
  cbn [within_limits within_gross within_net within_single_name].
  rewrite stamp_nil_iff, single_name_findings_nil.
  unfold gross_findings, net_findings.
  change (sum_Q (map Qabs (dict_values d))) with (gross_exposure_of d).
  change (sum_Q (dict_values d)) with (net_exposure_of d).
  set (L := single_name (position_limits (self w))).
  set (G := gross (position_limits (self w))).
  set (N := net (position_limits (self w))).
  split; [| split; [| split; [| split; [| split]]]].
  - intros H. rewrite forallb_forall in *. intros x Hx.
    unfold fgtb. rewrite (fleb_true_fltb _ _ (H x Hx)). reflexivity.
  - intros H.
    assert (Hf : fgtb (Fin (gross_exposure_of d)) G = false)
      by (unfold fgtb; apply fleb_true_fltb, H).
    rewrite Hf. cbn [app].
    destruct (fgtb (Fin (Qabs (net_exposure_of d))) N); reflexivity.
  - intros H.
    assert (Hf : fgtb (Fin (Qabs (net_exposure_of d))) N = false)
      by (unfold fgtb; apply fleb_true_fltb, H).
    rewrite Hf.
    destruct (fgtb (Fin (gross_exposure_of d)) G); reflexivity.
  - intros HL H. rewrite forallb_forall in *. intros x Hx.
    rewrite fleb_negb_fltb by (exact HL || reflexivity). apply (H x Hx).
  - intros HG H. rewrite fleb_negb_fltb by (exact HG || reflexivity).
    fold (fgtb (Fin (gross_exposure_of d)) G).
    destruct (fgtb (Fin (gross_exposure_of d)) G); [| reflexivity].
    destruct (fgtb (Fin (Qabs (net_exposure_of d))) N); discriminate.
  - intros HN H. rewrite fleb_negb_fltb by (exact HN || reflexivity).
    fold (fgtb (Fin (Qabs (net_exposure_of d))) N).
    destruct (fgtb (Fin (Qabs (net_exposure_of d))) N); [| reflexivity].
    destruct (fgtb (Fin (gross_exposure_of d)) G); discriminate.
Qed.

Lemma summary_flags_match_checks_witness :
  ∃ a2 w2,
    _check_exposure_limits (snap 1) (world_of default_engine [] seven_positions) =
      (Ok a2, w2) ∧
    alerts_of "gross_exposure" a2 = [].
Proof.
  pose proof (get_risk_summary_run (snap 1) _
                (world_of default_engine [] seven_positions) eq_refl) as Hs.
  change (var_outcome _) with (@Ok fnum (Fin 0)) in Hs.
  destruct (summary_flags_match_checks (snap 1) (world_of default_engine [] seven_positions)
              _ _ _ eq_refl Hs)
    as (a1 & w1 & a2 & w2 & _ & H2 & _ & Hgross & _).
  exists a2, w2. split; [exact H2 |]. apply Hgross. reflexivity.
Defined.

Lemma insert_by_abs_desc_perm (x : string * Q) (l : list (string * Q)) :
  Permutation (x :: l) (insert_by_abs_desc x l).
Proof.
  induction l as [| y l IH]; cbn; [reflexivity |].
  destruct (Qle_bool (Qabs (snd y)) (Qabs (snd x))); [reflexivity |].
  rewrite perm_swap. apply perm_skip, IH.
Qed.

Lemma sorted_by_abs_desc_perm (d : list (string * Q)) :
  Permutation d (sorted_by_abs_desc d).
Proof.
  induction d as [| x d IH]; [reflexivity |].
  change (sorted_by_abs_desc (x :: d)) with (insert_by_abs_desc x (sorted_by_abs_desc d)).
  rewrite <- insert_by_abs_desc_perm. apply perm_skip, IH.
Qed.

Lemma insert_by_abs_desc_sorted (x : string * Q) (l : list (string * Q)) :
  abs_descending l → abs_descending (insert_by_abs_desc x l).
Proof.
  induction l as [| y l IH]; intros Hl; cbn [insert_by_abs_desc].
  - cbn. split; [constructor | exact I].
  - destruct Hl as [Hy Hl].
    destruct (Qle_bool (Qabs (snd y)) (Qabs (snd x))) eqn:E.
    + apply Qle_bool_iff in E. cbn [abs_descending]. split; [| split; assumption].
      constructor; [exact E |].
      eapply Forall_impl; [exact Hy |]. intros z Hz. cbn in Hz. lra.
    + assert (Hlt : Qabs (snd x) <= Qabs (snd y)).
      { apply Qlt_le_weak, Qnot_le_lt. intros H. apply Qle_bool_iff in H. congruence. }
      cbn [abs_descending]. split; [| apply IH, Hl].
      apply Forall_forall. intros z Hz.
      apply list_elem_of_In in Hz.
      apply (Permutation_in _ (Permutation_sym (insert_by_abs_desc_perm x l))) in Hz.
      destruct Hz as [<- | Hz]; [exact Hlt |].
      rewrite Forall_forall in Hy. apply Hy, list_elem_of_In, Hz.
Qed.

Lemma sorted_by_abs_desc_sorted (d : list (string * Q)) :
  abs_descending (sorted_by_abs_desc d).
Proof.
  induction d as [| x d IH]; [exact I |].
  change (sorted_by_abs_desc (x :: d)) with (insert_by_abs_desc x (sorted_by_abs_desc d)).
  apply insert_by_abs_desc_sorted, IH.
Qed.

Lemma abs_descending_app (a b : list (string * Q)) :
  abs_descending (a ++ b) →
  abs_descending a ∧
  ∀ x y, In x a → In y b → Qabs (snd y) <= Qabs (snd x).
Proof.
  induction a as [| z a IH]; cbn [app abs_descending].
  - intros _. split; [exact I | intros x y []].
  - intros [Hz Hab]. destruct (IH Hab) as [Ha Hcross].
    apply Forall_app in Hz. destruct Hz as [Hza Hzb].
    split; [split; assumption |].
    intros x y [<- | Hx] Hy; [| eauto].
    rewrite Forall_forall in Hzb. apply Hzb, list_elem_of_In, Hy.
Qed.

(** X17: [top_positions] holds the five largest positions by absolute
    weight, largest first, or all of them when there are fewer than five:
    together with the positions left out it is a rearrangement of the
    portfolio's positions, and no position left out is larger in absolute
    weight than one that is listed. *)
Theorem top_positions_are_largest (p : Portfolio) (w : World) (d : Dict)
    (s : RiskSummary) (w' : World) :
  store w !! positions p = Some d →
  get_risk_summary p w = (Ok s, w') →
  length (top_positions s) = Nat.min 5 (length d) ∧
  abs_descending (top_positions s) ∧
  ∃ rest,
    Permutation d (top_positions s ++ rest) ∧
    ∀ x y, In x (top_positions s) → In y rest → Qabs (snd y) <= Qabs (snd x).
Proof.
  intros Hp Hs. rewrite (get_risk_summary_run p d w Hp) in Hs.
  destruct (var_outcome (self w)) as [var | e]; [| discriminate].
  injection Hs as <- <-. cbn [top_positions].
  pose proof (sorted_by_abs_desc_perm d) as Hperm.
  pose proof (sorted_by_abs_desc_sorted d) as Hsorted.
  rewrite <- (firstn_skipn 5 (sorted_by_abs_desc d)) in Hsorted.
  destruct (abs_descending_app _ _ Hsorted) as [Htop Hcross].
  split; [rewrite length_take, <- (Permutation_length Hperm); reflexivity |].
  split; [exact Htop |].
  exists (drop 5 (sorted_by_abs_desc d)).
  split; [rewrite firstn_skipn; exact Hperm | exact Hcross].
Qed.

Lemma top_positions_are_largest_witness :
  ∃ s w',
    get_risk_summary (snap 1) (world_of default_engine [] seven_positions) = (Ok s, w') ∧
    length (top_positions s) = 5%nat.
Proof.
  pose proof (get_risk_summary_run (snap 1) _
                (world_of default_engine [] seven_positions) eq_refl) as Hs.
  change (var_outcome _) with (@Ok fnum (Fin 0)) in Hs.
  eexists _, _. split; [exact Hs |].
  apply (top_positions_are_largest (snap 1) (world_of default_engine [] seven_positions)
           _ _ _ eq_refl Hs).
Defined.

Lemma recent_length (clk : nat → Z) (t : nat) (l : list RiskAlert) :
  (length (recent clk t l) ≤ length l)%nat.
Proof.
  revert t. induction l as [| a l IH]; intros t; cbn [recent length]; [lia |].
  rewrite length_app. specialize (IH (S t)).
  destruct (_ <? _)%Z; cbn [length]; lia.
Qed.

Lemma recent_stamp_young (clk : nat → Z) (t o : nat) (F : list RiskAlert) :
  (∀ k, (k < length F)%nat → (clk (t + o + k)%nat - one_hour < clk (t + k)%nat)%Z) →
  recent clk (t + o) (stamp clk t F) = stamp clk t F.
Proof.
  revert t. induction F as [| a F IH]; intros t Hyoung; [reflexivity |].
  cbn [stamp recent stamped alert_timestamp].
  pose proof (Hyoung 0%nat ltac:(cbn; lia)) as H0. rewrite !Nat.add_0_r in H0.
  apply Z.ltb_lt in H0. rewrite H0. cbn [app]. f_equal.
  change (S (t + o)) with (S t + o)%nat. apply IH.
  intros k Hk. specialize (Hyoung (S k) ltac:(cbn; lia)).
  replace (S t + o + k)%nat with (t + o + S k)%nat by lia.
  replace (S t + k)%nat with (t + S k)%nat by lia. exact Hyoung.
Qed.

Lemma recent_stamp_old (clk : nat → Z) (t o : nat) (F : list RiskAlert) :
  (∀ k, (k < length F)%nat → (clk (t + k)%nat ≤ clk (t + o + k)%nat - one_hour)%Z) →
  recent clk (t + o) (stamp clk t F) = [].
Proof.
  revert t. induction F as [| a F IH]; intros t Hold; [reflexivity |].
  cbn [stamp recent stamped alert_timestamp].
  pose proof (Hold 0%nat ltac:(cbn; lia)) as H0. rewrite !Nat.add_0_r in H0.
  apply Z.ltb_ge in H0. rewrite H0. cbn [app].
  change (S (t + o)) with (S t + o)%nat. apply IH.
  intros k Hk. specialize (Hold (S k) ltac:(cbn; lia)).
  replace (S t + o + k)%nat with (t + o + S k)%nat by lia.
  replace (S t + k)%nat with (t + S k)%nat by lia. exact Hold.
Qed.

(** X18: [active_alerts] counts the alerts of the log that are less than
    an hour old when the summary looks at them.  After a [check_limits] on
    an engine with an empty log, the summary counts at most the alerts that
    the check returned; it counts all of them when it looks at each one
    less than an hour after the alert was raised, and none when at least
    an hour has passed for each. *)
Theorem fresh_alerts_are_active (p : Portfolio) (w : World) (d : Dict) :
  store w !! positions p = Some d →
  risk_alerts (self w) = [] →
  ∃ alerts w1,
    check_limits p w = (Ok alerts, w1) ∧
    ∀ s w2, get_risk_summary p w1 = (Ok s, w2) →
      (active_alerts s ≤ length alerts)%nat ∧
      ((∀ k, (k < length alerts)%nat →
             (clock w (ticks w + (length alerts + 1) + k)%nat - one_hour <
              clock w (ticks w + k)%nat)%Z) →
       active_alerts s = length alerts) ∧
      ((∀ k, (k < length alerts)%nat →
             (clock w (ticks w + k)%nat ≤
              clock w (ticks w + (length alerts + 1) + k)%nat - one_hour)%Z) →
       active_alerts s = 0%nat).
Proof.
  intros Hp Hlog. eexists _, _. split; [apply (check_limits_run p d w Hp) |].
  set (F := limit_findings (self w) d).
  set (w1 := mkWorld _ _ _ _ _).
  intros s w2 Hs.
  assert (Hp1 : store w1 !! positions p = Some d) by exact Hp.
  rewrite (get_risk_summary_run p d w1 Hp1) in Hs.
  destruct (var_outcome (self w1)) as [var | e]; [| discriminate].
  injection Hs as <- <-. cbn [active_alerts w1 self clock ticks with_risk_alerts risk_alerts].
  rewrite Hlog. cbn [app]. rewrite stamp_length.
  replace (S (ticks w + length F)) with (ticks w + (length F + 1))%nat by lia.
  split; [| split].
  - etransitivity; [apply recent_length |]. rewrite stamp_length. lia.
  - intros Hyoung. rewrite recent_stamp_young by exact Hyoung. apply stamp_length.
  - intros Hold. rewrite recent_stamp_old by exact Hold. reflexivity.
Qed.

Lemma fresh_alerts_are_active_witness :
  ∃ alerts w1 s w2,
    check_limits (snap 1) (world_of default_engine [] mixed_book) = (Ok alerts, w1) ∧
    get_risk_summary (snap 1) w1 = (Ok s, w2) ∧
    active_alerts s = 2%nat.
Proof.
  destruct (fresh_alerts_are_active (snap 1) (world_of default_engine [] mixed_book)
              [("AAPL"%string, 0.037); ("MSFT"%string, -0.031); ("IBM"%string, 0.02)]
              eq_refl eq_refl)
    as (alerts & w1 & Hrun & Hsum).
  assert (Hal : alerts = [stamped (single_name_alert 0.03 ("AAPL"%string, 0.037)) 0;
                          stamped (single_name_alert 0.03 ("MSFT"%string, -0.031)) 1] ∧
                get_risk_summary (snap 1) w1 =
                  (fst (get_risk_summary (snap 1) w1), snd (get_risk_summary (snap 1) w1))).
  { split; [| destruct (get_risk_summary (snap 1) w1); reflexivity].
    vm_compute in Hrun. injection Hrun as <- _. reflexivity. }
  destruct Hal as [Hal Hpair].
  destruct (fst (get_risk_summary (snap 1) w1)) as [s | e] eqn:Hfst.
  - exists alerts, w1, s, (snd (get_risk_summary (snap 1) w1)).
    split; [exact Hrun |]. split; [exact Hpair |].
    destruct (Hsum s _ Hpair) as (_ & Hyoung & _).
    rewrite Hyoung; [rewrite Hal; reflexivity |].
    intros k Hk. rewrite Hal in *. cbn in *. unfold one_hour. lia.
  - exfalso. vm_compute in Hrun. injection Hrun as _ <-. vm_compute in Hfst. discriminate.
Defined.

(** ** Regime detection on short series *)

Lemma ffill_from_length (prev : fnum) (s : Series) : length (ffill_from prev s) = length s.
Proof. revert prev. induction s as [| x s IH]; intros prev; cbn; [| rewrite IH]; reflexivity. Qed.

Lemma series_zip_length_min (op : fnum → fnum → fnum) (a b : Series) :
  length (series_zip op a b) = Nat.min (length a) (length b).
Proof.
  revert b. induction a as [| x a IH]; intros [| y b]; cbn; try reflexivity.
  rewrite IH. reflexivity.
Qed.

Lemma pct_change_head (s : Series) :
  s ≠ [] → ∃ rest, pct_change s = NaN :: rest ∧ length rest = (length s - 1)%nat.
Proof.
  destruct s as [| x s]; [congruence | intros _].
  unfold pct_change, ffill. cbn [ffill_from].
  set (y := if is_nan x then NaN else x).
  change (shift1 (y :: ffill_from y s))
    with (NaN :: take (length (y :: ffill_from y s) - 1) (y :: ffill_from y s)).
  cbn [length]. rewrite Nat.sub_succ, Nat.sub_0_r.
  cbn [series_zip map]. eexists. split.
  - f_equal. destruct y; reflexivity.
  - rewrite length_map, series_zip_take_r, series_zip_length_min.
    cbn [length]. rewrite ffill_from_length. lia.
Qed.

Lemma dropna_length (s : Series) : (length (dropna s) ≤ length s)%nat.
Proof. unfold dropna. apply length_filter. Qed.

Lemma rolling_short (agg : Series → fnum) (rest : Series) :
  (length rest < 20)%nat →
  Forall (fun x => x = NaN) (rolling 20 agg (NaN :: rest)) ∧
  length (rolling 20 agg (NaN :: rest)) = S (length rest).
Proof.
  intros Hlen. unfold rolling. rewrite length_map, length_seq. split; [| reflexivity].
  apply Forall_forall. intros x Hx.
  apply list_elem_of_In, in_map_iff in Hx. destruct Hx as (i & <- & Hi).
  apply in_seq in Hi. cbn [length] in Hi.
  replace (i + 1 - 20)%nat with 0%nat by lia.
  replace (i + 1)%nat with (S i) by lia. cbn [take drop].
  unfold dropna. rewrite filter_cons_False by (cbn; congruence).
  fold (dropna (take i rest)).
  pose proof (dropna_length (take i rest)) as Hd. rewrite length_take in Hd.
  replace (length (dropna (take i rest)) <? 20)%nat with true
    by (symmetry; apply Nat.ltb_lt; lia).
  reflexivity.
Qed.

Lemma last_all_nan (s : Series) :
  s ≠ [] → Forall (fun x => x = NaN) s → last s = Some NaN.
Proof.
  intros Hne Hall. destruct (last s) as [x |] eqn:E.
  - rewrite Forall_forall in Hall. f_equal. apply Hall.
    apply list_elem_of_In. apply last_Some in E. destruct E as (l' & ->).
    apply in_or_app. right. left. reflexivity.
  - apply last_None in E. congruence.
Qed.

Lemma series_zip_nan_l (op : fnum → fnum → fnum) (a b : Series) :
  (∀ y, op NaN y = NaN) → Forall (fun x => x = NaN) a →
  Forall (fun x => x = NaN) (series_zip op a b).
Proof.
  intros Hop Ha. revert b. induction Ha as [| x a -> Ha IH]; intros [| y b]; cbn;
    constructor; auto.
Qed.

(** X19: a series of 1 to 20 closes is labelled [CHOP_HIGH_VOL], whatever
    the prices.  No 20-period window is complete, both statistics are
    [NaN], every comparison with them is false, and the last branch is
    taken; nothing is raised and nothing is logged. *)
Theorem short_series_label (sqrtQ : Q → Q) (md : DataFrame) (close : Series) (w : World) :
  df_column md "close" = Some close →
  (1 ≤ length close)%nat →
  (length close ≤ 20)%nat →
  current_trend sqrtQ close = NaN ∧
  current_vol sqrtQ close = NaN ∧
  detect_regime sqrtQ md w = (Ok "CHOP_HIGH_VOL"%string, w).
Proof.
  intros Hclose Hlo Hhi.
  destruct (pct_change_head close) as (rest & Hret & Hrest);
    [destruct close; [cbn in Hlo; lia | discriminate] |].
  assert (Hshort : (length rest < 20)%nat) by lia.
  destruct (rolling_short window_mean rest Hshort) as [Hmean Hmlen].
  destruct (rolling_short (window_std sqrtQ) rest Hshort) as [Hstd Hslen].
  assert (Htrend : current_trend sqrtQ close = NaN).
  { unfold current_trend. rewrite Hret.
    rewrite (last_all_nan (series_zip fdiv _ _)); [reflexivity | |].
    - intros H. apply (f_equal length) in H.
      rewrite series_zip_length in H by congruence. rewrite Hmlen in H. discriminate.
    - apply series_zip_nan_l; [reflexivity | exact Hmean]. }
  assert (Hvol : current_vol sqrtQ close = NaN).
  { unfold current_vol. rewrite Hret.
    rewrite (last_all_nan (map _ _)); [reflexivity | |].
    - intros H. apply (f_equal length) in H. rewrite length_map, Hslen in H. discriminate.
    - apply Forall_forall. intros x Hx.
      apply list_elem_of_In, in_map_iff in Hx. destruct Hx as (y & <- & Hy).
      rewrite Forall_forall in Hstd. rewrite (Hstd y) by (apply list_elem_of_In, Hy).
      reflexivity. }
  split; [exact Htrend |]. split; [exact Hvol |].
  rewrite (detect_regime_body sqrtQ md close w Hclose), Htrend, Hvol. reflexivity.
Qed.

Lemma short_series_label_witness :
  detect_regime sqrt_milli three_closes (world_of default_engine [] []) =
    (Ok "CHOP_HIGH_VOL"%string, world_of default_engine [] []).
Proof.
  apply (short_series_label sqrt_milli three_closes [Fin 100; Fin 101; Fin 102]);
    [reflexivity | cbn; lia | cbn; lia].
Defined.

(** ** Configuration *)

(** X20: whatever configuration the engine is built from (none, an empty
    one, a partial one), it works with the configured value for every key
    that is there and with the documented default for every key that is
    not: the defaults of [_get_default_config] and the fallbacks given to
    [config.get] agree. *)
Theorem configured_or_default (cfg : option (gmap string fnum)) (e : RiskEngine)
    (key : string) (dflt : fnum) :
  RiskEngine_init cfg = Ok e →
  fallback key = Some dflt →
  engine_value e key =
    Some (match cfg with
          | Some c => default dflt (c !! key)
          | None => dflt
          end).
Proof.
  intros [= <-] Hkey.
  assert (Hdefault : ∀ k v, fallback k = Some v → config_get _get_default_config k v = v).
  { intros k v. unfold fallback.
    repeat match goal with
           | |- context [String.eqb k ?s] =>
               destruct (String.eqb k s) eqn:E;
               [apply String.eqb_eq in E; subst k; intros [= <-]; reflexivity | clear E]
           end.
    intros H. discriminate H. }
  assert (Hcfg : config_get (config_or_default cfg) key dflt =
                 match cfg with Some c => default dflt (c !! key) | None => dflt end).
  { destruct cfg as [c |]; cbn [config_or_default].
    - destruct (decide (c = ∅)) as [-> | Hne].
      + rewrite lookup_empty. cbn. apply Hdefault. exact Hkey.
      + reflexivity.
    - apply Hdefault. exact Hkey. }
  rewrite <- Hcfg. clear Hcfg Hdefault. revert Hkey.
  unfold fallback, engine_value.
  cbn [position_limits circuit_breakers var_confidence var_horizon config
       single_name sector gross net daily_loss_1 daily_loss_2 drawdown_30d].
  repeat match goal with
         | |- context [String.eqb key ?s] =>
             destruct (String.eqb key s) eqn:E;
             [apply String.eqb_eq in E; subst key; intros [= <-]; reflexivity | clear E]
         end.
  intros H. discriminate H.
Qed.

Lemma configured_or_default_witness :
  engine_value percent_engine "var_confidence" = Some (Fin 95) ∧
  engine_value percent_engine "gross_limit" = Some (Fin 1.50).
Proof.
  split.
  - rewrite (configured_or_default (Some {[ "var_confidence"%string := Fin 95 ]})
               percent_engine "var_confidence" (Fin 0.95) eq_refl eq_refl).
    vm_compute. reflexivity.
  - rewrite (configured_or_default (Some {[ "var_confidence"%string := Fin 95 ]})
               percent_engine "gross_limit" (Fin 1.50) eq_refl eq_refl).
    vm_compute. reflexivity.
Defined.

(** ** Value at risk on quiet and on young histories *)

Lemma returns_from_flat (c prev : Q) (l : list Q) :
  0 < c → prev == c → Forall (fun x => x == c) l →
  Forall (fun r => r == 0) (returns_from prev l).
Proof.
  intros Hc. revert prev. induction l as [| x l IH]; intros prev Hprev Hl; [constructor |].
  apply Forall_cons in Hl. destruct Hl as [Hx Hl]. cbn [returns_from]. constructor.
  - rewrite Hx, Hprev. field. lra.
  - apply IH; assumption.
Qed.

(** X21: a history whose NAV does not move has no value at risk.  With 30
    snapshots or more, the same positive NAV all over the last 252 and a
    confidence in [[0, 1]], [calculate_var] returns 0 and the VaR check
    raises no alert. *)
Theorem flat_history_no_var (p : Portfolio) (w : World) (c : Q) :
  (30 ≤ length (portfolio_history (self w)))%nat →
  0 < c →
  Forall (fun s => nav s == c) (lastn 252 (portfolio_history (self w))) →
  confidence_valid (self w) →
  ∃ v w',
    calculate_var p w = (Ok (Fin v), w) ∧ v == 0 ∧
    _check_var_limits p w = (Ok [], w').
Proof.
  intros Hlen Hc Hflat (conf & Hconf & H0 & H1).
  set (navs := map nav (lastn 252 (portfolio_history (self w)))).
  assert (Hnavs : Forall (fun x => x == c) navs).
  { unfold navs. apply Forall_forall. intros x Hx.
    apply list_elem_of_In, in_map_iff in Hx. destruct Hx as (s & <- & Hs).
    rewrite Forall_forall in Hflat. apply Hflat, list_elem_of_In, Hs. }
  assert (Hnlen : (30 ≤ length navs)%nat)
    by (unfold navs; rewrite length_map, lastn_length; lia).
  destruct navs as [| x l] eqn:Enavs; [cbn in Hnlen; lia |].
  apply Forall_cons in Hnavs. destruct Hnavs as [Hx Hl].
  assert (Hpos : Forall (fun y => 0 < y) (x :: l)).
  { constructor; [lra |]. eapply Forall_impl; [exact Hl |]. intros y Hy. cbn in Hy. lra. }
  assert (Hvar : calculate_var p w =
                 (match np_percentile (map Fin (returns_from x l))
                          (fmul (fsub (Fin 1) (Fin conf)) (Fin 100)) with
                  | Ok v => Ok (fabs v)
                  | Raise e => Raise e
                  end, w)).
  { unfold calculate_var. run_monad.
    replace (length (portfolio_history (self w)) <? 30)%nat with false
      by (symmetry; apply Nat.ltb_ge; exact Hlen).
    replace (map (fun s => Fin (nav s)) (lastn 252 (portfolio_history (self w))))
      with (map Fin (x :: l)) by (rewrite <- Enavs; unfold navs; rewrite map_map; reflexivity).
    rewrite pct_change_positive by exact Hpos.
    unfold dropna. rewrite filter_cons_False by (cbn; congruence).
    fold (dropna (map Fin (returns_from x l))). rewrite dropna_Fin.
    replace (length (map Fin (returns_from x l)) <? 10)%nat with false
      by (symmetry; apply Nat.ltb_ge; rewrite length_map, returns_from_length;
          cbn in Hnlen; lia).
    rewrite Hconf. destruct (np_percentile _ _); reflexivity. }
  destruct (np_percentile_convex (fun q => q == 0) (map Fin (returns_from x l)) conf)
    as (v & Hv & Hzero).
  - intros a b t r Ha Hb _ _ Hr. rewrite Hr, Ha, Hb. ring.
  - destruct l; [cbn in Hnlen; lia | discriminate].
  - apply all_fin_map, (returns_from_flat c); assumption.
  - exact H0.
  - exact H1.
  - rewrite Hv in Hvar. cbn [fabs] in Hvar.
    assert (Habs : Qabs v == 0) by (rewrite Hzero; reflexivity).
    exists (Qabs v). eexists. split; [exact Hvar |]. split; [exact Habs |].
    rewrite check_var_run. unfold var_findings.
    rewrite calculate_var_run in Hvar. injection Hvar as ->.
    rewrite fgtb_Fin.
    replace (Qgtb (Qabs v) 0.02) with false
      by (symmetry; apply Qgtb_false; rewrite Habs; discriminate).
    reflexivity.
Qed.

Lemma flat_history_no_var_witness :
  ∃ v w',
    calculate_var (snap 0) (world_of default_engine flat_history []) =
      (Ok (Fin v), world_of default_engine flat_history []) ∧
    v == 0 ∧
    _check_var_limits (snap 0) (world_of default_engine flat_history []) = (Ok [], w').
Proof.
  apply (flat_history_no_var (snap 0) (world_of default_engine flat_history []) 100).
  - cbn. lia.
  - reflexivity.
  - repeat constructor.
  - exists 0.95. repeat split; discriminate.
Defined.

(** X22: the estimates warm up.  After fewer than 30 snapshots have been
    recorded into an engine with an empty history, the history holds them
    in order, and both the value at risk and the 30-day drawdown are still
    exactly 0.0, for every portfolio. *)
Theorem estimates_warm_up (ps : list Portfolio) (w : World) :
  portfolio_history (self w) = [] →
  (length ps < 30)%nat →
  ∃ w',
    for_each ps update_portfolio_history w = (Ok tt, w') ∧
    portfolio_history (self w') = ps ∧
    ∀ p, calculate_var p w' = (Ok (Fin 0), w') ∧
         _calculate_30day_drawdown p w' = (Ok (Fin 0), w').
Proof.
  intros Hempty Hlen. eexists. split; [apply record_all_run; rewrite Hempty; cbn; lia |].
  cbn [self with_portfolio_history portfolio_history]. rewrite Hempty. cbn [app].
  rewrite lastn_all by lia. split; [reflexivity |].
  intros p. unfold calculate_var, _calculate_30day_drawdown. run_monad.
  cbn [with_portfolio_history portfolio_history].
  apply Nat.ltb_lt in Hlen. rewrite Hlen. split; reflexivity.
Qed.

Lemma estimates_warm_up_witness :
  ∃ w',
    for_each (take 29 falling_history) update_portfolio_history
      (world_of default_engine [] []) = (Ok tt, w') ∧
    calculate_var (snap 0) w' = (Ok (Fin 0), w').
Proof.
  destruct (estimates_warm_up (take 29 falling_history) (world_of default_engine [] []))
    as (w' & Hrun & _ & Hzero); [reflexivity | cbn; lia |].
  exists w'. split; [exact Hrun | apply Hzero].
Defined.
